(** * TinyKV: the FASTER epoch framework, hash entries and aligned allocator

    A shallow embedding of the Go sources of packages [faster] and [tinykv]:

    - [alignedAlloc] of [faster/aligned_alloc.go];
    - the two [HashBucketEntry] packings (address in the low 48 bits, and
      address in the high 48 bits), [RecordHeader] and the bucket index
      of the hash table;
    - the epoch table with a slice of entries ([table []epochEntry],
      module [ValTable]) and the epoch table with a slice of pointers into
      an aligned buffer ([table []*epochEntry] with [tableUsed], module
      [PtrTable]);
    - the errors and the operations of the database interface of package
      [tinykv] (module [TinyKV]).

    Conventions.  Go's [uint64], [uint32] and [uint16] are [Z] with the
    wrap-around written out ([u64], [u32], [u16]); Go's [int] is the 64-bit
    two's complement integer ([int64]).  A Go function that can panic, or
    whose loop need not exit, returns a [result]; loops without a static
    bound take a fuel argument and answer [Spin] when it runs out.  The
    atomic loads, stores, adds and compare-and-swaps of [sync/atomic] are
    single steps on the field they address; the functions are modelled as
    executed by one thread at a time, and several threads are interleavings
    of whole calls. *)

From Stdlib Require Import ZArith Lia Bool.
From stdpp Require Import base list gmap strings.

Open Scope Z_scope.

(** ** Outcomes and machine integers *)

Inductive result (A : Type) : Type :=
| Ok (a : A)      (* the call returns *)
| Panic           (* run-time panic: index out of range, nil call, bad access *)
| Spin.           (* the loop is still running when the fuel is spent *)

Arguments Ok {A} a.
Arguments Panic {A}.
Arguments Spin {A}.

Definition u64 (z : Z) : Z := z mod 2 ^ 64.
Definition u32 (z : Z) : Z := z mod 2 ^ 32.
Definition u16 (z : Z) : Z := z mod 2 ^ 16.

(** Go's [int] on a 64-bit platform. *)
Definition int64 (z : Z) : Z := (z + 2 ^ 63) mod 2 ^ 64 - 2 ^ 63.

Definition CacheLineSize : Z := 64.

(** ** faster/aligned_alloc.go *)

(** A byte slice, by the address of its first byte and its length.  The
    nil slice is [None]. *)
Record bytes := mkBytes { data : Z; len : Z }.

(** [make([]byte, n)]: panics on a negative length; the run time places
    the block at [addr]. *)
Definition make_bytes (addr n : Z) : result bytes :=
  if n <? 0 then Panic else Ok (mkBytes addr n).

(** [alignedAlloc(alignment, size int) (origin []byte, start uintptr)];
    [addr] is where the run time puts [origin]. *)
Definition alignedAlloc (addr : Z) (alignment size : Z)
  : result (option bytes * Z) :=
  if (alignment <=? 0) || (size <=? 0) then Ok (None, 0)
  else
    match make_bytes addr (int64 (size + alignment - 1)) with
    | Ok origin =>
        let start := data origin in
        if negb (u64 start mod u64 alignment =? 0) then
          let offset := int64 (alignment - int64 (u64 start mod u64 alignment)) in
          Ok (Some origin, u64 (start + u64 offset))
        else Ok (Some origin, start)
    | Panic => Panic
    | Spin => Spin
    end.

(** An address range lies inside a byte slice. *)
Definition within (b : bytes) (p n : Z) : Prop :=
  data b <= p /\ p + n <= data b + len b.

(** ** Hash bucket entries: the two packings of the 64-bit word *)

(** Layout [| 1-bit tentative | 1-bit reserved | 14-bit tag | 48-bit address |]:
    the address is in the low 48 bits, the tag in bits 48 to 61. *)
Module LowAddr.

Definition GetAddress (entry : Z) : Z :=
  Z.land entry (Z.shiftl 1 48 - 1).

Definition SetAddress (entry addr : Z) : Z :=
  u64 (Z.land entry (Z.shiftl 0xffff 48) + Z.land addr (Z.shiftl 1 48 - 1)).

Definition GetTag (entry : Z) : Z :=
  u16 (Z.land (Z.shiftr entry 48) 0x3fff).

Definition SetTag (entry tag : Z) : Z :=
  u64 (Z.land entry (Z.shiftl 1 48 - 1) + Z.land entry (Z.shiftl 1 63)
       + u64 (Z.shiftl (Z.land tag 0x3fff) 48)).

Definition IsTentative (entry : Z) : bool :=
  negb (Z.shiftr entry 63 =? 0).

Definition SetTentative (entry : Z) : Z :=
  Z.lor entry (Z.shiftl 1 63).

End LowAddr.

(** Layout [| 48-bit address | 14-bit tag | 1-bit reserved | 1-bit tentative |]:
    the address is in the high 48 bits. *)
Module HighAddr.

Definition GetAddress (entry : Z) : Z :=
  Z.shiftr entry 16.

Definition SetAddress (entry addr : Z) : Z :=
  u64 (u64 (Z.shiftl addr 16) + Z.land entry 0xff).

Definition GetTag (entry : Z) : Z :=
  u16 (Z.shiftr (Z.land entry 0xff) 2).

Definition SetTag (entry tag : Z) : Z :=
  u64 (Z.land entry 0xffffff00 + Z.land entry 0x3
       + Z.land (u16 (Z.shiftl tag 2)) 0xff).

Definition IsTentative (entry : Z) : bool :=
  negb (Z.land entry 0x1 =? 0).

Definition SetTentative (entry : Z) : Z :=
  Z.lor entry 0x1.

End HighAddr.

(** ** The other small functions of the allocator and of the hash table *)

(** [getFirstAddress(buf []byte) unsafe.Pointer]: the address of the first
    byte; nil ([None]) for a nil or empty slice. *)
Definition getFirstAddress (buf : option bytes) : option Z :=
  match buf with
  | Some b => if negb (len b =? 0) then Some (data b) else None
  | None => None
  end.

(** [func (hdr *RecordHeader) AtomicLoadAddress() uintptr], on the layout
    [| 16-bit unused | 48-bit address |]. *)
Definition AtomicLoadAddress (hdr : Z) : Z :=
  Z.land hdr (Z.shiftl 1 48 - 1).

(** [bucketIdxForHash(hash uint64, size uint64) uint64] *)
Definition bucketIdxForHash (hash size : Z) : Z :=
  Z.land hash (u64 (size - 1)).

(** ** A state and error monad for the stateful code *)

(** A computation over a state [S] returns a value and the new state,
    panics, or is still spinning. *)
Definition M (S A : Type) : Type := S -> result (A * S).

#[global] Instance M_ret {S} : MRet (M S) := fun A a s => Ok (a, s).

#[global] Instance M_bind {S} : MBind (M S) := fun A B k c s =>
  match c s with
  | Ok (a, s') => k a s'
  | Panic => Panic
  | Spin => Spin
  end.

Definition panic {S A} : M S A := fun _ => Panic.
Definition spin {S A} : M S A := fun _ => Spin.
Definition gets {S A} (f : S -> A) : M S A := fun s => Ok (f s, s).
Definition modify {S} (f : S -> S) : M S unit := fun s => Ok (tt, f s).

(** The state a computation ends in. *)
Definition exec {S A} (c : M S A) (s : S) : result S :=
  match c s with
  | Ok (_, s') => Ok s'
  | Panic => Panic
  | Spin => Spin
  end.

(** A property of the state that a computation keeps whenever it
    returns. *)
Definition preserves {S A} (P : S -> Prop) (c : M S A) : Prop :=
  forall s a s', P s -> c s = Ok (a, s') -> P s'.

(** Slice and array indexing with a machine integer: out of range is a
    panic at the use. *)
Definition nth_Z {A} (l : list A) (i : Z) : option A :=
  if i <? 0 then None else l !! Z.to_nat i.

Definition upd_Z {A} (l : list A) (i : Z) (x : A) : list A :=
  if i <? 0 then l else <[Z.to_nat i := x]> l.

(** ** Epoch entries and epoch actions *)

Definition PrepareIndexCheckPhase : Z := 0x0.
Definition IndexCheckPhase : Z := 0x1.
Definition PreparePhase : Z := 0x2.
Definition InProgressPhase : Z := 0x3.
Definition WaitPendingPhase : Z := 0x4.
Definition WaitFlushPhase : Z := 0x5.
Definition RestPhase : Z := 0x6.
Definition PersistenceCallbackPhase : Z := 0x7.
Definition GcIoPendingPhase : Z := 0x8.
Definition GcInProgressPhase : Z := 0x9.
Definition GrowPreparePhase : Z := 0xa.
Definition GrowInProgressPhase : Z := 0xb.
Definition InvalidPhase : Z := 2 ^ 32 - 1.

Record epochEntry := mkEntry {
  localCurrentEpoch : Z;      (* uint64 *)
  reentrant : Z;              (* uint32 *)
  atomicPhaseFinished : Z     (* uint32 *)
}.

Definition set_localCurrentEpoch (v : Z) (e : epochEntry) : epochEntry :=
  mkEntry v (reentrant e) (atomicPhaseFinished e).
Definition set_reentrant (v : Z) (e : epochEntry) : epochEntry :=
  mkEntry (localCurrentEpoch e) v (atomicPhaseFinished e).
Definition set_atomicPhaseFinished (v : Z) (e : epochEntry) : epochEntry :=
  mkEntry (localCurrentEpoch e) (reentrant e) v.

(** [func (entry *epochEntry) initialize()] *)
Definition initialize (entry : epochEntry) : epochEntry :=
  set_atomicPhaseFinished RestPhase
    (set_reentrant 0 (set_localCurrentEpoch 0 entry)).

Definition epochFree : Z := 2 ^ 64 - 1.
Definition epochLocked : Z := 2 ^ 64 - 1 - 1.

Definition InvalidIndex : Z := 0.
Definition Unprotected : Z := 0.
Definition drainListSize : Z := 256.

(** A callback is known by the identity of its closure, its context by
    the identity of the object; [None] is Go's nil. *)
Definition EpochCallbackFunc : Type := nat.
Definition Context : Type := nat.

Record epochAction := mkAction {
  atomicEpoch : Z;
  callback : option EpochCallbackFunc;
  ctx : option Context
}.

Definition set_atomicEpoch (v : Z) (a : epochAction) : epochAction :=
  mkAction v (callback a) (ctx a).
Definition set_callback (v : option EpochCallbackFunc) (a : epochAction)
  : epochAction :=
  mkAction (atomicEpoch a) v (ctx a).
Definition set_ctx (v : option Context) (a : epochAction) : epochAction :=
  mkAction (atomicEpoch a) (callback a) v.

(** The zero values Go gives to fresh memory. *)
Definition zeroEntry : epochEntry := mkEntry 0 0 0.
Definition zeroAction : epochAction := mkAction 0 None None.

(** [func (action *epochAction) isFree() bool] *)
Definition isFree (action : epochAction) : bool :=
  atomicEpoch action =? epochFree.

(** ** The epoch table as a slice of entries: [table []epochEntry]

    The version of [faster/epoch.go] whose [LightEpoch] holds the entries
    themselves and whose phase barrier is [FinishThreadPhase]. *)

Module ValTable.

Record LightEpoch := mkLightEpoch {
  atomicCurrentEpoch : Z;
  atomicSafeToReclaimEpoch : Z;
  table : list epochEntry;
  entryNum : Z;
  atomicDrainCount : Z;
  drainList : list epochAction
}.

Definition set_atomicSafeToReclaimEpoch (v : Z) (e : LightEpoch) : LightEpoch :=
  mkLightEpoch (atomicCurrentEpoch e) v (table e) (entryNum e)
    (atomicDrainCount e) (drainList e).
Definition set_table (v : list epochEntry) (e : LightEpoch) : LightEpoch :=
  mkLightEpoch (atomicCurrentEpoch e) (atomicSafeToReclaimEpoch e) v
    (entryNum e) (atomicDrainCount e) (drainList e).
Definition set_drainList (v : list epochAction) (e : LightEpoch) : LightEpoch :=
  mkLightEpoch (atomicCurrentEpoch e) (atomicSafeToReclaimEpoch e) (table e)
    (entryNum e) (atomicDrainCount e) v.

(** [epoch.table[i]] read and written in place. *)
Definition entryAt (i : Z) : M LightEpoch epochEntry := fun e =>
  match nth_Z (table e) i with
  | Some entry => Ok (entry, e)
  | None => Panic
  end.

Definition updEntry (i : Z) (f : epochEntry -> epochEntry)
  : M LightEpoch unit :=
  entry ← entryAt i;
  modify (fun e => set_table (upd_Z (table e) i (f entry)) e).

Definition updAction (i : Z) (f : epochAction -> epochAction)
  : M LightEpoch unit := fun e =>
  match nth_Z (drainList e) i with
  | Some a => Ok (tt, set_drainList (upd_Z (drainList e) i (f a)) e)
  | None => Panic
  end.

Fixpoint initTable (n : nat) (i : Z) : M LightEpoch unit :=
  match n with
  | O => mret tt
  | S n' => updEntry i initialize;; initTable n' (i + 1)
  end.

(** [func (action *epochAction) initialize()] at [drainList[i]]. *)
Definition initializeAction (i : Z) : M LightEpoch unit :=
  updAction i (set_ctx None);;
  updAction i (set_callback None);;
  updAction i (set_atomicEpoch epochFree).

Fixpoint initDrainList (n : nat) (i : Z) : M LightEpoch unit :=
  match n with
  | O => mret tt
  | S n' => initializeAction i;; initDrainList n' (i + 1)
  end.

Definition NewLightEpoch (size : Z) : result LightEpoch :=
  let epoch :=
    mkLightEpoch 1 0 (replicate (Z.to_nat (u32 (size + 2))) zeroEntry)
      size 0 (replicate (Z.to_nat drainListSize) zeroAction) in
  exec (initTable (Z.to_nat (u32 (size + 2))) 0;;
        initDrainList (Z.to_nat drainListSize) 0) epoch.

Definition Protect (entryIdx : Z) : M LightEpoch Z :=
  _ ← entryAt entryIdx;
  cur ← gets atomicCurrentEpoch;
  updEntry entryIdx (set_localCurrentEpoch cur);;
  entry ← entryAt entryIdx;
  mret (localCurrentEpoch entry).

Definition ReentrantProtect (entryIdx : Z) : M LightEpoch Z :=
  entry ← entryAt entryIdx;
  if negb (Unprotected =? localCurrentEpoch entry) then
    mret (localCurrentEpoch entry)
  else
    cur ← gets atomicCurrentEpoch;
    updEntry entryIdx (set_localCurrentEpoch cur);;
    updEntry entryIdx (fun en => set_reentrant (u32 (reentrant en + 1)) en);;
    entry ← entryAt entryIdx;
    mret (localCurrentEpoch entry).

Definition IsProtected (entryIdx : Z) : M LightEpoch bool :=
  entry ← entryAt entryIdx;
  mret (negb (localCurrentEpoch entry =? Unprotected)).

Definition Unprotect (entryIdx : Z) : M LightEpoch unit :=
  updEntry entryIdx (set_localCurrentEpoch Unprotected).

Definition ReentrantUnprotect (entryIdx : Z) : M LightEpoch unit :=
  updEntry entryIdx (fun en => set_reentrant (u32 (reentrant en - 1)) en);;
  entry ← entryAt entryIdx;
  if reentrant entry =? 0 then
    updEntry entryIdx (set_localCurrentEpoch Unprotected)
  else mret tt.

(** The scan [for i := uint32(1); i <= epoch.entryNum; i++]. *)
Fixpoint scanTable (n : nat) (i : Z) (oldestOngoingCall : Z)
  : M LightEpoch Z :=
  match n with
  | O => mret oldestOngoingCall
  | S n' =>
      entry ← entryAt i;
      let entryEpoch := localCurrentEpoch entry in
      scanTable n' (i + 1)
        (if negb (entryEpoch =? Unprotected) && (entryEpoch <? oldestOngoingCall)
         then entryEpoch else oldestOngoingCall)
  end.

Definition ComputeNewSafeToReclaimEpoch (currentEpoch : Z) : M LightEpoch Z :=
  n ← gets entryNum;
  oldestOngoingCall ← scanTable (Z.to_nat n) 1 currentEpoch;
  modify (set_atomicSafeToReclaimEpoch (u64 (oldestOngoingCall - 1)));;
  gets atomicSafeToReclaimEpoch.

Fixpoint SpinWaitForSafeToReclaim (fuel : nat)
  (currentEpoch safeToReclaimEpoch : Z) : M LightEpoch unit :=
  match fuel with
  | O => spin
  | S fuel' =>
      ComputeNewSafeToReclaimEpoch currentEpoch;;
      safe ← gets atomicSafeToReclaimEpoch;
      if safe <? safeToReclaimEpoch (* safeToReclaimEpoch > safe *) then mret tt
      else SpinWaitForSafeToReclaim fuel' currentEpoch safeToReclaimEpoch
  end.

Definition IsSafeToReclaim (expectedEpoch : Z) : M LightEpoch bool :=
  safe ← gets atomicSafeToReclaimEpoch;
  mret (expectedEpoch <? safe).

(** The scan [for i := uint32(1); i < epoch.entryNum; i++] of
    [FinishThreadPhase]. *)
Fixpoint checkPhases (n : nat) (i : Z) (phase : Z) : M LightEpoch bool :=
  match n with
  | O => mret true
  | S n' =>
      entry ← entryAt i;
      let entryPhase := atomicPhaseFinished entry in
      let entryEpoch := localCurrentEpoch entry in
      if negb (entryEpoch =? 0) && negb (entryPhase =? phase) then mret false
      else checkPhases n' (i + 1) phase
  end.

Definition FinishThreadPhase (entryIdx phase : Z) : M LightEpoch bool :=
  updEntry entryIdx (set_atomicPhaseFinished phase);;
  n ← gets entryNum;
  checkPhases (Z.to_nat (n - 1)) 1 phase.

(** The scan [for i := uint32(1); i < epoch.entryNum; i++] of
    [ResetPhaseFinished]. *)
Fixpoint resetPhases (n : nat) (i : Z) : M LightEpoch unit :=
  match n with
  | O => mret tt
  | S n' =>
      updEntry i (set_atomicPhaseFinished RestPhase);;
      resetPhases n' (i + 1)
  end.

Definition ResetPhaseFinished : M LightEpoch unit :=
  n ← gets entryNum;
  resetPhases (Z.to_nat (n - 1)) 1.

Definition HasThreadFinishedPhase (entryIdx phase : Z) : M LightEpoch bool :=
  entry ← entryAt entryIdx;
  mret (atomicPhaseFinished entry =? phase).

(** What the statements about this table observe. *)

(** The entry of slot [i]. *)
Definition slot (e : LightEpoch) (i : Z) : option epochEntry :=
  nth_Z (table e) i.

(** Slot [i] is protected: what [IsProtected(i)] tests. *)
Definition protected (e : LightEpoch) (i : Z) : Prop :=
  exists en, slot e i = Some en /\ localCurrentEpoch en <> Unprotected.

(** Every protected slot among the usable ones has reported [phase]. *)
Definition all_protected_finished (e : LightEpoch) (phase : Z) : Prop :=
  forall i en, 1 <= i <= entryNum e -> slot e i = Some en ->
    localCurrentEpoch en <> 0 -> atomicPhaseFinished en = phase.

(** [k] calls of the same operation in a row. *)
Fixpoint repeatM {A} (k : nat) (c : M LightEpoch A) : M LightEpoch unit :=
  match k with
  | O => mret tt
  | S k' => c;; repeatM k' c
  end.

(** Everything of the object but the table. *)
Definition globals (e : LightEpoch) : Z * Z * Z * Z * list epochAction :=
  (atomicCurrentEpoch e, atomicSafeToReclaimEpoch e, entryNum e,
   atomicDrainCount e, drainList e).

(** The object [e'] differs from [e] in slot [i] at most. *)
Definition same_but_slot (i : Z) (e e' : LightEpoch) : Prop :=
  globals e' = globals e /\ forall j, j <> i -> slot e' j = slot e j.

End ValTable.

(** ** The epoch table as a slice of pointers: [table []*epochEntry]

    The version of the epoch framework whose [LightEpoch] holds pointers
    into a cache-line aligned buffer, with the in-use flags [tableUsed],
    [FindAndReserveEmptyEntry] and the phase barrier
    [MarkAndCheckIfFinished]. *)

Module PtrTable.

Record LightEpoch := mkLightEpoch {
  atomicCurrentEpoch : Z;
  atomicSafeToReclaimEpoch : Z;
  table : list Z;               (* []*epochEntry: the address held by each slot *)
  tableUsed : list Z;           (* []int32 *)
  entryNum : Z;
  atomicDrainCount : Z;
  drainList : list epochAction
}.

(** The object behind the [*LightEpoch] receiver, the buffer that
    [NewLightEpoch] obtained from [alignedAlloc], the [epochEntry] values
    stored in it by address, and the callbacks invoked so far, oldest
    first. *)
Record machine := mkMachine {
  epoch : LightEpoch;
  tableBuf : option bytes;
  cells : gmap Z epochEntry;
  fired : list (EpochCallbackFunc * option Context)
}.

Definition set_atomicCurrentEpoch (v : Z) (e : LightEpoch) : LightEpoch :=
  mkLightEpoch v (atomicSafeToReclaimEpoch e) (table e) (tableUsed e)
    (entryNum e) (atomicDrainCount e) (drainList e).
Definition set_atomicSafeToReclaimEpoch (v : Z) (e : LightEpoch) : LightEpoch :=
  mkLightEpoch (atomicCurrentEpoch e) v (table e) (tableUsed e)
    (entryNum e) (atomicDrainCount e) (drainList e).
Definition set_table (v : list Z) (e : LightEpoch) : LightEpoch :=
  mkLightEpoch (atomicCurrentEpoch e) (atomicSafeToReclaimEpoch e) v
    (tableUsed e) (entryNum e) (atomicDrainCount e) (drainList e).
Definition set_tableUsed (v : list Z) (e : LightEpoch) : LightEpoch :=
  mkLightEpoch (atomicCurrentEpoch e) (atomicSafeToReclaimEpoch e) (table e)
    v (entryNum e) (atomicDrainCount e) (drainList e).
Definition set_atomicDrainCount (v : Z) (e : LightEpoch) : LightEpoch :=
  mkLightEpoch (atomicCurrentEpoch e) (atomicSafeToReclaimEpoch e) (table e)
    (tableUsed e) (entryNum e) v (drainList e).
Definition set_drainList (v : list epochAction) (e : LightEpoch) : LightEpoch :=
  mkLightEpoch (atomicCurrentEpoch e) (atomicSafeToReclaimEpoch e) (table e)
    (tableUsed e) (entryNum e) (atomicDrainCount e) v.

Definition upd_epoch (f : LightEpoch -> LightEpoch) (m : machine) : machine :=
  mkMachine (f (epoch m)) (tableBuf m) (cells m) (fired m).
Definition set_cells (v : gmap Z epochEntry) (m : machine) : machine :=
  mkMachine (epoch m) (tableBuf m) v (fired m).
Definition set_fired (v : list (EpochCallbackFunc * option Context))
  (m : machine) : machine :=
  mkMachine (epoch m) (tableBuf m) (cells m) v.

(** Reading a field of the receiver, and writing one. *)
Definition load {A} (f : LightEpoch -> A) : M machine A :=
  gets (fun m => f (epoch m)).
Definition store (f : LightEpoch -> LightEpoch) : M machine unit :=
  modify (upd_epoch f).

(** An [*epochEntry] can be used when the 64 bytes it points to lie in the
    buffer; memory not written yet reads as zero. *)
Definition valid (m : machine) (p : Z) : bool :=
  match tableBuf m with
  | Some b => (data b <=? p) && (p + CacheLineSize <=? data b + len b)
  | None => false
  end.

Definition loadEntry (p : Z) : M machine epochEntry := fun m =>
  if valid m p then Ok (default zeroEntry (cells m !! p), m) else Panic.

Definition updEntry (p : Z) (f : epochEntry -> epochEntry) : M machine unit :=
  entry ← loadEntry p;
  modify (fun m => set_cells (<[p := f entry]> (cells m)) m).

(** [epoch.table[i]], [epoch.tableUsed[i]] and [epoch.drainList[i]]. *)
Definition tableAt (i : Z) : M machine Z := fun m =>
  match nth_Z (table (epoch m)) i with
  | Some p => Ok (p, m)
  | None => Panic
  end.

Definition setTableAt (i : Z) (p : Z) : M machine unit :=
  _ ← tableAt i;
  store (fun e => set_table (upd_Z (table e) i p) e).

Definition tableUsedAt (i : Z) : M machine Z := fun m =>
  match nth_Z (tableUsed (epoch m)) i with
  | Some u => Ok (u, m)
  | None => Panic
  end.

Definition setTableUsedAt (i : Z) (u : Z) : M machine unit :=
  _ ← tableUsedAt i;
  store (fun e => set_tableUsed (upd_Z (tableUsed e) i u) e).

Definition actionAt (i : Z) : M machine epochAction := fun m =>
  match nth_Z (drainList (epoch m)) i with
  | Some a => Ok (a, m)
  | None => Panic
  end.

Definition updAction (i : Z) (f : epochAction -> epochAction)
  : M machine unit :=
  a ← actionAt i;
  store (fun e => set_drainList (upd_Z (drainList e) i (f a)) e).

(** Calling a callback value: nil panics, a closure is recorded. *)
Definition call (callback : option EpochCallbackFunc) (ctx : option Context)
  : M machine unit :=
  match callback with
  | Some f => modify (fun m => set_fired (fired m ++ [(f, ctx)]) m)
  | None => panic
  end.

(** [atomic.CompareAndSwapUint64(&epoch.drainList[i].atomicEpoch, old, new)] *)
Definition casActionEpoch (i : Z) (old new : Z) : M machine bool :=
  a ← actionAt i;
  if atomicEpoch a =? old then updAction i (set_atomicEpoch new);; mret true
  else mret false.

(** [atomic.CompareAndSwapInt32(&epoch.tableUsed[i], old, new)] *)
Definition casTableUsed (i : Z) (old new : Z) : M machine bool :=
  u ← tableUsedAt i;
  if u =? old then setTableUsedAt i new;; mret true
  else mret false.

(** [atomic.AddUint32(&epoch.atomicDrainCount, delta)] *)
Definition addDrainCount (delta : Z) : M machine Z :=
  store (fun e => set_atomicDrainCount (u32 (atomicDrainCount e + delta)) e);;
  load atomicDrainCount.

(** [func (action *epochAction) initialize()] at [drainList[i]]. *)
Definition initializeAction (i : Z) : M machine unit :=
  updAction i (set_ctx None);;
  updAction i (set_callback None);;
  updAction i (set_atomicEpoch epochFree).

Definition tryPop (i : Z) (expectedEpoch : Z) : M machine bool :=
  retVal ← casActionEpoch i expectedEpoch epochLocked;
  if retVal : bool then
    a ← actionAt i;
    let ctx := ctx a in
    let callback := callback a in
    updAction i (set_callback None);;
    updAction i (set_ctx None);;
    updAction i (set_atomicEpoch epochFree);;
    call callback ctx;;
    mret retVal
  else mret retVal.

Definition tryPush (i : Z) (priorEpoch : Z)
  (newCallback : option EpochCallbackFunc) (newCtx : option Context)
  : M machine bool :=
  retVal ← casActionEpoch i epochFree epochLocked;
  if retVal : bool then
    updAction i (set_callback newCallback);;
    updAction i (set_ctx newCtx);;
    updAction i (set_atomicEpoch priorEpoch);;
    mret retVal
  else mret retVal.

Definition trySwap (i : Z) (expectedEpoch priorEpoch : Z)
  (newCallback : option EpochCallbackFunc) (newCtx : option Context)
  : M machine bool :=
  retVal ← casActionEpoch i expectedEpoch epochLocked;
  if retVal : bool then
    a ← actionAt i;
    let existingCallback := callback a in
    let existingCtx := ctx a in
    updAction i (set_callback newCallback);;
    updAction i (set_ctx newCtx);;
    updAction i (set_atomicEpoch priorEpoch);;
    call existingCallback existingCtx;;
    mret retVal
  else mret retVal.

(** The loop of [NewLightEpoch] over the table: every slot receives the
    address [start + uintptr(CacheLineSize)] and the entry there is
    initialized. *)
Fixpoint initTable (n : nat) (i : Z) (start : Z) : M machine unit :=
  match n with
  | O => mret tt
  | S n' =>
      setTableAt i (u64 (start + CacheLineSize));;
      entry ← tableAt i;
      updEntry entry initialize;;
      initTable n' (i + 1) start
  end.

Fixpoint initDrainList (n : nat) (i : Z) : M machine unit :=
  match n with
  | O => mret tt
  | S n' => initializeAction i;; initDrainList n' (i + 1)
  end.

(** [NewLightEpoch(size uint32)]; [addr] is where the run time puts the
    buffer of [alignedAlloc]. *)
Definition NewLightEpoch (addr : Z) (size : Z) : result machine :=
  let epoch :=
    mkLightEpoch 1 0
      (replicate (Z.to_nat (u32 (size + 2))) 0)
      (replicate (Z.to_nat (u32 (size + 2))) 0)
      size 0 (replicate (Z.to_nat drainListSize) zeroAction) in
  match alignedAlloc addr CacheLineSize
          (u32 (u32 (size + 2) * CacheLineSize)) with
  | Ok (tableBuf, start) =>
      exec (initTable (Z.to_nat (u32 (size + 2))) 0 start;;
            initDrainList (Z.to_nat drainListSize) 0)
           (mkMachine epoch tableBuf ∅ [])
  | Panic => Panic
  | Spin => Spin
  end.

(** One pass [for i := 0; i < int(epoch.entryNum); i++] of
    [FindAndReserveEmptyEntry]: the reserved index if a
    compare-and-swap succeeded, and the probe count. *)
Fixpoint probePass (n : nat) (i : Z) (startIdx iteration : Z)
  : M machine (option Z * Z) :=
  match n with
  | O => mret (None, iteration)
  | S n' =>
      num ← load entryNum;
      let idx := int64 (1 + Z.rem (int64 (startIdx + i)) num) in
      reserved ← casTableUsed idx 0 1;
      if reserved : bool then mret (Some idx, iteration)
      else probePass n' (i + 1) startIdx (int64 (iteration + 1))
  end.

Fixpoint findLoop (fuel : nat) (startIdx iteration : Z) : M machine Z :=
  match fuel with
  | O => spin
  | S fuel' =>
      num ← load entryNum;
      r ← probePass (Z.to_nat num) 0 startIdx iteration;
      match r with
      | (Some idx, _) => mret idx
      | (None, iteration') =>
          if u32 (3 * num) <? iteration' then panic
          else findLoop fuel' startIdx iteration'
      end
  end.

(** [FindAndReserveEmptyEntry()]; [startIdx] is the value of
    [rand.Int()], [fuel] bounds the passes of the outer loop. *)
Definition FindAndReserveEmptyEntry (fuel : nat) (startIdx : Z) : M machine Z :=
  findLoop fuel startIdx 0.

Definition ReleaseEntry (epochIdx : Z) : M machine unit :=
  entry ← tableAt epochIdx;
  updEntry entry initialize;;
  setTableUsedAt epochIdx 0.

Definition Protect (entryIdx : Z) : M machine Z :=
  entry ← tableAt entryIdx;
  cur ← load atomicCurrentEpoch;
  updEntry entry (set_localCurrentEpoch cur);;
  en ← loadEntry entry;
  mret (localCurrentEpoch en).

Definition ReentrantProtect (entryIdx : Z) : M machine Z :=
  entry ← tableAt entryIdx;
  updEntry entry (fun en => set_reentrant (u32 (reentrant en + 1)) en);;
  en ← loadEntry entry;
  if negb (Unprotected =? localCurrentEpoch en) then
    mret (localCurrentEpoch en)
  else
    cur ← load atomicCurrentEpoch;
    updEntry entry (set_localCurrentEpoch cur);;
    en ← loadEntry entry;
    mret (localCurrentEpoch en).

Definition IsProtected (entryIdx : Z) : M machine bool :=
  entry ← tableAt entryIdx;
  en ← loadEntry entry;
  mret (negb (localCurrentEpoch en =? Unprotected)).

Definition Unprotect (entryIdx : Z) : M machine unit :=
  entry ← tableAt entryIdx;
  updEntry entry (set_localCurrentEpoch Unprotected).

Definition ReentrantUnprotect (entryIdx : Z) : M machine unit :=
  entry ← tableAt entryIdx;
  updEntry entry (fun en => set_reentrant (u32 (reentrant en - 1)) en);;
  en ← loadEntry entry;
  if reentrant en =? 0 then
    updEntry entry (set_localCurrentEpoch Unprotected)
  else mret tt.

(** The scan [for i := uint32(1); i <= epoch.entryNum; i++]. *)
Fixpoint scanTable (n : nat) (i : Z) (oldestOngoingCall : Z) : M machine Z :=
  match n with
  | O => mret oldestOngoingCall
  | S n' =>
      entry ← tableAt i;
      en ← loadEntry entry;
      let entryEpoch := localCurrentEpoch en in
      scanTable n' (i + 1)
        (if negb (entryEpoch =? Unprotected) && (entryEpoch <? oldestOngoingCall)
         then entryEpoch else oldestOngoingCall)
  end.

Definition ComputeNewSafeToReclaimEpoch (currentEpoch : Z) : M machine Z :=
  num ← load entryNum;
  oldestOngoingCall ← scanTable (Z.to_nat num) 1 currentEpoch;
  store (set_atomicSafeToReclaimEpoch (u64 (oldestOngoingCall - 1)));;
  load atomicSafeToReclaimEpoch.

(** The scan [for i := uint32(0); i < drainListSize; i++] of [Drain]. *)
Fixpoint drainLoop (n : nat) (i : Z) : M machine unit :=
  match n with
  | O => mret tt
  | S n' =>
      a ← actionAt i;
      let triggerEpoch := atomicEpoch a in
      safe ← load atomicSafeToReclaimEpoch;
      if triggerEpoch <=? safe then
        popped ← tryPop i triggerEpoch;
        if popped : bool then
          count ← addDrainCount (2 ^ 32 - 1);
          if count =? 0 then mret tt else drainLoop n' (i + 1)
        else drainLoop n' (i + 1)
      else drainLoop n' (i + 1)
  end.

Definition Drain (nextEpoch : Z) : M machine unit :=
  ComputeNewSafeToReclaimEpoch nextEpoch;;
  drainLoop (Z.to_nat drainListSize) 0.

Definition ProtectAndDrain (entryIdx : Z) : M machine Z :=
  entry ← tableAt entryIdx;
  cur ← load atomicCurrentEpoch;
  updEntry entry (set_localCurrentEpoch cur);;
  count ← load atomicDrainCount;
  (if 0 <? count then
     en ← loadEntry entry; Drain (localCurrentEpoch en)
   else mret tt);;
  en ← loadEntry entry;
  mret (localCurrentEpoch en).

Definition BumpCurrentEpoch : M machine Z :=
  store (fun e => set_atomicCurrentEpoch (u64 (atomicCurrentEpoch e + 1)) e);;
  nextEpoch ← load atomicCurrentEpoch;
  count ← load atomicDrainCount;
  (if 0 <? count then Drain nextEpoch else mret tt);;
  mret nextEpoch.

(** The loop of [BumpCurrentEpochWithCallback] over the drain list;
    [i] is the slot, [j] the count of full passes (reset, after the sleep
    and the log line, at 500). *)
Fixpoint registerLoop (fuel : nat) (i j : Z) (priorEpoch : Z)
  (callback : option EpochCallbackFunc) (ctx : option Context)
  : M machine unit :=
  match fuel with
  | O => spin
  | S fuel' =>
      a ← actionAt i;
      let triggerEpoch := atomicEpoch a in
      placed ←
        (if triggerEpoch =? epochFree then
           pushed ← tryPush i priorEpoch callback ctx;
           if pushed : bool then addDrainCount 1;; mret true
           else mret false
         else
           safe ← load atomicSafeToReclaimEpoch;
           if triggerEpoch <=? safe then
             trySwap i triggerEpoch priorEpoch callback ctx
           else mret false);
      if placed : bool then mret tt
      else
        if i + 1 =? drainListSize then
          registerLoop fuel' 0 (if j + 1 =? 500 then 0 else j + 1)
            priorEpoch callback ctx
        else registerLoop fuel' (i + 1) j priorEpoch callback ctx
  end.

Definition BumpCurrentEpochWithCallback (fuel : nat)
  (callback : option EpochCallbackFunc) (ctx : option Context) : M machine Z :=
  nextEpoch ← BumpCurrentEpoch;
  let priorEpoch := u64 (nextEpoch - 1) in
  registerLoop fuel 0 0 priorEpoch callback ctx;;
  mret (u64 (priorEpoch + 1)).

Fixpoint SpinWaitForSafeToReclaim (fuel : nat)
  (currentEpoch safeToReclaimEpoch : Z) : M machine unit :=
  match fuel with
  | O => spin
  | S fuel' =>
      safe ← ComputeNewSafeToReclaimEpoch currentEpoch;
      if safeToReclaimEpoch <=? safe then mret tt
      else SpinWaitForSafeToReclaim fuel' currentEpoch safeToReclaimEpoch
  end.

Definition IsSafeToReclaim (expectedEpoch : Z) : M machine bool :=
  safe ← load atomicSafeToReclaimEpoch;
  mret (expectedEpoch <=? safe).

(** The scan [for i := uint32(1); i < epoch.entryNum; i++]. *)
Fixpoint resetPhases (n : nat) (i : Z) : M machine unit :=
  match n with
  | O => mret tt
  | S n' =>
      entry ← tableAt i;
      updEntry entry (set_atomicPhaseFinished RestPhase);;
      resetPhases n' (i + 1)
  end.

Definition ResetPhaseFinished : M machine unit :=
  num ← load entryNum;
  resetPhases (Z.to_nat (num - 1)) 1.

Fixpoint checkPhases (n : nat) (i : Z) (phase : Z) : M machine bool :=
  match n with
  | O => mret true
  | S n' =>
      entry ← tableAt i;
      en ← loadEntry entry;
      let entryPhase := atomicPhaseFinished en in
      let entryEpoch := localCurrentEpoch en in
      if negb (entryEpoch =? 0) && negb (entryPhase =? phase) then mret false
      else checkPhases n' (i + 1) phase
  end.

Definition MarkAndCheckIfFinished (entryIdx phase : Z) : M machine bool :=
  entry ← tableAt entryIdx;
  updEntry entry (set_atomicPhaseFinished phase);;
  num ← load entryNum;
  checkPhases (Z.to_nat (num - 1)) 1 phase.

Definition HasThreadFinishedPhase (entryIdx phase : Z) : M machine bool :=
  entry ← tableAt entryIdx;
  en ← loadEntry entry;
  mret (atomicPhaseFinished en =? phase).

(** What the statements about this table observe. *)

(** The value behind an entry pointer. *)
Definition entryOf (m : machine) (p : Z) : epochEntry :=
  default zeroEntry (cells m !! p).

(** The entry that slot [i] of the table points to, when it can be read. *)
Definition slot (m : machine) (i : Z) : option epochEntry :=
  match nth_Z (table (epoch m)) i with
  | Some p => if valid m p then Some (entryOf m p) else None
  | None => None
  end.

(** Slot [i] is protected: what [IsProtected(i)] tests. *)
Definition protected (m : machine) (i : Z) : Prop :=
  exists en, slot m i = Some en /\ localCurrentEpoch en <> Unprotected.

(** The cached safe-to-reclaim epoch is at most the local epoch of every
    protected usable slot, minus one. *)
Definition safe_below_protected (m : machine) : Prop :=
  forall i en, 1 <= i <= entryNum (epoch m) -> slot m i = Some en ->
    localCurrentEpoch en <> Unprotected ->
    atomicSafeToReclaimEpoch (epoch m) <= localCurrentEpoch en - 1.

(** Every protected slot among the usable ones has reported [phase]. *)
Definition all_protected_finished (m : machine) (phase : Z) : Prop :=
  forall i en, 1 <= i <= entryNum (epoch m) -> slot m i = Some en ->
    localCurrentEpoch en <> 0 -> atomicPhaseFinished en = phase.

(** How often the callback [f] has been invoked. *)
Definition invocations (f : EpochCallbackFunc) (m : machine) : nat :=
  length (filter (fun c => c.1 = f) (fired m)).

(** The in-use flag of slot [i]. *)
Definition used (m : machine) (i : Z) : option Z :=
  nth_Z (tableUsed (epoch m)) i.

(** Calls of the exported operations, with their arguments. *)
Inductive operation :=
| OpFindAndReserveEmptyEntry (fuel : nat) (startIdx : Z)
| OpReleaseEntry (epochIdx : Z)
| OpProtect (entryIdx : Z)
| OpProtectAndDrain (entryIdx : Z)
| OpReentrantProtect (entryIdx : Z)
| OpIsProtected (entryIdx : Z)
| OpUnprotect (entryIdx : Z)
| OpReentrantUnprotect (entryIdx : Z)
| OpDrain (nextEpoch : Z)
| OpBumpCurrentEpoch
| OpBumpCurrentEpochWithCallback (fuel : nat)
    (callback : option EpochCallbackFunc) (ctx : option Context)
| OpComputeNewSafeToReclaimEpoch (currentEpoch : Z)
| OpSpinWaitForSafeToReclaim (fuel : nat) (currentEpoch safeToReclaimEpoch : Z)
| OpIsSafeToReclaim (expectedEpoch : Z)
| OpResetPhaseFinished
| OpMarkAndCheckIfFinished (entryIdx phase : Z)
| OpHasThreadFinishedPhase (entryIdx phase : Z).

Definition perform (c : operation) : M machine unit :=
  match c with
  | OpFindAndReserveEmptyEntry fuel startIdx =>
      FindAndReserveEmptyEntry fuel startIdx;; mret tt
  | OpReleaseEntry epochIdx => ReleaseEntry epochIdx
  | OpProtect entryIdx => Protect entryIdx;; mret tt
  | OpProtectAndDrain entryIdx => ProtectAndDrain entryIdx;; mret tt
  | OpReentrantProtect entryIdx => ReentrantProtect entryIdx;; mret tt
  | OpIsProtected entryIdx => IsProtected entryIdx;; mret tt
  | OpUnprotect entryIdx => Unprotect entryIdx
  | OpReentrantUnprotect entryIdx => ReentrantUnprotect entryIdx
  | OpDrain nextEpoch => Drain nextEpoch
  | OpBumpCurrentEpoch => BumpCurrentEpoch;; mret tt
  | OpBumpCurrentEpochWithCallback fuel callback ctx =>
      BumpCurrentEpochWithCallback fuel callback ctx;; mret tt
  | OpComputeNewSafeToReclaimEpoch currentEpoch =>
      ComputeNewSafeToReclaimEpoch currentEpoch;; mret tt
  | OpSpinWaitForSafeToReclaim fuel currentEpoch safeToReclaimEpoch =>
      SpinWaitForSafeToReclaim fuel currentEpoch safeToReclaimEpoch
  | OpIsSafeToReclaim expectedEpoch => IsSafeToReclaim expectedEpoch;; mret tt
  | OpResetPhaseFinished => ResetPhaseFinished
  | OpMarkAndCheckIfFinished entryIdx phase =>
      MarkAndCheckIfFinished entryIdx phase;; mret tt
  | OpHasThreadFinishedPhase entryIdx phase =>
      HasThreadFinishedPhase entryIdx phase;; mret tt
  end.

Fixpoint performAll (cs : list operation) : M machine unit :=
  match cs with
  | [] => mret tt
  | c :: cs' => perform c;; performAll cs'
  end.

(** The states after each call of a sequence, up to the first call that
    does not return. *)
Fixpoint history (cs : list operation) (m : machine) : list machine :=
  match cs with
  | [] => []
  | c :: cs' =>
      match exec (perform c) m with
      | Ok m' => m' :: history cs' m'
      | _ => []
      end
  end.

(** The calls of the monotonicity property. *)
Definition basic_operation (c : operation) : Prop :=
  match c with
  | OpProtect _ | OpUnprotect _ | OpBumpCurrentEpoch => True
  | _ => False
  end.

(** Draining and bumping with a live epoch value: [Drain(nextEpoch)] for
    a [nextEpoch] that is an epoch (the counter starts at 1), and
    [BumpCurrentEpoch]. *)
Definition drain_or_bump (c : operation) : Prop :=
  match c with
  | OpDrain nextEpoch => 1 <= nextEpoch < 2 ^ 64
  | OpBumpCurrentEpoch => True
  | _ => False
  end.

(** A call that does not register the callback [f]. *)
Definition not_registering (f : EpochCallbackFunc) (c : operation) : Prop :=
  match c with
  | OpBumpCurrentEpochWithCallback _ callback _ => callback <> Some f
  | _ => True
  end.

(** [k] calls of the same operation in a row. *)
Fixpoint repeatM {A} (k : nat) (c : M machine A) : M machine unit :=
  match k with
  | O => mret tt
  | S k' => c;; repeatM k' c
  end.

(** The machine after a write of the entry at address [p]. *)
Definition withEntry (m : machine) (p : Z) (en : epochEntry) : machine :=
  set_cells (<[p := en]> (cells m)) m.

(** The drain-list slot left by [initialize]. *)
Definition freeAction : epochAction := mkAction epochFree None None.

(** A machine all of whose table slots hold the same address [p], with the
    entry [en] stored there. *)
Definition aliased (p : Z) (buf : bytes) (size : Z) (cur safe : Z)
  (en : epochEntry) (count : Z) (actions : list epochAction)
  (invoked : list (EpochCallbackFunc * option Context)) : machine :=
  mkMachine
    (mkLightEpoch cur safe
       (replicate (Z.to_nat (size + 2)) p)
       (replicate (Z.to_nat (size + 2)) 0)
       size count actions)
    (Some buf) {[p := en]} invoked.

(** One step of the scan of [ComputeNewSafeToReclaimEpoch] at an entry. *)
Definition older (en : epochEntry) (oldestOngoingCall : Z) : Z :=
  if negb (localCurrentEpoch en =? Unprotected)
     && (localCurrentEpoch en <? oldestOngoingCall)
  then localCurrentEpoch en else oldestOngoingCall.

(** No action was ever registered: the drain count and the cached safe
    epoch still have their initial value 0; the stored epochs are
    unsigned. *)
Definition never_drained (m : machine) : Prop :=
  atomicDrainCount (epoch m) = 0
  /\ atomicSafeToReclaimEpoch (epoch m) = 0
  /\ 0 <= atomicCurrentEpoch (epoch m)
  /\ forall q en, cells m !! q = Some en -> 0 <= localCurrentEpoch en.

(** The part of the machine that the epochs live in: everything but the
    drain list, its count and the record of invocations. *)
Definition core (m : machine)
  : Z * Z * list Z * Z * option bytes * gmap Z epochEntry :=
  (atomicCurrentEpoch (epoch m), atomicSafeToReclaimEpoch (epoch m),
   table (epoch m), entryNum (epoch m), tableBuf m, cells m).

(** The order of the epochs that the operations maintain: the cached
    safe epoch is below the current epoch and below the epoch of every
    protected usable slot. *)
Definition epochs_ordered (m : machine) : Prop :=
  0 <= atomicSafeToReclaimEpoch (epoch m) < atomicCurrentEpoch (epoch m)
  /\ (forall q en, cells m !! q = Some en -> 0 <= localCurrentEpoch en)
  /\ safe_below_protected m.

(** The callback [f] has been invoked [k] times and no slot of the drain
    list holds it. *)
Definition unregistered (f : EpochCallbackFunc) (k : nat) (m : machine)
  : Prop :=
  invocations f m = k
  /\ Forall (fun a => callback a <> Some f) (drainList (epoch m)).

(** The usable slots of the table can be read: the table holds them and
    their pointers lie in the buffer. *)
Definition readable (m : machine) : Prop :=
  forall k, 1 <= k <= entryNum (epoch m) -> is_Some (slot m k).

(** Successive calls of [FindAndReserveEmptyEntry], one for each value
    of [rand.Int()] in [starts]; the indices returned, in order. *)
Fixpoint reserveAll (fuel : nat) (starts : list Z) : M machine (list Z) :=
  match starts with
  | [] => mret []
  | startIdx :: rest =>
      idx ← FindAndReserveEmptyEntry fuel startIdx;
      idxs ← reserveAll fuel rest;
      mret (idx :: idxs)
  end.

(** The actions that wait in the drain list. *)
Definition waiting (m : machine) : list epochAction :=
  filter (fun a => isFree a = false) (drainList (epoch m)).

(** How many slots of the drain list hold the callback [f]. *)
Definition held (f : EpochCallbackFunc) (m : machine) : nat :=
  length (filter (fun a => callback a = Some f) (drainList (epoch m))).

(** The drain list is consistent: it has its 256 slots, a free slot holds
    no callback and no context, a waiting action has a callback and a
    trigger epoch below the two reserved values, and the drain count is
    the number of waiting actions. *)
Definition action_ok (a : epochAction) : Prop :=
  if isFree a then callback a = None /\ ctx a = None
  else 0 <= atomicEpoch a < epochLocked /\ callback a <> None.

Definition drain_list_ok (m : machine) : Prop :=
  length (drainList (epoch m)) = Z.to_nat drainListSize
  /\ Forall action_ok (drainList (epoch m))
  /\ atomicDrainCount (epoch m) = Z.of_nat (length (waiting m)).

(** What [Drain] makes of the drain list once the safe epoch is [safe]:
    the slots whose trigger epoch has been reached are freed, and their
    callbacks are invoked in the order of the slots. *)
Definition drained (safe : Z) (actions : list epochAction)
  : list epochAction :=
  map (fun a => if atomicEpoch a <=? safe then freeAction else a) actions.

Definition invoked_by (safe : Z) (actions : list epochAction)
  : list (EpochCallbackFunc * option Context) :=
  omap (fun a => if atomicEpoch a <=? safe
                 then f ← callback a; Some (f, ctx a)
                 else None) actions.

(** The drain list, its count and the record of invocations. *)
Definition drains (m : machine)
  : list epochAction * Z * list (EpochCallbackFunc * option Context) :=
  (drainList (epoch m), atomicDrainCount (epoch m), fired m).

(** The machine [m] with another drain list, drain count and record of
    invocations. *)
Definition with_drains (m : machine) (actions : list epochAction)
  (count : Z) (invoked : list (EpochCallbackFunc * option Context))
  : machine :=
  mkMachine
    (mkLightEpoch (atomicCurrentEpoch (epoch m))
       (atomicSafeToReclaimEpoch (epoch m)) (table (epoch m))
       (tableUsed (epoch m)) (entryNum (epoch m)) count actions)
    (tableBuf m) (cells m) invoked.

(** The first free slot of the drain list, if there is one. *)
Definition first_free (m : machine) : option nat :=
  fst <$> list_find (fun a => isFree a = true) (drainList (epoch m)).

(** The state [m'] comes from [m] by writes to table entries and in-use
    flags only, and a write to an entry has left the epoch of the entry as
    it was or has set it to 0 or to the current epoch. *)
Definition benign (m m' : machine) : Prop :=
  atomicCurrentEpoch (epoch m') = atomicCurrentEpoch (epoch m)
  /\ atomicSafeToReclaimEpoch (epoch m') = atomicSafeToReclaimEpoch (epoch m)
  /\ table (epoch m') = table (epoch m)
  /\ entryNum (epoch m') = entryNum (epoch m)
  /\ tableBuf m' = tableBuf m
  /\ drains m' = drains m
  /\ forall q,
       localCurrentEpoch (entryOf m' q) = localCurrentEpoch (entryOf m q)
       \/ localCurrentEpoch (entryOf m' q) = 0
       \/ localCurrentEpoch (entryOf m' q) = atomicCurrentEpoch (epoch m).

(** The operations that neither drain nor register nor compute a safe
    epoch. *)
Definition quiet_operation (c : operation) : Prop :=
  match c with
  | OpProtectAndDrain _ | OpDrain _ | OpBumpCurrentEpoch
  | OpBumpCurrentEpochWithCallback _ _ _
  | OpComputeNewSafeToReclaimEpoch _
  | OpSpinWaitForSafeToReclaim _ _ _ => False
  | _ => True
  end.

(** No waiting action is due: the trigger epoch of every action of the
    drain list is above the safe epoch. *)
Definition none_due (m : machine) : Prop :=
  Forall (fun a => isFree a = false ->
                   atomicSafeToReclaimEpoch (epoch m) < atomicEpoch a)
    (drainList (epoch m)).

(** The conditions under which the operations are studied: ordered
    epochs, a consistent drain list and a readable table. *)
Definition sound (m : machine) : Prop :=
  epochs_ordered m /\ drain_list_ok m /\ readable m.

(** The arguments of a call fit the state [m] it starts in: an epoch
    handed to [Drain], [ComputeNewSafeToReclaimEpoch] or
    [SpinWaitForSafeToReclaim] is above the safe epoch and at most the
    current epoch, and a callback that is registered is not nil. *)
Definition admissible (c : operation) (m : machine) : Prop :=
  match c with
  | OpDrain x | OpComputeNewSafeToReclaimEpoch x
  | OpSpinWaitForSafeToReclaim _ x _ =>
      atomicSafeToReclaimEpoch (epoch m) < x <= atomicCurrentEpoch (epoch m)
  | OpBumpCurrentEpochWithCallback _ callback _ => callback <> None
  | _ => True
  end.

(** Every call of a sequence is admissible in the state it starts in. *)
Fixpoint admissible_run (cs : list operation) (m : machine) : Prop :=
  match cs with
  | [] => True
  | c :: cs' =>
      admissible c m
      /\ match exec (perform c) m with
         | Ok m' => admissible_run cs' m'
         | _ => True
         end
  end.

(** A call that registers the callback [f], and how often a sequence of
    calls does so. *)
Definition registers (f : EpochCallbackFunc) (c : operation) : bool :=
  match c with
  | OpBumpCurrentEpochWithCallback _ (Some g) _ => Nat.eqb g f
  | _ => false
  end.

Fixpoint registrations (f : EpochCallbackFunc) (cs : list operation)
  : nat :=
  match cs with
  | [] => 0
  | c :: cs' => ((if registers f c then 1 else 0) + registrations f cs')%nat
  end.

End PtrTable.

(** ** Package [tinykv]: the errors and the database operations *)

Module TinyKV.

Definition NotFound : Z := 0x0.
Definition Corruption : Z := 0x1.
Definition NotSupported : Z := 0x2.
Definition InvalidArgument : Z := 0x3.
Definition IOError : Z := 0x4.

Record DBError := mkDBError { Code : Z; Status : string }.

(** A value of the interface [error]: nil, a [*DBError] (a pointer, that
    can itself be nil: [None]), or a value of another dynamic type. *)
Inductive error :=
| nil_error
| DBError_ptr (p : option DBError)
| other_error (text : string).

(** The type assertion of [err] to a pointer to [DBError] followed by
    [dbErr.Code == code]; reading [Code] through a nil pointer panics. *)
Definition hasCode (code : Z) (err : error) : result bool :=
  match err with
  | DBError_ptr (Some dbErr) => Ok (Code dbErr =? code)
  | DBError_ptr None => Panic
  | _ => Ok false
  end.

Definition IsNotFoundError (err : error) : result bool :=
  hasCode NotFound err.
Definition IsCorruptionError (err : error) : result bool :=
  hasCode Corruption err.
Definition IsNotSupportedError (err : error) : result bool :=
  hasCode NotSupported err.
Definition IsInvalidArgumentError (err : error) : result bool :=
  hasCode InvalidArgument err.
Definition IsIOError (err : error) : result bool :=
  hasCode IOError err.

Record Options := mkOptions {
  CreateIfMissing : bool;
  ErrorIfExists : bool;
  ParanoidChecks : bool;
  WriteBufferSize : Z;
  MaxOpenFiles : Z;
  Compression : Z
}.

Record ReadOptions := mkReadOptions {
  VerifyChecksum : bool;
  FillCache : bool
}.

Record WriteOptions := mkWriteOptions { Sync : bool }.

Record kvDB := mkDB { name : string; options : Options }.

Definition NewDB (name : string) (options : Options) : kvDB :=
  mkDB name options.

Definition unimplemented : error :=
  DBError_ptr (Some (mkDBError NotSupported "unimplemented")).

Definition DestroyDB (name : string) (options : Options) : error :=
  unimplemented.

Definition RepairDB (name : string) (options : Options) : error :=
  unimplemented.

Definition Open (db : kvDB) : error := unimplemented.

Definition Close (db : kvDB) : error := unimplemented.

(** [preCheckKeyValue(key, value *string) error] *)
Definition preCheckKeyValue (key value : option string) : error :=
  match key with
  | Some k =>
      if String.eqb k "" then
        DBError_ptr (Some (mkDBError InvalidArgument "key must not be empty"))
      else nil_error
  | None => nil_error
  end.

Definition Put (db : kvDB) (key value : string) (options : WriteOptions)
  : error :=
  match preCheckKeyValue (Some key) (Some value) with
  | nil_error => unimplemented
  | err => err
  end.

Definition ReadModifyWrite (db : kvDB) (key value : string)
  (options : WriteOptions) : string * error :=
  match preCheckKeyValue (Some key) (Some value) with
  | nil_error => (""%string, unimplemented)
  | err => (""%string, err)
  end.

Definition Get (db : kvDB) (key : string) (options : ReadOptions)
  : string * error :=
  match preCheckKeyValue (Some key) None with
  | nil_error => (""%string, unimplemented)
  | err => (""%string, err)
  end.

Definition Delete (db : kvDB) (key : string) (options : WriteOptions)
  : error :=
  match preCheckKeyValue (Some key) None with
  | nil_error => unimplemented
  | err => err
  end.

End TinyKV.

(** * Proofs *)

(** ** Machine integers *)

Lemma u64_range z : 0 <= u64 z < 2 ^ 64.
Proof. unfold u64. apply Z.mod_pos_bound. lia. Qed.

Lemma u32_range z : 0 <= u32 z < 2 ^ 32.
Proof. unfold u32. apply Z.mod_pos_bound. lia. Qed.

Lemma u64_small z : 0 <= z < 2 ^ 64 -> u64 z = z.
Proof. intros. unfold u64. apply Z.mod_small. lia. Qed.

Lemma u32_small z : 0 <= z < 2 ^ 32 -> u32 z = z.
Proof. intros. unfold u32. apply Z.mod_small. lia. Qed.

Lemma int64_small z : - 2 ^ 63 <= z < 2 ^ 63 -> int64 z = z.
Proof. intros. unfold int64. rewrite Z.mod_small; lia. Qed.

(** ** The aligned allocator *)

Lemma alignedAlloc_degenerate addr alignment size :
  alignment <= 0 \/ size <= 0 ->
  alignedAlloc addr alignment size = Ok (None, 0).
Proof.
  intros H. unfold alignedAlloc.
  destruct (alignment <=? 0) eqn:Ea; [reflexivity|].
  destruct (size <=? 0) eqn:Es; [reflexivity|]. lia.
Qed.

Lemma alignedAlloc_start addr alignment size :
  0 < alignment -> 0 < size -> size + alignment - 1 < 2 ^ 63 ->
  0 <= addr -> addr + (size + alignment - 1) <= 2 ^ 64 ->
  exists start,
    alignedAlloc addr alignment size
      = Ok (Some (mkBytes addr (size + alignment - 1)), start)
    /\ start mod alignment = 0
    /\ addr <= start < addr + alignment.
Proof.
  intros Ha Hs Hfit Haddr Hend. unfold alignedAlloc, make_bytes.
  destruct (alignment <=? 0) eqn:Ea; [lia|].
  destruct (size <=? 0) eqn:Es; [lia|]. cbn [orb].
  rewrite (int64_small (size + alignment - 1)) by lia.
  destruct (size + alignment - 1 <? 0) eqn:El; [lia|]. cbn [data].
  rewrite (u64_small addr) by lia. rewrite (u64_small alignment) by lia.
  pose proof (Z.mod_pos_bound addr alignment Ha) as Hm.
  pose proof (Z.div_mod addr alignment ltac:(lia)) as Hdm.
  destruct (addr mod alignment =? 0) eqn:E0; cbn [negb].
  - exists addr. split; [reflexivity|]. lia.
  - rewrite (int64_small (addr mod alignment)) by lia.
    rewrite (int64_small (alignment - addr mod alignment)) by lia.
    rewrite (u64_small (alignment - addr mod alignment)) by lia.
    rewrite (u64_small (addr + (alignment - addr mod alignment))) by lia.
    eexists. split; [reflexivity|]. split; [|lia].
    replace (addr + (alignment - addr mod alignment))
      with ((addr / alignment + 1) * alignment) by lia.
    apply Z_mod_mult.
Qed.

(** C9.  For [alignment > 0] and [size > 0], when the request fits Go's
    [int] and the block handed out by the run time lies in the 64-bit
    address space, [alignedAlloc] returns a backing buffer of exactly
    [size + alignment - 1] bytes and a start address that is a multiple of
    [alignment], is at or after the first byte of the buffer and leaves
    [size] bytes before the buffer ends; for [alignment <= 0] or
    [size <= 0] it returns the nil buffer and start 0. *)
Theorem alignedAlloc_contract (addr alignment size : Z) :
  (0 < alignment -> 0 < size -> size + alignment - 1 < 2 ^ 63 ->
   0 <= addr -> addr + (size + alignment - 1) <= 2 ^ 64 ->
   exists origin start,
     alignedAlloc addr alignment size = Ok (Some origin, start)
     /\ data origin = addr
     /\ len origin = size + alignment - 1
     /\ start mod alignment = 0
     /\ data origin <= start
     /\ start + size <= data origin + len origin)
  /\ (alignment <= 0 \/ size <= 0 ->
      alignedAlloc addr alignment size = Ok (None, 0)).
Proof.
  split.
  - intros Ha Hs Hfit Haddr Hend.
    destruct (alignedAlloc_start addr alignment size Ha Hs Hfit Haddr Hend)
      as (start & Heq & Hmod & Hrange).
    exists (mkBytes addr (size + alignment - 1)), start. cbn [data len].
    repeat split; try assumption; lia.
  - apply alignedAlloc_degenerate.
Qed.

Lemma alignedAlloc_contract_witness :
  exists origin start,
    alignedAlloc 4100 64 1280 = Ok (Some origin, start)
    /\ data origin = 4100
    /\ len origin = 1280 + 64 - 1
    /\ start mod 64 = 0
    /\ data origin <= start
    /\ start + 1280 <= data origin + len origin.
Proof.
  apply (proj1 (alignedAlloc_contract 4100 64 1280)); lia.
Defined.

(** ** Hash bucket entries *)

(** A mask of [k] ones shifted left by [n] selects the field of width [k]
    at bit [n]. *)
Lemma land_ones_shifted w k n :
  0 <= k -> 0 <= n ->
  Z.land w (Z.shiftl (Z.ones k) n) = (w / 2 ^ n) mod 2 ^ k * 2 ^ n.
Proof.
  intros Hk Hn.
  rewrite <- (Z.land_ones (w / 2 ^ n) k) by lia.
  rewrite <- Z.shiftr_div_pow2, <- Z.shiftl_mul_pow2 by lia.
  apply Z.bits_inj'. intros i Hi.
  rewrite Z.land_spec, !Z.shiftl_spec, Z.land_spec by lia.
  destruct (Z.ltb_spec i n).
  - rewrite (Z.testbit_neg_r (Z.ones k)) by lia.
    rewrite (Z.testbit_neg_r (Z.shiftr w n)) by lia.
    now rewrite andb_false_r.
  - rewrite Z.shiftr_spec by lia. now replace (i - n + n) with i by lia.
Qed.

(** Turn the masks and shifts of the accessors into division and
    remainder by powers of two. *)
Ltac fields_to_arith :=
  change 0xffffff00 with (Z.shiftl (Z.ones 24) 8) in *;
  change 0xffff with (Z.ones 16) in *;
  change 0x3fff with (Z.ones 14) in *;
  change 0xff with (Z.ones 8) in *;
  change 0x3 with (Z.ones 2) in *;
  change (Z.shiftl 1 63) with (Z.shiftl (Z.ones 1) 63) in *;
  change (Z.shiftl 1 48 - 1) with (Z.ones 48) in *;
  rewrite ?land_ones_shifted by lia;
  rewrite ?Z.shiftr_div_pow2, ?Z.shiftl_mul_pow2 by lia;
  rewrite ?Z.land_ones by lia.

Section LowAddrFacts.
Import LowAddr.

Lemma LowAddr_address_tag_roundtrip entry a t :
  0 <= entry < 2 ^ 64 -> 0 <= a < 2 ^ 48 -> 0 <= t < 2 ^ 14 ->
  GetAddress (SetTag (SetAddress entry a) t) = a
  /\ GetTag (SetTag (SetAddress entry a) t) = t.
Proof.
  intros He Ha Ht.
  unfold GetAddress, GetTag, SetTag, SetAddress, u64, u16.
  fields_to_arith.
  split; Z.div_mod_to_equations; lia.
Qed.

Lemma LowAddr_SetTentative_frame entry :
  0 <= entry < 2 ^ 64 ->
  GetAddress (SetTentative entry) = GetAddress entry
  /\ GetTag (SetTentative entry) = GetTag entry
  /\ IsTentative (SetTentative entry) = true.
Proof.
  intros He. unfold GetAddress, GetTag, IsTentative, SetTentative.
  repeat split.
  - rewrite Z.land_lor_distr_l.
    change (Z.land (Z.shiftl 1 63) (Z.shiftl 1 48 - 1)) with 0.
    apply Z.lor_0_r.
  - rewrite Z.shiftr_lor, Z.land_lor_distr_l.
    change (Z.land (Z.shiftr (Z.shiftl 1 63) 48) 0x3fff) with 0.
    now rewrite Z.lor_0_r.
  - rewrite Z.shiftr_lor. change (Z.shiftr (Z.shiftl 1 63) 63) with 1.
    destruct (Z.eqb_spec (Z.lor (Z.shiftr entry 63) 1) 0) as [E|E];
      [|reflexivity].
    apply Z.lor_eq_0_iff in E. lia.
Qed.

(** The first packing meets the round trip in full. *)
Lemma LowAddr_packing_ok entry a t :
  0 <= entry < 2 ^ 64 -> 0 <= a < 2 ^ 48 -> 0 <= t < 2 ^ 14 ->
  GetAddress (SetTag (SetAddress entry a) t) = a
  /\ GetTag (SetTag (SetAddress entry a) t) = t
  /\ GetAddress (SetTentative entry) = GetAddress entry
  /\ GetTag (SetTentative entry) = GetTag entry
  /\ IsTentative (SetTentative entry) = true.
Proof.
  intros He Ha Ht.
  destruct (LowAddr_address_tag_roundtrip entry a t He Ha Ht) as [H1 H2].
  destruct (LowAddr_SetTentative_frame entry He) as (H3 & H4 & H5).
  auto.
Qed.
End LowAddrFacts.

Section HighAddrFacts.
Import HighAddr.

Lemma HighAddr_SetTentative_frame entry :
  0 <= entry < 2 ^ 64 ->
  GetAddress (SetTentative entry) = GetAddress entry
  /\ GetTag (SetTentative entry) = GetTag entry
  /\ IsTentative (SetTentative entry) = true.
Proof.
  intros He. unfold GetAddress, GetTag, IsTentative, SetTentative.
  repeat split.
  - rewrite Z.shiftr_lor. change (Z.shiftr 1 16) with 0. apply Z.lor_0_r.
  - rewrite Z.land_lor_distr_l, Z.shiftr_lor.
    change (Z.shiftr (Z.land 1 255) 2) with 0. now rewrite Z.lor_0_r.
  - rewrite Z.land_lor_distr_l. change (Z.land 1 1) with 1.
    destruct (Z.eqb_spec (Z.lor (Z.land entry 1) 1) 0) as [E|E];
      [|reflexivity].
    apply Z.lor_eq_0_iff in E. lia.
Qed.

(** What the second packing reads back: [SetTag] keeps bits 8 to 31
    only, so the address is cut to its low 16 bits, and the tag field
    read by [GetTag] is 6 bits wide. *)
Lemma HighAddr_reads_back entry a t :
  0 <= entry < 2 ^ 64 -> 0 <= a < 2 ^ 48 -> 0 <= t < 2 ^ 14 ->
  GetAddress (SetTag (SetAddress entry a) t) = a mod 2 ^ 16
  /\ GetTag (SetTag (SetAddress entry a) t) = t mod 2 ^ 6.
Proof.
  intros He Ha Ht.
  unfold GetAddress, GetTag, SetTag, SetAddress, u64, u16.
  fields_to_arith.
  split; Z.div_mod_to_equations; lia.
Qed.
End HighAddrFacts.

(** C7.  The round trip of address and tag fails for the packing with
    the address in the high 48 bits: after [SetAddress(65536)] and
    [SetTag(0)] on the zero entry [GetAddress] returns 0, and after
    [SetAddress(0)] and [SetTag(64)] [GetTag] returns 0. *)
Theorem HighAddr_roundtrip_fails :
  HighAddr.GetAddress (HighAddr.SetTag (HighAddr.SetAddress 0 65536) 0) = 0
  /\ HighAddr.GetTag (HighAddr.SetTag (HighAddr.SetAddress 0 0) 64) = 0.
Proof. split; vm_compute; reflexivity. Qed.

(** ** The monad *)

Lemma bind_eq {S A B} (c : M S A) (k : A -> M S B) s :
  (c ≫= k) s =
  match c s with
  | Ok (a, s') => k a s'
  | Panic => Panic
  | Spin => Spin
  end.
Proof. reflexivity. Qed.

Lemma bind_Ok {S A B} (c : M S A) (k : A -> M S B) s a s' :
  c s = Ok (a, s') -> (c ≫= k) s = k a s'.
Proof. intros H. rewrite bind_eq, H. reflexivity. Qed.

Lemma bind_Ok_inv {S A B} (c : M S A) (k : A -> M S B) s b s2 :
  (c ≫= k) s = Ok (b, s2) ->
  exists a s1, c s = Ok (a, s1) /\ k a s1 = Ok (b, s2).
Proof.
  rewrite bind_eq. destruct (c s) as [[a s1]| |]; try discriminate.
  intros H. exists a, s1. auto.
Qed.

Lemma exec_Ok {S A} (c : M S A) s a s' :
  c s = Ok (a, s') -> exec c s = Ok s'.
Proof. intros H. unfold exec. now rewrite H. Qed.

Lemma exec_Ok_inv {S A} (c : M S A) s s' :
  exec c s = Ok s' -> exists a, c s = Ok (a, s').
Proof.
  unfold exec. destruct (c s) as [[a s1]| |]; try discriminate.
  intros [= <-]. eauto.
Qed.

Lemma nth_Z_lookup {A} (l : list A) (i : Z) :
  0 <= i -> nth_Z l i = l !! Z.to_nat i.
Proof. intros H. unfold nth_Z. destruct (Z.ltb_spec i 0); [lia|reflexivity]. Qed.

Lemma nth_Z_Some_range {A} (l : list A) (i : Z) x :
  nth_Z l i = Some x -> 0 <= i < Z.of_nat (length l).
Proof.
  unfold nth_Z. destruct (Z.ltb_spec i 0); [discriminate|].
  intros H'. apply lookup_lt_Some in H'. lia.
Qed.

Lemma nth_Z_upd_eq {A} (l : list A) (i : Z) x y :
  nth_Z l i = Some y -> nth_Z (upd_Z l i x) i = Some x.
Proof.
  intros H. pose proof (nth_Z_Some_range _ _ _ H) as Hr.
  unfold nth_Z, upd_Z in *. destruct (Z.ltb_spec i 0); [lia|].
  apply list_lookup_insert_eq. lia.
Qed.

Lemma nth_Z_upd_ne {A} (l : list A) (i j : Z) x :
  i <> j -> nth_Z (upd_Z l i x) j = nth_Z l j.
Proof.
  intros Hne. unfold nth_Z, upd_Z.
  destruct (Z.ltb_spec j 0); [reflexivity|].
  destruct (Z.ltb_spec i 0); [reflexivity|].
  apply list_lookup_insert_ne. lia.
Qed.

Lemma nth_Z_replicate {A} (n : nat) (x : A) (i : Z) :
  0 <= i < Z.of_nat n -> nth_Z (replicate n x) i = Some x.
Proof.
  intros H. rewrite nth_Z_lookup by lia.
  apply lookup_replicate_2. lia.
Qed.


(** ** The table of entries ([ValTable]) *)

Section ValTableFacts.
Import ValTable.

Lemma ValTable_IsSafeToReclaim_eq e expectedEpoch :
  IsSafeToReclaim expectedEpoch e
  = Ok (expectedEpoch <? atomicSafeToReclaimEpoch e, e).
Proof. reflexivity. Qed.

(** Writing slot [i] leaves every other slot as it was: the entries of
    this table are distinct. *)
Lemma ValTable_updEntry_frame e e' i j f :
  updEntry i f e = Ok (tt, e') -> i <> j -> slot e' j = slot e j.
Proof.
  unfold updEntry. intros H Hne.
  apply bind_Ok_inv in H as (en & e1 & H1 & H2).
  unfold entryAt in H1. destruct (nth_Z (table e) i); [|discriminate].
  injection H1 as <- <-. injection H2 as <-.
  unfold slot. cbn [table set_table]. now apply nth_Z_upd_ne.
Qed.

Lemma ValTable_Protect_frame e e' i j r :
  Protect i e = Ok (r, e') -> i <> j -> slot e' j = slot e j.
Proof.
  unfold Protect. intros H Hne.
  apply bind_Ok_inv in H as (en & e1 & H1 & H).
  unfold entryAt in H1. destruct (nth_Z (table e) i); [|discriminate].
  injection H1 as <- <-.
  apply bind_Ok_inv in H as (cur & e2 & H2 & H). injection H2 as <- <-.
  apply bind_Ok_inv in H as ([] & e3 & H3 & H).
  apply bind_Ok_inv in H as (en' & e4 & H4 & H).
  unfold entryAt in H4. destruct (nth_Z (table e3) i); [|discriminate].
  injection H4 as <- <-. injection H as <- <-.
  eapply ValTable_updEntry_frame; eauto.
Qed.

End ValTableFacts.

(** C4.  With the table of entries, [IsSafeToReclaim] compares with a
    strict [<]: on a fresh [LightEpoch], whose cached safe-to-reclaim
    epoch is 0, [IsSafeToReclaim(0)] returns false although
    [safeToReclaimEpoch >= 0]. *)
Theorem ValTable_IsSafeToReclaim_rejects_equal :
  exists e,
    ValTable.NewLightEpoch 1 = Ok e
    /\ ValTable.atomicSafeToReclaimEpoch e = 0
    /\ ValTable.IsSafeToReclaim 0 e = Ok (false, e).
Proof. eexists. split; [vm_compute; reflexivity|]. split; reflexivity. Qed.

(** C5.  With the table of entries, [SpinWaitForSafeToReclaim] leaves
    its loop when the target is above the computed safe epoch: on a fresh
    [LightEpoch] the call with current epoch 1 and target 5 returns after
    one scan with the safe epoch at 0, and the call with target 0, which
    is reached, never returns. *)
Theorem ValTable_SpinWait_returns_below_target :
  exists e e',
    ValTable.NewLightEpoch 1 = Ok e
    /\ (forall fuel,
          ValTable.SpinWaitForSafeToReclaim (S fuel) 1 5 e = Ok (tt, e'))
    /\ ValTable.atomicSafeToReclaimEpoch e' = 0
    /\ (forall fuel, ValTable.SpinWaitForSafeToReclaim fuel 1 0 e = Spin).
Proof.
  eexists. eexists. split; [vm_compute; reflexivity|].
  split; [intros fuel; vm_compute; reflexivity|].
  split; [reflexivity|].
  intros fuel. induction fuel as [|fuel IH]; [reflexivity|].
  cbn [ValTable.SpinWaitForSafeToReclaim]. rewrite bind_eq.
  match goal with |- context [ValTable.ComputeNewSafeToReclaimEpoch 1 ?e] =>
    let r := eval vm_compute in (ValTable.ComputeNewSafeToReclaimEpoch 1 e) in
    change (ValTable.ComputeNewSafeToReclaimEpoch 1 e) with r
  end.
  cbv beta iota. rewrite bind_eq. cbn [gets]. cbv beta iota.
  cbn [ValTable.atomicSafeToReclaimEpoch Z.ltb Z.compare].
  exact IH.
Qed.

(** C6.  With the table of entries, [ReentrantProtect] returns early on
    a protected slot without counting the call: after two
    [ReentrantProtect(1)] on a fresh [LightEpoch] the first
    [ReentrantUnprotect(1)] already leaves the slot unprotected. *)
Theorem ValTable_Reentrant_first_unprotect_clears :
  exists e e2 e3,
    ValTable.NewLightEpoch 1 = Ok e
    /\ exec (ValTable.repeatM 2 (ValTable.ReentrantProtect 1)) e = Ok e2
    /\ ValTable.IsProtected 1 e2 = Ok (true, e2)
    /\ ValTable.ReentrantUnprotect 1 e2 = Ok (tt, e3)
    /\ ValTable.IsProtected 1 e3 = Ok (false, e3).
Proof.
  do 3 eexists. split; [vm_compute; reflexivity|].
  split; [vm_compute; reflexivity|].
  split; [vm_compute; reflexivity|].
  split; vm_compute; reflexivity.
Qed.

(** C8.  [FinishThreadPhase] scans the slots [1] to [entryNum - 1]: with
    two usable slots and slot 2 protected with the phase marker
    [RestPhase], [FinishThreadPhase(1, PreparePhase)] returns true. *)
Theorem ValTable_FinishThreadPhase_skips_last_slot :
  exists e e1 e2 en,
    ValTable.NewLightEpoch 2 = Ok e
    /\ exec (ValTable.Protect 2) e = Ok e1
    /\ ValTable.FinishThreadPhase 1 PreparePhase e1 = Ok (true, e2)
    /\ ValTable.slot e2 2 = Some en
    /\ localCurrentEpoch en = 1
    /\ atomicPhaseFinished en = RestPhase
    /\ ~ ValTable.all_protected_finished e2 PreparePhase.
Proof.
  do 4 eexists. split; [vm_compute; reflexivity|].
  split; [vm_compute; reflexivity|].
  split; [vm_compute; reflexivity|].
  split; [vm_compute; reflexivity|].
  split; [reflexivity|]. split; [reflexivity|].
  intros H. specialize (H 2 _ ltac:(cbn; lia) eq_refl ltac:(cbn; lia)).
  discriminate H.
Qed.

(** ** The table of pointers ([PtrTable]): the primitive steps *)

Section PtrTableSteps.
Import PtrTable.

Lemma loadEntry_eq m p :
  valid m p = true -> loadEntry p m = Ok (entryOf m p, m).
Proof. intros H. unfold loadEntry. now rewrite H. Qed.

Lemma updEntry_eq m p f :
  valid m p = true ->
  updEntry p f m = Ok (tt, set_cells (<[p := f (entryOf m p)]> (cells m)) m).
Proof.
  intros H. unfold updEntry.
  rewrite (bind_Ok _ _ _ _ _ (loadEntry_eq m p H)). reflexivity.
Qed.

Lemma tableAt_eq m i p :
  nth_Z (table (epoch m)) i = Some p -> tableAt i m = Ok (p, m).
Proof. intros H. unfold tableAt. now rewrite H. Qed.

Lemma actionAt_eq m i a :
  nth_Z (drainList (epoch m)) i = Some a -> actionAt i m = Ok (a, m).
Proof. intros H. unfold actionAt. now rewrite H. Qed.

Lemma updAction_eq m i a f :
  nth_Z (drainList (epoch m)) i = Some a ->
  updAction i f m
  = Ok (tt, upd_epoch (fun e => set_drainList (upd_Z (drainList e) i (f a)) e) m).
Proof.
  intros H. unfold updAction.
  rewrite (bind_Ok _ _ _ _ _ (actionAt_eq m i a H)). reflexivity.
Qed.


Lemma initialize_eq en : initialize en = mkEntry 0 0 RestPhase.
Proof. reflexivity. Qed.

Lemma drainList_upd m i x :
  drainList (epoch (upd_epoch
    (fun e => set_drainList (upd_Z (drainList e) i x) e) m))
  = upd_Z (drainList (epoch m)) i x.
Proof. reflexivity. Qed.

Lemma upd_Z_upd_Z {A} (l : list A) i x y :
  upd_Z (upd_Z l i x) i y = upd_Z l i y.
Proof.
  unfold upd_Z. destruct (i <? 0); [reflexivity|].
  apply list_insert_insert_eq.
Qed.

(** The three writes of [initialize] on a drain-list slot. *)
Lemma initializeAction_eq m i a :
  nth_Z (drainList (epoch m)) i = Some a ->
  initializeAction i m
  = Ok (tt, upd_epoch (fun e =>
         set_drainList (upd_Z (drainList e) i (mkAction epochFree None None)) e) m).
Proof.
  intros H. unfold initializeAction.
  rewrite (bind_Ok _ _ _ _ _ (updAction_eq m i a _ H)).
  erewrite bind_Ok.
  2:{ apply updAction_eq. rewrite drainList_upd. eapply nth_Z_upd_eq, H. }
  erewrite updAction_eq.
  2:{ rewrite drainList_upd. eapply nth_Z_upd_eq.
      rewrite drainList_upd. eapply nth_Z_upd_eq, H. }
  destruct m as [[c s t tu n dc dl] buf cl f].
  unfold upd_epoch, set_drainList. cbn.
  now rewrite !upd_Z_upd_Z.
Qed.

Lemma initDrainList_eq n : forall i m pre,
  drainList (epoch m) = pre ++ replicate n zeroAction ->
  Z.of_nat (length pre) = i ->
  initDrainList n i m
  = Ok (tt, upd_epoch
          (set_drainList (pre ++ replicate n (mkAction epochFree None None))) m).
Proof.
  induction n as [|n IH]; intros i m pre Hdl Hlen.
  - cbn [initDrainList replicate]. cbn [replicate] in Hdl.
    destruct m as [[c s t tu num dc dl] buf cl f]. cbn in *. now subst dl.
  - cbn [initDrainList]. rewrite bind_eq.
    assert (Hi : nth_Z (drainList (epoch m)) i = Some zeroAction).
    { rewrite nth_Z_lookup by lia. rewrite Hdl.
      rewrite lookup_app_r by lia.
      replace (Z.to_nat i - length pre)%nat with O by lia. reflexivity. }
    rewrite (initializeAction_eq m i _ Hi).
    rewrite (IH (i + 1) _ (pre ++ [mkAction epochFree None None])).
    + destruct m as [[c s t tu num dc dl] buf cl f]. cbn in *.
      unfold upd_epoch, set_drainList. cbn.
      rewrite <- app_assoc. reflexivity.
    + destruct m as [[c s t tu num dc dl] buf cl f]. cbn in *. subst dl.
      unfold upd_Z. destruct (Z.ltb_spec i 0); [lia|].
      replace (Z.to_nat i) with (length pre + 0)%nat by lia.
      rewrite insert_app_r. cbn. now rewrite <- app_assoc.
    + rewrite length_app. cbn. lia.
Qed.

Lemma initTable_eq n : forall i start m pre,
  table (epoch m) = pre ++ replicate n 0 ->
  Z.of_nat (length pre) = i ->
  valid m (u64 (start + CacheLineSize)) = true ->
  initTable n i start m
  = Ok (tt,
        match n with
        | O => m
        | S _ =>
            set_cells (<[u64 (start + CacheLineSize) := mkEntry 0 0 RestPhase]>
                         (cells m))
              (upd_epoch
                 (set_table (pre ++ replicate n (u64 (start + CacheLineSize)))) m)
        end).
Proof.
  induction n as [|n IH]; intros i start m pre Htab Hlen Hv; [reflexivity|].
  set (p := u64 (start + CacheLineSize)) in *.
  cbn [initTable]. fold p.
  assert (Hi : nth_Z (table (epoch m)) i = Some 0).
  { rewrite nth_Z_lookup by lia. rewrite Htab.
    rewrite lookup_app_r by lia.
    replace (Z.to_nat i - length pre)%nat with O by lia. reflexivity. }
  unfold setTableAt. rewrite bind_eq, bind_eq, (tableAt_eq _ _ _ Hi).
  cbn [store modify].
  set (m1 := upd_epoch (fun e => set_table (upd_Z (table e) i p) e) m).
  assert (Htab1 : table (epoch m1) = (pre ++ [p]) ++ replicate n 0).
  { unfold m1. destruct m as [[c s t tu num dc dl] buf cl f]. cbn in *. subst t.
    unfold upd_Z. destruct (Z.ltb_spec i 0); [lia|].
    replace (Z.to_nat i) with (length pre + 0)%nat by lia.
    rewrite insert_app_r. cbn. now rewrite <- app_assoc. }
  assert (Hi1 : nth_Z (table (epoch m1)) i = Some p).
  { rewrite nth_Z_lookup by lia. rewrite Htab1.
    rewrite lookup_app_l by (rewrite length_app; cbn; lia).
    rewrite lookup_app_r by lia.
    replace (Z.to_nat i - length pre)%nat with O by lia. reflexivity. }
  rewrite bind_eq, (tableAt_eq _ _ _ Hi1).
  assert (Hv1 : valid m1 p = true) by exact Hv.
  rewrite bind_eq, (updEntry_eq _ _ _ Hv1). rewrite initialize_eq.
  set (m2 := set_cells _ m1).
  rewrite (IH (i + 1) start m2 (pre ++ [p])).
  - fold p. destruct n as [|n'].
    + unfold m2, m1. destruct m as [[c s t tu num dc dl] buf cl f].
      cbn in *. unfold set_cells, upd_epoch, set_table. cbn. subst t.
      unfold upd_Z. destruct (Z.ltb_spec i 0); [lia|].
      replace (Z.to_nat i) with (length pre + 0)%nat by lia.
      rewrite insert_app_r. reflexivity.
    + unfold m2, m1. destruct m as [[c s t tu num dc dl] buf cl f].
      cbn in *. unfold set_cells, upd_epoch, set_table. cbn.
      rewrite insert_insert_eq. rewrite <- app_assoc. reflexivity.
  - exact Htab1.
  - rewrite length_app. cbn. lia.
  - exact Hv.
Qed.

End PtrTableSteps.

(** ** [NewLightEpoch]: every slot of the table receives the same address *)

Section PtrTableNew.
Import PtrTable.

Lemma NewLightEpoch_eq addr size :
  0 <= size < 2 ^ 26 - 2 -> 0 <= addr ->
  addr + ((size + 2) * 64 + 63) <= 2 ^ 64 ->
  exists p buf,
    NewLightEpoch addr size
    = Ok (aliased p buf size 1 0 (mkEntry 0 0 RestPhase) 0
            (replicate 256 freeAction) [])
    /\ within buf p 64.
Proof.
  intros Hsize Haddr Hend. unfold NewLightEpoch.
  assert (Hn : u32 (size + 2) = size + 2) by (apply u32_small; lia).
  rewrite Hn. unfold CacheLineSize.
  rewrite (u32_small ((size + 2) * 64)) by lia.
  destruct (alignedAlloc_start addr 64 ((size + 2) * 64))
    as (start & Heq & Hmod & Hrange); try lia.
  rewrite Heq.
  assert (Hp : u64 (start + 64) = start + 64) by (apply u64_small; lia).
  exists (start + 64), (mkBytes addr ((size + 2) * 64 + 64 - 1)).
  split; [|unfold within; cbn [data len]; lia].
  unfold exec. rewrite bind_eq.
  rewrite (initTable_eq _ 0 start _ []); cycle 1.
  - reflexivity.
  - reflexivity.
  - unfold valid, CacheLineSize. cbn [tableBuf data len]. rewrite Hp.
    apply andb_true_intro. split; [apply Z.leb_le|apply Z.leb_le]; lia.
  - destruct (Z.to_nat (size + 2)) as [|n] eqn:En; [lia|].
    rewrite (initDrainList_eq _ 0 _ []); [|reflexivity|reflexivity].
    unfold aliased, upd_epoch, set_cells, set_table, set_drainList, CacheLineSize.
    cbn. rewrite Hp, En. rewrite insert_empty. reflexivity.
Qed.

End PtrTableNew.

(** ** Operations on a machine whose slots share one entry *)

Section Aliased.
Import PtrTable.

Variables (p : Z) (buf : bytes) (size : Z).
Hypothesis Hbuf : within buf p 64.

Lemma aliased_valid cur safe en dc dl f :
  valid (aliased p buf size cur safe en dc dl f) p = true.
Proof using All.
  unfold valid, aliased, CacheLineSize. cbn [tableBuf].
  destruct Hbuf. apply andb_true_intro. split; apply Z.leb_le; lia.
Qed.

Lemma aliased_table cur safe en dc dl f i :
  0 <= i < size + 2 ->
  nth_Z (table (epoch (aliased p buf size cur safe en dc dl f))) i = Some p.
Proof using All. intros Hi. cbn [aliased epoch table]. apply nth_Z_replicate. lia. Qed.

Lemma aliased_entryOf cur safe en dc dl f :
  entryOf (aliased p buf size cur safe en dc dl f) p = en.
Proof using All. unfold entryOf, aliased. cbn [cells]. now rewrite lookup_singleton_eq. Qed.

Lemma aliased_slot cur safe en dc dl f i :
  0 <= i < size + 2 ->
  slot (aliased p buf size cur safe en dc dl f) i = Some en.
Proof using All.
  intros Hi. unfold slot. rewrite aliased_table by assumption.
  now rewrite aliased_valid, aliased_entryOf.
Qed.

Lemma aliased_slot_inv cur safe en dc dl f i en' :
  slot (aliased p buf size cur safe en dc dl f) i = Some en' -> en' = en.
Proof using All.
  unfold slot. destruct (nth_Z _ i) as [q|] eqn:Hq; [|discriminate].
  pose proof (nth_Z_Some_range _ _ _ Hq) as Hr.
  cbn [aliased epoch table] in Hr. rewrite length_replicate in Hr.
  rewrite aliased_table in Hq by lia. injection Hq as <-.
  rewrite aliased_valid, aliased_entryOf. congruence.
Qed.

Lemma aliased_updEntry cur safe en dc dl f g :
  updEntry p g (aliased p buf size cur safe en dc dl f)
  = Ok (tt, aliased p buf size cur safe (g en) dc dl f).
Proof using All.
  rewrite updEntry_eq by apply aliased_valid. rewrite aliased_entryOf.
  unfold aliased, set_cells. cbn. now rewrite insert_singleton_eq.
Qed.

Lemma aliased_loadEntry cur safe en dc dl f :
  loadEntry p (aliased p buf size cur safe en dc dl f)
  = Ok (en, aliased p buf size cur safe en dc dl f).
Proof using All. rewrite loadEntry_eq by apply aliased_valid. now rewrite aliased_entryOf. Qed.

Lemma aliased_Protect cur safe en dc dl f i :
  0 <= i < size + 2 ->
  Protect i (aliased p buf size cur safe en dc dl f)
  = Ok (cur, aliased p buf size cur safe (set_localCurrentEpoch cur en) dc dl f).
Proof using All.
  intros Hi. unfold Protect.
  rewrite bind_eq, (tableAt_eq _ _ _ (aliased_table _ _ _ _ _ _ _ Hi)).
  rewrite bind_eq. cbn [load gets].
  rewrite bind_eq, aliased_updEntry.
  rewrite bind_eq, aliased_loadEntry. reflexivity.
Qed.

Lemma aliased_Unprotect cur safe en dc dl f i :
  0 <= i < size + 2 ->
  Unprotect i (aliased p buf size cur safe en dc dl f)
  = Ok (tt, aliased p buf size cur safe
              (set_localCurrentEpoch Unprotected en) dc dl f).
Proof using All.
  intros Hi. unfold Unprotect.
  rewrite bind_eq, (tableAt_eq _ _ _ (aliased_table _ _ _ _ _ _ _ Hi)).
  apply aliased_updEntry.
Qed.


Lemma older_idem en o : older en (older en o) = older en o.
Proof using All.
  unfold older.
  destruct (localCurrentEpoch en =? Unprotected); cbn [negb andb]; [reflexivity|].
  destruct (Z.ltb_spec (localCurrentEpoch en) o).
  - now rewrite Z.ltb_irrefl.
  - destruct (Z.ltb_spec (localCurrentEpoch en) o); [lia|reflexivity].
Qed.

Lemma aliased_scanTable cur safe en dc dl f n : forall i o,
  0 <= i -> i + Z.of_nat n <= size + 2 ->
  scanTable n i o (aliased p buf size cur safe en dc dl f)
  = Ok (match n with O => o | S _ => older en o end,
        aliased p buf size cur safe en dc dl f).
Proof using All.
  induction n as [|n IH]; intros i o Hi Hn; [reflexivity|].
  cbn [scanTable].
  rewrite bind_eq, (tableAt_eq _ _ p) by (apply aliased_table; lia).
  rewrite bind_eq, aliased_loadEntry.
  fold (older en o). rewrite IH by lia.
  destruct n; [reflexivity|]. now rewrite older_idem.
Qed.

Lemma aliased_ComputeNewSafeToReclaimEpoch cur safe en dc dl f x :
  1 <= size ->
  ComputeNewSafeToReclaimEpoch x (aliased p buf size cur safe en dc dl f)
  = Ok (u64 (older en x - 1),
        aliased p buf size cur (u64 (older en x - 1)) en dc dl f).
Proof using All.
  intros Hs. unfold ComputeNewSafeToReclaimEpoch.
  rewrite bind_eq. cbn [load gets aliased epoch entryNum].
  fold (aliased p buf size cur safe en dc dl f).
  rewrite bind_eq, aliased_scanTable by lia.
  destruct (Z.to_nat size) eqn:E; [lia|]. reflexivity.
Qed.

End Aliased.

(** ** Slots of the table of pointers are one entry *)

Section PtrTableSlots.
Import PtrTable.

(** For every table size, [Protect(i)] on the machine built by
    [NewLightEpoch] changes the entry seen through every slot [j]. *)
Lemma PtrTable_Protect_writes_all_slots addr size i j :
  0 <= size < 2 ^ 26 - 2 -> 0 <= addr ->
  addr + ((size + 2) * 64 + 63) <= 2 ^ 64 ->
  1 <= i <= size -> 1 <= j <= size ->
  exists m m',
    NewLightEpoch addr size = Ok m
    /\ exec (Protect i) m = Ok m'
    /\ slot m j = Some (mkEntry 0 0 RestPhase)
    /\ slot m' j = Some (mkEntry 1 0 RestPhase).
Proof.
  intros Hsize Haddr Hend Hi Hj.
  destruct (NewLightEpoch_eq addr size Hsize Haddr Hend)
    as (p & buf & Hnew & Hbuf).
  eexists. eexists. split; [exact Hnew|].
  split; [eapply exec_Ok, aliased_Protect; [exact Hbuf|lia]|].
  split; apply aliased_slot; (exact Hbuf || lia).
Qed.

End PtrTableSlots.

(** C3.  The slots of the table built by [NewLightEpoch] are not distinct
    entries: with two usable slots, [Protect(1)] changes the
    [localCurrentEpoch] of slot 2 from 0 to 1, so that [IsProtected(2)]
    turns from false to true. *)
Theorem PtrTable_Protect_changes_other_slot :
  exists m m',
    PtrTable.NewLightEpoch 4100 2 = Ok m
    /\ PtrTable.slot m 2 = Some (mkEntry 0 0 RestPhase)
    /\ PtrTable.IsProtected 2 m = Ok (false, m)
    /\ exec (PtrTable.Protect 1) m = Ok m'
    /\ PtrTable.slot m' 2 = Some (mkEntry 1 0 RestPhase)
    /\ PtrTable.IsProtected 2 m' = Ok (true, m').
Proof.
  do 2 eexists. split; [vm_compute; reflexivity|].
  split; [vm_compute; reflexivity|].
  split; [vm_compute; reflexivity|].
  split; [vm_compute; reflexivity|].
  split; vm_compute; reflexivity.
Qed.

(** ** Monotonicity of the safe-to-reclaim epoch *)

Section PtrTableSafety.
Import PtrTable.

Lemma updEntry_inv q g m u m' :
  updEntry q g m = Ok (u, m') ->
  m' = set_cells (<[q := g (entryOf m q)]> (cells m)) m.
Proof.
  unfold updEntry. intros H.
  apply bind_Ok_inv in H as (en & m1 & H1 & H2).
  unfold loadEntry in H1. destruct (valid m q); [|discriminate].
  injection H1 as <- <-. unfold modify in H2. now injection H2 as _ <-.
Qed.

Lemma tableAt_inv i m q m' :
  tableAt i m = Ok (q, m') -> m' = m /\ nth_Z (table (epoch m)) i = Some q.
Proof.
  unfold tableAt. destruct (nth_Z (table (epoch m)) i); [|discriminate].
  intros [= <- <-]. auto.
Qed.

Lemma loadEntry_inv q m en m' :
  loadEntry q m = Ok (en, m') ->
  m' = m /\ en = entryOf m q /\ valid m q = true.
Proof.
  unfold loadEntry. destruct (valid m q); [|discriminate].
  intros [= <- <-]. auto.
Qed.

Lemma actionAt_inv i m a m' :
  actionAt i m = Ok (a, m') ->
  m' = m /\ nth_Z (drainList (epoch m)) i = Some a.
Proof.
  unfold actionAt. destruct (nth_Z (drainList (epoch m)) i); [|discriminate].
  intros [= <- <-]. auto.
Qed.

Lemma updAction_inv i g m u m' :
  updAction i g m = Ok (u, m') ->
  exists a, nth_Z (drainList (epoch m)) i = Some a
    /\ m' = upd_epoch (fun e => set_drainList (upd_Z (drainList e) i (g a)) e) m.
Proof.
  unfold updAction. intros H.
  apply bind_Ok_inv in H as (a & m1 & H1 & H2).
  apply actionAt_inv in H1 as [-> Ha]. injection H2 as <-. eauto.
Qed.

Lemma entryOf_nonneg m q :
  (forall q' en, cells m !! q' = Some en -> 0 <= localCurrentEpoch en) ->
  0 <= localCurrentEpoch (entryOf m q).
Proof.
  intros H. unfold entryOf. destruct (cells m !! q) as [en|] eqn:E.
  - cbn. eauto.
  - cbn. lia.
Qed.

Lemma never_drained_set_cells m q en :
  never_drained m -> 0 <= localCurrentEpoch en ->
  never_drained (set_cells (<[q := en]> (cells m)) m).
Proof.
  intros (Hc & Hs & Hcur & Hcells) Hen. repeat split; try assumption.
  cbn [cells set_cells]. intros q' en' H.
  destruct (decide (q = q')) as [->|Hne].
  - rewrite lookup_insert_eq in H. congruence.
  - rewrite lookup_insert_ne in H by assumption. eauto.
Qed.

Lemma never_drained_updEntry q g m u m' :
  (forall en, 0 <= localCurrentEpoch en -> 0 <= localCurrentEpoch (g en)) ->
  never_drained m -> updEntry q g m = Ok (u, m') -> never_drained m'.
Proof.
  intros Hg Hm H. apply updEntry_inv in H as ->.
  apply never_drained_set_cells; [assumption|].
  apply Hg, entryOf_nonneg, Hm.
Qed.

Lemma never_drained_Protect i m r m' :
  never_drained m -> Protect i m = Ok (r, m') -> never_drained m'.
Proof.
  intros Hm H. unfold Protect in H.
  apply bind_Ok_inv in H as (q & m1 & H1 & H).
  apply tableAt_inv in H1 as [-> _].
  apply bind_Ok_inv in H as (cur & m1 & H1 & H). injection H1 as <- <-.
  apply bind_Ok_inv in H as (u & m1 & H1 & H).
  apply never_drained_updEntry in H1; [|cbn; intros; apply Hm|assumption].
  apply bind_Ok_inv in H as (en & m2 & H2 & H).
  apply loadEntry_inv in H2 as (-> & _ & _). now injection H as _ <-.
Qed.

Lemma never_drained_Unprotect i m u m' :
  never_drained m -> Unprotect i m = Ok (u, m') -> never_drained m'.
Proof.
  intros Hm H. unfold Unprotect in H.
  apply bind_Ok_inv in H as (q & m1 & H1 & H).
  apply tableAt_inv in H1 as [-> _].
  eapply never_drained_updEntry; [|exact Hm|exact H].
  cbn. unfold Unprotected. lia.
Qed.

(** While nothing is registered, [BumpCurrentEpoch] increments the
    counter and does not drain. *)
Lemma never_drained_BumpCurrentEpoch m :
  never_drained m ->
  BumpCurrentEpoch m
  = Ok (u64 (atomicCurrentEpoch (epoch m) + 1),
        upd_epoch (fun e => set_atomicCurrentEpoch
                              (u64 (atomicCurrentEpoch e + 1)) e) m)
  /\ never_drained
       (upd_epoch (fun e => set_atomicCurrentEpoch
                              (u64 (atomicCurrentEpoch e + 1)) e) m).
Proof.
  intros (Hc & Hs & Hcur & Hcells). split.
  - unfold BumpCurrentEpoch. rewrite bind_eq. cbn [store modify].
    rewrite bind_eq. cbn [load gets]. rewrite bind_eq.
    destruct m as [[c s t tu n dc dl] b cl f]. cbn in *. subst dc.
    reflexivity.
  - destruct m as [[c s t tu n dc dl] b cl f]. cbn in *.
    repeat split; try assumption. cbn. apply u64_range.
Qed.

Lemma never_drained_perform c m m' :
  basic_operation c -> never_drained m ->
  exec (perform c) m = Ok m' -> never_drained m'.
Proof.
  intros Hc Hm H. apply exec_Ok_inv in H as [u H].
  destruct c; try contradiction; cbn [perform] in H.
  - apply bind_Ok_inv in H as (r & m1 & H1 & H). injection H as _ <-.
    eapply never_drained_Protect; eauto.
  - eapply never_drained_Unprotect; eauto.
  - apply bind_Ok_inv in H as (r & m1 & H1 & H). injection H as _ <-.
    destruct (never_drained_BumpCurrentEpoch m Hm) as [E Hm'].
    rewrite E in H1. now injection H1 as _ <-.
Qed.

Lemma never_drained_history cs : forall m,
  Forall basic_operation cs -> never_drained m ->
  Forall never_drained (history cs m).
Proof.
  induction cs as [|c cs IH]; intros m Hcs Hm; [constructor|].
  apply Forall_cons in Hcs as [Hc Hcs]. cbn [history].
  destruct (exec (perform c) m) as [m'| |] eqn:E; try constructor.
  - eapply never_drained_perform; eauto.
  - apply IH; [assumption|]. eapply never_drained_perform; eauto.
Qed.

Lemma never_drained_safe_below_protected m :
  never_drained m -> safe_below_protected m.
Proof.
  intros (Hc & Hs & Hcur & Hcells) i en Hi Hslot Hprot. rewrite Hs.
  unfold slot in Hslot.
  destruct (nth_Z (table (epoch m)) i) as [q|]; [|discriminate].
  destruct (valid m q); [|discriminate]. injection Hslot as <-.
  pose proof (entryOf_nonneg m q Hcells). unfold Unprotected in Hprot. lia.
Qed.

(** The loops of [NewLightEpoch] leave the counters alone. *)
Lemma never_drained_initTable n : forall i start m u m',
  never_drained m -> initTable n i start m = Ok (u, m') -> never_drained m'.
Proof.
  induction n as [|n IH]; intros i start m u m' Hm H; cbn [initTable] in H.
  - now injection H as _ <-.
  - apply bind_Ok_inv in H as (u1 & m1 & H1 & H).
    unfold setTableAt in H1.
    apply bind_Ok_inv in H1 as (q0 & m0 & H0 & H1).
    apply tableAt_inv in H0 as [-> _]. injection H1 as _ <-.
    apply bind_Ok_inv in H as (q & m2 & H2 & H).
    apply tableAt_inv in H2 as [-> _].
    apply bind_Ok_inv in H as (u3 & m3 & H3 & H).
    eapply IH; [|exact H].
    eapply never_drained_updEntry; [| |exact H3].
    + intros. cbn. lia.
    + destruct m as [[c s t tu num dc dl] b cl f]. exact Hm.
Qed.

Lemma never_drained_updAction i g m u m' :
  never_drained m -> updAction i g m = Ok (u, m') -> never_drained m'.
Proof.
  intros Hm H. apply updAction_inv in H as (a & _ & ->).
  destruct m as [[c s t tu num dc dl] b cl f]. exact Hm.
Qed.

Lemma never_drained_initDrainList n : forall i m u m',
  never_drained m -> initDrainList n i m = Ok (u, m') -> never_drained m'.
Proof.
  induction n as [|n IH]; intros i m u m' Hm H; cbn [initDrainList] in H.
  - now injection H as _ <-.
  - apply bind_Ok_inv in H as (u1 & m1 & H1 & H).
    eapply IH; [|exact H]. unfold initializeAction in H1.
    apply bind_Ok_inv in H1 as (u2 & m2 & H2 & H1).
    apply bind_Ok_inv in H1 as (u3 & m3 & H3 & H1).
    eauto using never_drained_updAction.
Qed.

Lemma never_drained_NewLightEpoch addr size m :
  NewLightEpoch addr size = Ok m -> never_drained m.
Proof.
  unfold NewLightEpoch.
  destruct (alignedAlloc _ _ _) as [[b start]| |]; try discriminate.
  intros H. apply exec_Ok_inv in H as [u H].
  apply bind_Ok_inv in H as (u1 & m1 & H1 & H).
  eapply never_drained_initDrainList; [|exact H].
  eapply never_drained_initTable; [|exact H1].
  repeat split; cbn; try lia. intros q en H'. now rewrite lookup_empty in H'.
Qed.

End PtrTableSafety.

(** On a [LightEpoch] just built by [NewLightEpoch] nothing is
    registered, so that along [Protect], [Unprotect] and
    [BumpCurrentEpoch] calls no bump drains: the safe epoch stays 0, for
    whatever size and address, and also when the counter wraps. *)
Lemma safeToReclaimEpoch_on_new_object
  (addr size : Z) (cs : list PtrTable.operation) (m0 : PtrTable.machine) :
  PtrTable.NewLightEpoch addr size = Ok m0 ->
  Forall PtrTable.basic_operation cs ->
  (forall k m m',
      (m0 :: PtrTable.history cs m0) !! k = Some m ->
      (m0 :: PtrTable.history cs m0) !! S k = Some m' ->
      PtrTable.atomicSafeToReclaimEpoch (PtrTable.epoch m)
      <= PtrTable.atomicSafeToReclaimEpoch (PtrTable.epoch m'))
  /\ Forall PtrTable.safe_below_protected (m0 :: PtrTable.history cs m0).
Proof.
  intros Hnew Hcs.
  assert (Hall : Forall PtrTable.never_drained (m0 :: PtrTable.history cs m0)).
  { pose proof (never_drained_NewLightEpoch _ _ _ Hnew) as H0.
    constructor; [exact H0|]. now apply never_drained_history. }
  split.
  - intros k m m' Hk Hk'.
    rewrite Forall_lookup in Hall.
    destruct (Hall _ _ Hk) as (_ & -> & _).
    destruct (Hall _ _ Hk') as (_ & -> & _). lia.
  - eapply Forall_impl; [exact Hall|].
    apply never_drained_safe_below_protected.
Qed.

(** ** Properties kept by every call *)

Lemma preserves_ret {S A} (P : S -> Prop) (a : A) : preserves P (mret a).
Proof. intros s a' s' HP [= _ <-]. exact HP. Qed.

Lemma preserves_bind {S A B} (P : S -> Prop) (c : M S A) (k : A -> M S B) :
  preserves P c -> (forall a, preserves P (k a)) -> preserves P (c ≫= k).
Proof.
  intros Hc Hk s b s' HP H.
  apply bind_Ok_inv in H as (a & s1 & H1 & H2).
  eapply Hk; [|exact H2]. eapply Hc; eauto.
Qed.

Lemma preserves_bind_val {S A B} (P : S -> Prop) (Q : A -> Prop)
  (c : M S A) (k : A -> M S B) :
  preserves P c ->
  (forall s a s', P s -> c s = Ok (a, s') -> Q a) ->
  (forall a, Q a -> preserves P (k a)) ->
  preserves P (c ≫= k).
Proof.
  intros Hc HQ Hk s b s' HP H.
  apply bind_Ok_inv in H as (a & s1 & H1 & H2).
  eapply Hk; [eapply HQ; eauto| |exact H2]. eapply Hc; eauto.
Qed.

Lemma preserves_gets {S A} (P : S -> Prop) (f : S -> A) : preserves P (gets f).
Proof. intros s a s' HP [= _ <-]. exact HP. Qed.

Lemma preserves_panic {S A} (P : S -> Prop) : preserves P (@panic S A).
Proof. intros s a s' _ H. discriminate H. Qed.

Lemma preserves_spin {S A} (P : S -> Prop) : preserves P (@spin S A).
Proof. intros s a s' _ H. discriminate H. Qed.

Lemma preserves_modify {S} (P : S -> Prop) (f : S -> S) :
  (forall s, P s -> P (f s)) -> preserves P (modify f).
Proof. intros Hf s a s' HP H. injection H as _ <-. auto. Qed.

Section Unregistered.
Import PtrTable.

Variables (cb : EpochCallbackFunc) (k : nat).

Local Abbreviation J := (unregistered cb k).

Lemma unreg_load {A} (f : LightEpoch -> A) : preserves J (load f).
Proof. apply preserves_gets. Qed.

Lemma unreg_tableAt i : preserves J (tableAt i).
Proof. intros m q m' HJ H. now apply tableAt_inv in H as [-> _]. Qed.

Lemma unreg_tableUsedAt i : preserves J (tableUsedAt i).
Proof.
  intros m q m' HJ H. unfold tableUsedAt in H.
  destruct (nth_Z _ i); [|discriminate]. now injection H as _ <-.
Qed.

Lemma unreg_actionAt i : preserves J (actionAt i).
Proof. intros m q m' HJ H. now apply actionAt_inv in H as [-> _]. Qed.

Lemma unreg_loadEntry q : preserves J (loadEntry q).
Proof. intros m en m' HJ H. now apply loadEntry_inv in H as (-> & _). Qed.

Lemma unreg_updEntry q g : preserves J (updEntry q g).
Proof. intros m u m' HJ H. apply updEntry_inv in H as ->. exact HJ. Qed.

(** Writes to the fields of the receiver other than the drain list. *)
Lemma unreg_store f :
  (forall e, drainList (f e) = drainList e) -> preserves J (store f).
Proof.
  intros Hf. apply preserves_modify. intros m [H1 H2]. split; [exact H1|].
  cbn [upd_epoch epoch]. now rewrite Hf.
Qed.

Lemma unreg_setTableAt i q : preserves J (setTableAt i q).
Proof.
  apply preserves_bind; [apply unreg_tableAt|intros _].
  apply unreg_store. reflexivity.
Qed.

Lemma unreg_setTableUsedAt i u : preserves J (setTableUsedAt i u).
Proof.
  apply preserves_bind; [apply unreg_tableUsedAt|intros _].
  apply unreg_store. reflexivity.
Qed.

Lemma unreg_updAction i g :
  (forall a, callback a <> Some cb -> callback (g a) <> Some cb) ->
  preserves J (updAction i g).
Proof.
  intros Hg m u m' [H1 H2] H. apply updAction_inv in H as (a & Ha & ->).
  split; [exact H1|]. cbn [upd_epoch epoch set_drainList drainList].
  unfold upd_Z. destruct (i <? 0); [exact H2|].
  apply Forall_insert; [exact H2|]. apply Hg.
  rewrite Forall_lookup in H2. unfold nth_Z in Ha.
  destruct (i <? 0); [discriminate|]. eapply H2, Ha.
Qed.

Lemma unreg_call callback ctx :
  callback <> Some cb -> preserves J (call callback ctx).
Proof.
  intros Hne. destruct callback as [f|]; [|apply preserves_panic].
  apply preserves_modify. intros m [H1 H2]. split; [|exact H2].
  unfold invocations in *. cbn [set_fired fired].
  rewrite filter_app, length_app, H1. cbn.
  rewrite decide_False by congruence. cbn. lia.
Qed.

Lemma unreg_actionAt_callback i m a m' :
  J m -> actionAt i m = Ok (a, m') -> callback a <> Some cb.
Proof.
  intros [_ H2] H. apply actionAt_inv in H as [_ Ha].
  rewrite Forall_lookup in H2. unfold nth_Z in Ha.
  destruct (i <? 0); [discriminate|]. eapply H2, Ha.
Qed.

Ltac unreg_step :=
  first
    [ apply preserves_ret | apply preserves_panic | apply preserves_spin
    | apply unreg_load | apply unreg_tableAt | apply unreg_tableUsedAt
    | apply unreg_actionAt | apply unreg_loadEntry | apply unreg_updEntry
    | apply unreg_setTableAt | apply unreg_setTableUsedAt
    | apply unreg_store; reflexivity
    | apply unreg_updAction; intros ? ?; assumption
    | apply preserves_bind; [|intros ?]
    | match goal with
      | |- preserves _ (if ?b then _ else _) => destruct b
      | |- preserves _ (match ?x with _ => _ end) => destruct x
      end ].

Lemma unreg_casActionEpoch i old new : preserves J (casActionEpoch i old new).
Proof. unfold casActionEpoch. repeat unreg_step. Qed.

Lemma unreg_casTableUsed i old new : preserves J (casTableUsed i old new).
Proof. unfold casTableUsed. repeat unreg_step. Qed.

Lemma unreg_addDrainCount delta : preserves J (addDrainCount delta).
Proof. unfold addDrainCount. repeat unreg_step. Qed.

Lemma unreg_tryPop i expectedEpoch : preserves J (tryPop i expectedEpoch).
Proof.
  unfold tryPop. apply preserves_bind; [apply unreg_casActionEpoch|].
  intros [|]; [|apply preserves_ret].
  eapply preserves_bind_val;
    [apply unreg_actionAt|apply unreg_actionAt_callback|].
  intros a Ha. cbv zeta.
  apply preserves_bind; [apply unreg_updAction; cbn; congruence|intros _].
  apply preserves_bind; [unreg_step|intros _].
  apply preserves_bind; [unreg_step|intros _].
  apply preserves_bind; [apply unreg_call, Ha|intros _].
  apply preserves_ret.
Qed.

Lemma unreg_tryPush i priorEpoch newCallback newCtx :
  newCallback <> Some cb ->
  preserves J (tryPush i priorEpoch newCallback newCtx).
Proof.
  intros Hne. unfold tryPush.
  apply preserves_bind; [apply unreg_casActionEpoch|].
  intros [|]; [|apply preserves_ret].
  apply preserves_bind; [apply unreg_updAction; cbn; congruence|intros _].
  repeat unreg_step.
Qed.

Lemma unreg_trySwap i expectedEpoch priorEpoch newCallback newCtx :
  newCallback <> Some cb ->
  preserves J (trySwap i expectedEpoch priorEpoch newCallback newCtx).
Proof.
  intros Hne. unfold trySwap.
  apply preserves_bind; [apply unreg_casActionEpoch|].
  intros [|]; [|apply preserves_ret].
  eapply preserves_bind_val;
    [apply unreg_actionAt|apply unreg_actionAt_callback|].
  intros a Ha. cbv zeta.
  apply preserves_bind; [apply unreg_updAction; cbn; congruence|intros _].
  apply preserves_bind; [unreg_step|intros _].
  apply preserves_bind; [unreg_step|intros _].
  apply preserves_bind; [apply unreg_call, Ha|intros _].
  apply preserves_ret.
Qed.

Lemma unreg_scanTable n : forall i o, preserves J (scanTable n i o).
Proof.
  induction n as [|n IH]; intros i o; cbn [scanTable]; [apply preserves_ret|].
  apply preserves_bind; [unreg_step|intros q].
  apply preserves_bind; [unreg_step|intros en]. apply IH.
Qed.

Lemma unreg_ComputeNewSafeToReclaimEpoch x :
  preserves J (ComputeNewSafeToReclaimEpoch x).
Proof.
  unfold ComputeNewSafeToReclaimEpoch.
  apply preserves_bind; [unreg_step|intros num].
  apply preserves_bind; [apply unreg_scanTable|intros o].
  repeat unreg_step.
Qed.

Lemma unreg_drainLoop n : forall i, preserves J (drainLoop n i).
Proof.
  induction n as [|n IH]; intros i; cbn [drainLoop]; [apply preserves_ret|].
  apply preserves_bind; [unreg_step|intros a]. cbv zeta.
  apply preserves_bind; [unreg_step|intros safe].
  destruct (atomicEpoch a <=? safe); [|apply IH].
  apply preserves_bind; [apply unreg_tryPop|intros [|]]; [|apply IH].
  apply preserves_bind; [apply unreg_addDrainCount|intros count].
  destruct (count =? 0); [apply preserves_ret|apply IH].
Qed.

Lemma unreg_Drain x : preserves J (Drain x).
Proof.
  unfold Drain.
  apply preserves_bind; [apply unreg_ComputeNewSafeToReclaimEpoch|intros _].
  apply unreg_drainLoop.
Qed.

Lemma unreg_BumpCurrentEpoch : preserves J BumpCurrentEpoch.
Proof.
  unfold BumpCurrentEpoch.
  apply preserves_bind; [unreg_step|intros _].
  apply preserves_bind; [unreg_step|intros nextEpoch].
  apply preserves_bind; [unreg_step|intros count].
  apply preserves_bind; [|intros _; apply preserves_ret].
  destruct (0 <? count); [apply unreg_Drain|apply preserves_ret].
Qed.

Lemma unreg_registerLoop callback ctx fuel : forall i j priorEpoch,
  callback <> Some cb ->
  preserves J (registerLoop fuel i j priorEpoch callback ctx).
Proof.
  induction fuel as [|fuel IH]; intros i j priorEpoch Hne;
    cbn [registerLoop]; [apply preserves_spin|].
  apply preserves_bind; [unreg_step|intros a]. cbv zeta.
  apply preserves_bind.
  - destruct (atomicEpoch a =? epochFree).
    + apply preserves_bind; [now apply unreg_tryPush|intros [|]].
      * apply preserves_bind; [apply unreg_addDrainCount|intros _].
        apply preserves_ret.
      * apply preserves_ret.
    + apply preserves_bind; [unreg_step|intros safe].
      destruct (atomicEpoch a <=? safe);
        [now apply unreg_trySwap|apply preserves_ret].
  - intros [|]; [apply preserves_ret|].
    destruct (i + 1 =? drainListSize); now apply IH.
Qed.

Lemma unreg_BumpCurrentEpochWithCallback fuel callback ctx :
  callback <> Some cb ->
  preserves J (BumpCurrentEpochWithCallback fuel callback ctx).
Proof.
  intros Hne. unfold BumpCurrentEpochWithCallback.
  apply preserves_bind; [apply unreg_BumpCurrentEpoch|intros nextEpoch].
  cbv zeta.
  apply preserves_bind; [now apply unreg_registerLoop|intros _].
  apply preserves_ret.
Qed.

Lemma unreg_SpinWaitForSafeToReclaim fuel : forall cur target,
  preserves J (SpinWaitForSafeToReclaim fuel cur target).
Proof.
  induction fuel as [|fuel IH]; intros cur target;
    cbn [SpinWaitForSafeToReclaim]; [apply preserves_spin|].
  apply preserves_bind;
    [apply unreg_ComputeNewSafeToReclaimEpoch|intros safe].
  destruct (target <=? safe); [apply preserves_ret|apply IH].
Qed.

Lemma unreg_probePass n : forall i startIdx iteration,
  preserves J (probePass n i startIdx iteration).
Proof.
  induction n as [|n IH]; intros i startIdx iteration; cbn [probePass];
    [apply preserves_ret|].
  apply preserves_bind; [unreg_step|intros num]. cbv zeta.
  apply preserves_bind; [apply unreg_casTableUsed|intros [|]];
    [apply preserves_ret|apply IH].
Qed.

Lemma unreg_findLoop fuel : forall startIdx iteration,
  preserves J (findLoop fuel startIdx iteration).
Proof.
  induction fuel as [|fuel IH]; intros startIdx iteration; cbn [findLoop];
    [apply preserves_spin|].
  apply preserves_bind; [unreg_step|intros num].
  apply preserves_bind; [apply unreg_probePass|intros [[idx|] it]];
    [apply preserves_ret|].
  destruct (u32 (3 * num) <? it); [apply preserves_panic|apply IH].
Qed.

Lemma unreg_resetPhases n : forall i, preserves J (resetPhases n i).
Proof.
  induction n as [|n IH]; intros i; cbn [resetPhases]; [apply preserves_ret|].
  apply preserves_bind; [unreg_step|intros q].
  apply preserves_bind; [unreg_step|intros _]. apply IH.
Qed.

Lemma unreg_checkPhases n : forall i phase, preserves J (checkPhases n i phase).
Proof.
  induction n as [|n IH]; intros i phase; cbn [checkPhases];
    [apply preserves_ret|].
  apply preserves_bind; [unreg_step|intros q].
  apply preserves_bind; [unreg_step|intros en]. cbv zeta.
  destruct (_ && _); [apply preserves_ret|apply IH].
Qed.

(** No call executes a callback that is not in the drain list, nor puts
    it there, unless the call registers it. *)
Lemma unreg_perform c :
  not_registering cb c -> preserves J (perform c).
Proof.
  intros Hc. destruct c; cbn [perform not_registering] in *.
  - apply preserves_bind; [apply unreg_findLoop|intros _; apply preserves_ret].
  - unfold ReleaseEntry. repeat unreg_step.
  - unfold Protect. repeat unreg_step.
  - unfold ProtectAndDrain.
    apply preserves_bind; [|intros _; apply preserves_ret].
    apply preserves_bind; [unreg_step|intros q].
    apply preserves_bind; [unreg_step|intros cur].
    apply preserves_bind; [unreg_step|intros _].
    apply preserves_bind; [unreg_step|intros count].
    apply preserves_bind; [|intros _; repeat unreg_step].
    destruct (0 <? count); [|apply preserves_ret].
    apply preserves_bind; [unreg_step|intros en]. apply unreg_Drain.
  - unfold ReentrantProtect. repeat unreg_step.
  - unfold IsProtected. repeat unreg_step.
  - unfold Unprotect. repeat unreg_step.
  - unfold ReentrantUnprotect. repeat unreg_step.
  - apply unreg_Drain.
  - apply preserves_bind; [apply unreg_BumpCurrentEpoch|intros _].
    apply preserves_ret.
  - apply preserves_bind;
      [now apply unreg_BumpCurrentEpochWithCallback|intros _].
    apply preserves_ret.
  - apply preserves_bind;
      [apply unreg_ComputeNewSafeToReclaimEpoch|intros _].
    apply preserves_ret.
  - apply unreg_SpinWaitForSafeToReclaim.
  - unfold IsSafeToReclaim. repeat unreg_step.
  - unfold ResetPhaseFinished.
    apply preserves_bind; [unreg_step|intros num]. apply unreg_resetPhases.
  - unfold MarkAndCheckIfFinished.
    apply preserves_bind; [|intros _; apply preserves_ret].
    apply preserves_bind; [unreg_step|intros q].
    apply preserves_bind; [unreg_step|intros _].
    apply preserves_bind; [unreg_step|intros num]. apply unreg_checkPhases.
  - unfold HasThreadFinishedPhase. repeat unreg_step.
Qed.

Lemma unreg_performAll cs :
  Forall (not_registering cb) cs -> preserves J (performAll cs).
Proof.
  induction cs as [|c cs IH]; intros Hcs; cbn [performAll];
    [apply preserves_ret|].
  apply Forall_cons in Hcs as [Hc Hcs].
  apply preserves_bind; [now apply unreg_perform|intros _]. now apply IH.
Qed.

End Unregistered.

(** ** Draining on a machine whose slots share one entry *)

Section Draining.
Import PtrTable.

(** A scan of the drain list pops nothing when every trigger epoch it
    meets is above the safe-to-reclaim epoch. *)
Lemma drainLoop_idle n : forall i m,
  0 <= i ->
  (forall j, i <= j < i + Z.of_nat n ->
     exists a, nth_Z (drainList (epoch m)) j = Some a
               /\ atomicSafeToReclaimEpoch (epoch m) < atomicEpoch a) ->
  drainLoop n i m = Ok (tt, m).
Proof.
  induction n as [|n IH]; intros i m Hi Hall; [reflexivity|].
  cbn [drainLoop].
  destruct (Hall i ltac:(lia)) as (a & Ha & Hlt).
  rewrite bind_eq, (actionAt_eq _ _ _ Ha). cbv zeta.
  rewrite bind_eq. cbn [load gets].
  destruct (Z.leb_spec (atomicEpoch a) (atomicSafeToReclaimEpoch (epoch m)));
    [lia|].
  apply IH; [lia|]. intros j Hj. apply Hall. lia.
Qed.

(** A successful pop: the slot is locked, emptied and freed, and the
    callback it held is invoked. *)
Lemma tryPop_eq m i a f :
  nth_Z (drainList (epoch m)) i = Some a ->
  callback a = Some f ->
  tryPop i (atomicEpoch a) m
  = Ok (true,
        set_fired (fired m ++ [(f, ctx a)])
          (upd_epoch
             (fun e => set_drainList (upd_Z (drainList e) i freeAction) e) m)).
Proof.
  intros Ha Hf. unfold tryPop, casActionEpoch.
  rewrite bind_eq, bind_eq, (actionAt_eq _ _ _ Ha), Z.eqb_refl.
  rewrite bind_eq, (updAction_eq _ _ _ _ Ha).
  set (m1 := upd_epoch _ m).
  assert (H1 : nth_Z (drainList (epoch m1)) i
               = Some (set_atomicEpoch epochLocked a)).
  { unfold m1. rewrite drainList_upd. eapply nth_Z_upd_eq, Ha. }
  cbn [mret M_ret]. rewrite bind_eq, (actionAt_eq _ _ _ H1). cbv zeta.
  rewrite bind_eq, (updAction_eq _ _ _ _ H1).
  set (m2 := upd_epoch _ m1).
  assert (H2 : nth_Z (drainList (epoch m2)) i
               = Some (set_callback None (set_atomicEpoch epochLocked a))).
  { unfold m2. rewrite drainList_upd. eapply nth_Z_upd_eq, H1. }
  rewrite bind_eq, (updAction_eq _ _ _ _ H2).
  set (m3 := upd_epoch _ m2).
  assert (H3 : nth_Z (drainList (epoch m3)) i
               = Some (set_ctx None (set_callback None
                                       (set_atomicEpoch epochLocked a)))).
  { unfold m3. rewrite drainList_upd. eapply nth_Z_upd_eq, H2. }
  rewrite bind_eq, (updAction_eq _ _ _ _ H3).
  cbn [set_atomicEpoch callback ctx]. rewrite Hf.
  rewrite bind_eq. cbn [call modify].
  unfold m3, m2, m1. destruct m as [[c s t tu n dc dl] b cl fi].
  unfold upd_epoch, set_drainList, set_fired. cbn.
  rewrite !upd_Z_upd_Z. reflexivity.
Qed.

Lemma load_eq {A} (g : LightEpoch -> A) m : load g m = Ok (g (epoch m), m).
Proof. reflexivity. Qed.

Variables (p : Z) (buf : bytes) (size : Z).
Hypothesis Hbuf : within buf p 64.
Hypothesis Hsize : 1 <= size.

Lemma aliased_cur cur safe en dc dl f :
  atomicCurrentEpoch (epoch (aliased p buf size cur safe en dc dl f)) = cur.
Proof. reflexivity. Qed.

Lemma aliased_safe cur safe en dc dl f :
  atomicSafeToReclaimEpoch (epoch (aliased p buf size cur safe en dc dl f))
  = safe.
Proof. reflexivity. Qed.

Lemma aliased_count cur safe en dc dl f :
  atomicDrainCount (epoch (aliased p buf size cur safe en dc dl f)) = dc.
Proof. reflexivity. Qed.


Lemma aliased_BumpCurrentEpoch_idle cur safe en dl f :
  BumpCurrentEpoch (aliased p buf size cur safe en 0 dl f)
  = Ok (u64 (cur + 1), aliased p buf size (u64 (cur + 1)) safe en 0 dl f).
Proof using All. reflexivity. Qed.

Lemma aliased_Drain_idle cur safe en dc dl f x :
  (forall j, 0 <= j < 256 ->
     exists a, nth_Z dl j = Some a /\ u64 (older en x - 1) < atomicEpoch a) ->
  Drain x (aliased p buf size cur safe en dc dl f)
  = Ok (tt, aliased p buf size cur (u64 (older en x - 1)) en dc dl f).
Proof using All.
  intros Hall. unfold Drain.
  rewrite bind_eq, aliased_ComputeNewSafeToReclaimEpoch by assumption.
  apply drainLoop_idle; [lia|]. exact Hall.
Qed.

Lemma aliased_BumpCurrentEpoch_idle_drain cur safe en dc dl f :
  0 < dc ->
  (forall j, 0 <= j < 256 ->
     exists a, nth_Z dl j = Some a
       /\ u64 (older en (u64 (cur + 1)) - 1) < atomicEpoch a) ->
  BumpCurrentEpoch (aliased p buf size cur safe en dc dl f)
  = Ok (u64 (cur + 1),
        aliased p buf size (u64 (cur + 1))
          (u64 (older en (u64 (cur + 1)) - 1)) en dc dl f).
Proof using All.
  intros Hdc Hall. unfold BumpCurrentEpoch.
  rewrite bind_eq. cbn [store modify].
  change (upd_epoch _ (aliased p buf size cur safe en dc dl f))
    with (aliased p buf size (u64 (cur + 1)) safe en dc dl f).
  rewrite bind_eq, load_eq, aliased_cur. rewrite bind_eq.
  rewrite load_eq, aliased_count.
  destruct (Z.ltb_spec 0 dc); [|lia].
  rewrite bind_eq, (aliased_Drain_idle _ _ _ _ _ _ _ Hall). reflexivity.
Qed.

(** The first slot of the drain list is free: the action goes there. *)
Lemma aliased_register_first_slot fuel cur safe en rest f cb cx :
  BumpCurrentEpochWithCallback (S fuel) cb cx
    (aliased p buf size cur safe en 0 (freeAction :: rest) f)
  = Ok (u64 (u64 (u64 (cur + 1) - 1) + 1),
        aliased p buf size (u64 (cur + 1)) safe en 1
          (mkAction (u64 (u64 (cur + 1) - 1)) cb cx :: rest) f).
Proof using All. reflexivity. Qed.

Lemma drainLoop_S n i :
  drainLoop (S n) i
  = (a ← actionAt i;
     let triggerEpoch := atomicEpoch a in
     safe ← load atomicSafeToReclaimEpoch;
     if triggerEpoch <=? safe then
       popped ← tryPop i triggerEpoch;
       if popped : bool then
         count ← addDrainCount (2 ^ 32 - 1);
         if count =? 0 then mret tt else drainLoop n (i + 1)
       else drainLoop n (i + 1)
     else drainLoop n (i + 1)).
Proof. reflexivity. Qed.

Lemma aliased_tryPop cur safe en dc rest f cb cx t :
  tryPop 0 t
    (aliased p buf size cur safe en dc (mkAction t (Some cb) cx :: rest) f)
  = Ok (true, aliased p buf size cur safe en dc (freeAction :: rest)
                (f ++ [(cb, cx)])).
Proof using All.
  etransitivity;
    [apply (tryPop_eq _ 0 (mkAction t (Some cb) cx) cb); reflexivity|].
  reflexivity.
Qed.

Lemma aliased_addDrainCount cur safe en dc dl f delta :
  addDrainCount delta (aliased p buf size cur safe en dc dl f)
  = Ok (u32 (dc + delta), aliased p buf size cur safe en (u32 (dc + delta)) dl f).
Proof using All. reflexivity. Qed.

(** The first slot holds an action whose trigger epoch is safe once
    nothing is protected: [Drain] pops it, runs the callback and stops,
    the count having reached zero. *)
Lemma aliased_Drain_fires cur safe en rest f cb cx t x :
  localCurrentEpoch en = Unprotected ->
  0 <= t -> t <= x - 1 -> x < 2 ^ 64 ->
  Drain x
    (aliased p buf size cur safe en 1 (mkAction t (Some cb) cx :: rest) f)
  = Ok (tt, aliased p buf size cur (x - 1) en 0 (freeAction :: rest)
              (f ++ [(cb, cx)])).
Proof using All.
  intros Hen Ht Htx Hx. unfold Drain.
  rewrite bind_eq, aliased_ComputeNewSafeToReclaimEpoch by assumption.
  assert (Hold : u64 (older en x - 1) = x - 1).
  { unfold older. rewrite Hen. cbn. apply u64_small. lia. }
  rewrite Hold.
  change (Z.to_nat drainListSize) with (S 255). rewrite drainLoop_S.
  rewrite bind_eq, (actionAt_eq _ _ (mkAction t (Some cb) cx)) by reflexivity.
  cbv zeta. rewrite bind_eq, load_eq, aliased_safe. cbn [atomicEpoch].
  destruct (Z.leb_spec t (x - 1)); [|lia].
  rewrite bind_eq, aliased_tryPop.
  rewrite bind_eq, aliased_addDrainCount.
  change (u32 (1 + (2 ^ 32 - 1))) with 0. reflexivity.
Qed.

End Draining.

(** ** The reclamation scenario *)

Section Scenario.
Import PtrTable.

Variables (p : Z) (buf : bytes) (size : Z).
Hypothesis Hbuf : within buf p 64.
Hypothesis Hsize : 1 <= size.
Variables (cb : EpochCallbackFunc) (cx : option Context).

(** The states of the scenario between the registration and the
    unprotect: the shared entry holds epoch 5, the action waits in the
    first slot with trigger epoch 5, and nothing was invoked. *)
Local Abbreviation waiting cur safe :=
  (aliased p buf size cur safe (mkEntry 5 0 RestPhase) 1
     (mkAction 5 (Some cb) cx :: replicate 255 freeAction) []).

Lemma waiting_triggers j :
  0 <= j < 256 ->
  exists a,
    nth_Z (mkAction 5 (Some cb) cx :: replicate 255 freeAction) j = Some a
    /\ 5 <= atomicEpoch a.
Proof.
  intros Hj. destruct (decide (j = 0)) as [->|Hne].
  - eexists. split; [reflexivity|]. cbn. lia.
  - exists freeAction. split; [|unfold freeAction, epochFree; cbn; lia].
    rewrite nth_Z_lookup by lia.
    replace (Z.to_nat j) with (S (Z.to_nat (j - 1))) by lia.
    cbn [lookup list_lookup]. apply lookup_replicate_2. lia.
Qed.

Lemma older_protected x :
  1 <= x -> 1 <= older (mkEntry 5 0 RestPhase) x <= 5.
Proof.
  intros Hx. unfold older, Unprotected. cbn [localCurrentEpoch].
  change (5 =? 0) with false. cbn [negb andb].
  destruct (Z.ltb_spec 5 x); lia.
Qed.

Lemma waiting_Drain cur safe x :
  1 <= x < 2 ^ 64 ->
  exists safe',
    Drain x (waiting cur safe) = Ok (tt, waiting cur safe')
    /\ 0 <= safe' <= 4.
Proof using All.
  intros Hx. pose proof (older_protected x ltac:(lia)) as Ho.
  exists (older (mkEntry 5 0 RestPhase) x - 1). split; [|lia].
  rewrite (aliased_Drain_idle p buf size Hbuf Hsize).
  - now rewrite u64_small by lia.
  - intros j Hj. destruct (waiting_triggers j Hj) as (a & Ha & Hle).
    exists a. split; [exact Ha|]. rewrite u64_small by lia. lia.
Qed.

Lemma waiting_BumpCurrentEpoch cur safe :
  0 <= cur -> cur + 1 < 2 ^ 64 ->
  exists safe',
    BumpCurrentEpoch (waiting cur safe) = Ok (cur + 1, waiting (cur + 1) safe')
    /\ 0 <= safe' <= 4.
Proof using All.
  intros Hc Hc'. pose proof (older_protected (cur + 1) ltac:(lia)) as Ho.
  exists (older (mkEntry 5 0 RestPhase) (cur + 1) - 1). split; [|lia].
  rewrite (aliased_BumpCurrentEpoch_idle_drain p buf size Hbuf Hsize);
    rewrite ?(u64_small (cur + 1)) by lia.
  - now rewrite u64_small by lia.
  - lia.
  - intros j Hj. destruct (waiting_triggers j Hj) as (a & Ha & Hle).
    exists a. split; [exact Ha|]. rewrite u64_small by lia. lia.
Qed.

(** Draining and bumping keep the scenario waiting. *)
Lemma waiting_performAll cs : forall cur safe,
  Forall drain_or_bump cs ->
  0 <= cur -> cur + Z.of_nat (length cs) < 2 ^ 64 ->
  exists cur' safe',
    exec (performAll cs) (waiting cur safe) = Ok (waiting cur' safe').
Proof using All.
  induction cs as [|c cs IH]; intros cur safe Hcs Hcur Hlen.
  - exists cur, safe. reflexivity.
  - apply Forall_cons in Hcs as [Hc Hcs]. cbn [length] in Hlen.
    destruct c; try contradiction; cbn [drain_or_bump] in Hc.
    + destruct (waiting_Drain cur safe nextEpoch Hc) as (safe1 & H1 & _).
      destruct (IH cur safe1 Hcs Hcur ltac:(lia)) as (cur' & safe' & H2).
      exists cur', safe'. unfold exec in *. cbn [performAll perform].
      rewrite bind_eq, H1. exact H2.
    + destruct (waiting_BumpCurrentEpoch cur safe Hcur ltac:(lia))
        as (safe1 & H1 & _).
      destruct (IH (cur + 1) safe1 Hcs ltac:(lia) ltac:(lia))
        as (cur' & safe' & H2).
      exists cur', safe'. unfold exec in *. cbn [performAll perform].
      rewrite bind_eq, bind_eq, H1. exact H2.
Qed.


Lemma repeatM_S {A} k (c : M machine A) m :
  repeatM (S k) c m
  = match c m with
    | Ok (_, m') => repeatM k c m'
    | Panic => Panic
    | Spin => Spin
    end.
Proof. cbn [repeatM]. rewrite bind_eq. now destruct (c m) as [[]| |]. Qed.

(** From the fresh machine to the registration. *)
Lemma scenario_setup i fuel :
  1 <= i <= size ->
  exists m1 m2,
    exec (repeatM 4 BumpCurrentEpoch)
      (aliased p buf size 1 0 (mkEntry 0 0 RestPhase) 0
         (replicate 256 freeAction) []) = Ok m1
    /\ atomicCurrentEpoch (epoch m1) = 5
    /\ Protect i m1 = Ok (5, m2)
    /\ BumpCurrentEpochWithCallback (S fuel) (Some cb) cx m2
       = Ok (6, waiting 6 0).
Proof using All.
  intros Hi.
  exists (aliased p buf size 5 0 (mkEntry 0 0 RestPhase) 0
            (replicate 256 freeAction) []).
  exists (aliased p buf size 5 0 (mkEntry 5 0 RestPhase) 0
            (replicate 256 freeAction) []).
  split.
  { unfold exec.
    do 4 (rewrite repeatM_S,
            (aliased_BumpCurrentEpoch_idle p buf size Hbuf Hsize);
          cbv beta iota).
    reflexivity. }
  split; [reflexivity|].
  split.
  { rewrite (aliased_Protect p buf size Hbuf) by lia. reflexivity. }
  change (replicate 256 freeAction)
    with (freeAction :: replicate 255 freeAction).
  rewrite (aliased_register_first_slot p buf size Hbuf Hsize). reflexivity.
Qed.

(** After the unprotect, a drain with an epoch from 6 on runs the
    callback, and from then on no call runs it again. *)
Lemma scenario_release i cur safe x :
  1 <= i <= size -> 6 <= x < 2 ^ 64 ->
  exists m4 m5,
    Unprotect i (waiting cur safe) = Ok (tt, m4)
    /\ invocations cb m4 = 0%nat
    /\ Drain x m4 = Ok (tt, m5)
    /\ unregistered cb 1 m5.
Proof using All.
  intros Hi Hx.
  eexists. eexists.
  split; [apply (aliased_Unprotect p buf size Hbuf); lia|].
  split; [reflexivity|].
  split.
  { apply (aliased_Drain_fires p buf size Hbuf Hsize);
      [reflexivity|lia|lia|lia]. }
  split.
  - unfold invocations. cbn [fired aliased app].
    rewrite filter_cons_True by reflexivity. reflexivity.
  - cbn [aliased epoch drainList]. constructor; [discriminate|].
    apply Forall_replicate. discriminate.
Qed.

End Scenario.



(** ** Reserving a slot of the table *)

Section Reserve.
Import PtrTable.

Lemma tableUsedAt_eq m i u :
  used m i = Some u -> tableUsedAt i m = Ok (u, m).
Proof. unfold used, tableUsedAt. now intros ->. Qed.

(** A compare-and-swap on a flag that is not 0 fails and writes nothing. *)
Lemma casTableUsed_taken m i u :
  used m i = Some u -> u <> 0 -> casTableUsed i 0 1 m = Ok (false, m).
Proof.
  intros Hu Hne. unfold casTableUsed.
  rewrite bind_eq, (tableUsedAt_eq _ _ _ Hu).
  destruct (Z.eqb_spec u 0); [contradiction|reflexivity].
Qed.

(** On a flag that is 0 it succeeds and sets the flag to 1. *)
Lemma casTableUsed_free m i :
  used m i = Some 0 ->
  casTableUsed i 0 1 m
  = Ok (true, upd_epoch (fun e => set_tableUsed (upd_Z (tableUsed e) i 1) e) m).
Proof.
  intros Hu. unfold casTableUsed.
  rewrite bind_eq, (tableUsedAt_eq _ _ _ Hu). cbn [Z.eqb].
  unfold setTableUsedAt.
  rewrite bind_eq, bind_eq, (tableUsedAt_eq _ _ _ Hu). reflexivity.
Qed.

(** With a table of no usable slot the outer loop never ends. *)
Lemma findLoop_no_slots fuel : forall startIdx m,
  entryNum (epoch m) = 0 -> findLoop fuel startIdx 0 m = Spin.
Proof.
  induction fuel as [|fuel IH]; intros startIdx m Hn; [reflexivity|].
  cbn [findLoop]. rewrite bind_eq, load_eq, Hn.
  cbn [Z.to_nat probePass]. rewrite bind_eq. cbn [mret M_ret].
  change (u32 (3 * 0) <? 0) with false. cbv iota. now apply IH.
Qed.

(** The slot probed at step [i] of a pass. *)
Local Abbreviation probe startIdx num i := (1 + (startIdx + i) mod num).

Lemma probe_index startIdx num i :
  0 < num -> 0 <= startIdx -> 0 <= i -> startIdx + i < 2 ^ 63 ->
  num < 2 ^ 32 ->
  int64 (1 + Z.rem (int64 (startIdx + i)) num) = probe startIdx num i.
Proof.
  intros Hn Hs Hi Hlt Hn'.
  rewrite (int64_small (startIdx + i)) by lia.
  rewrite Z.rem_mod_nonneg by lia.
  pose proof (Z.mod_pos_bound (startIdx + i) num Hn).
  apply int64_small. lia.
Qed.

Section Pass.
Variables (startIdx : Z) (m : machine).
Local Abbreviation num := (entryNum (epoch m)).
Hypothesis Hnum : 0 < num < 2 ^ 32.
Hypothesis Hstart : 0 <= startIdx.
Hypothesis Hwrap : startIdx + num < 2 ^ 63.

(** A pass over slots that are all in use reserves nothing and counts
    its probes. *)
Lemma probePass_all_taken n : forall i iteration,
  0 <= i -> i + Z.of_nat n <= num ->
  0 <= iteration -> iteration + Z.of_nat n < 2 ^ 63 ->
  (forall k, i <= k < i + Z.of_nat n ->
     exists u, used m (probe startIdx num k) = Some u /\ u <> 0) ->
  probePass n i startIdx iteration m = Ok ((None, iteration + Z.of_nat n), m).
Proof using All.
  induction n as [|n IH]; intros i iteration Hi Hin Hit Hit' Hall.
  - cbn [probePass mret M_ret].
    replace (iteration + Z.of_nat 0) with iteration by lia. reflexivity.
  - cbn [probePass]. rewrite bind_eq, load_eq. cbv zeta.
    rewrite probe_index by lia.
    destruct (Hall i ltac:(lia)) as (u & Hu & Hne).
    rewrite bind_eq, (casTableUsed_taken _ _ _ Hu Hne).
    rewrite (int64_small (iteration + 1)) by lia.
    rewrite IH; try lia.
    + replace (iteration + 1 + Z.of_nat n)
        with (iteration + Z.of_nat (S n)) by lia. reflexivity.
    + intros k Hk. apply Hall. lia.
Qed.

(** A pass that meets a free slot reserves the first one it meets. *)
Lemma probePass_reserves n : forall i iteration,
  0 <= i -> i + Z.of_nat n <= num ->
  0 <= iteration -> iteration + Z.of_nat n < 2 ^ 63 ->
  (forall k, i <= k < i + Z.of_nat n ->
     exists u, used m (probe startIdx num k) = Some u) ->
  (exists k, i <= k < i + Z.of_nat n
             /\ used m (probe startIdx num k) = Some 0) ->
  exists k iteration',
    i <= k < i + Z.of_nat n
    /\ used m (probe startIdx num k) = Some 0
    /\ probePass n i startIdx iteration m
       = Ok ((Some (probe startIdx num k), iteration'),
             upd_epoch (fun e => set_tableUsed
                          (upd_Z (tableUsed e) (probe startIdx num k) 1) e) m).
Proof using All.
  induction n as [|n IH]; intros i iteration Hi Hin Hit Hit' Hall Hfree.
  - destruct Hfree as (k & Hk & _). lia.
  - cbn [probePass]. rewrite bind_eq, load_eq. cbv zeta.
    rewrite probe_index by lia.
    destruct (Hall i ltac:(lia)) as (u & Hu).
    destruct (Z.eq_dec u 0) as [->|Hne].
    + exists i, iteration. split; [lia|]. split; [exact Hu|].
      rewrite bind_eq, (casTableUsed_free _ _ Hu). reflexivity.
    + rewrite bind_eq, (casTableUsed_taken _ _ _ Hu Hne).
      rewrite (int64_small (iteration + 1)) by lia.
      destruct (IH (i + 1) (iteration + 1)) as (k & it' & Hk & Hk0 & Heq);
        try lia.
      * intros k Hk. apply Hall. lia.
      * destruct Hfree as (k & Hk & Hk0). exists k. split; [|exact Hk0].
        destruct (Z.eq_dec k i) as [->|]; [congruence|lia].
      * exists k, it'. split; [lia|]. split; [exact Hk0|exact Heq].
Qed.

(** Every usable slot is probed in a pass. *)
Lemma probe_reaches j :
  1 <= j <= num ->
  exists k, 0 <= k < num /\ probe startIdx num k = j.
Proof using Hnum.
  intros Hj. exists ((j - 1 - startIdx) mod num).
  split; [apply Z.mod_pos_bound; lia|].
  rewrite Zplus_mod_idemp_r.
  replace (startIdx + (j - 1 - startIdx)) with (j - 1) by lia.
  rewrite Z.mod_small by lia. lia.
Qed.

Lemma probe_range k : 1 <= probe startIdx num k <= num.
Proof using Hnum.
  pose proof (Z.mod_pos_bound (startIdx + k) num ltac:(lia)). lia.
Qed.

(** While some usable slot is free, the first pass reserves a free slot:
    its flag goes from 0 to 1 and nothing else changes. *)
Lemma FindAndReserveEmptyEntry_reserves fuel :
  (forall j, 1 <= j <= num -> exists u, used m j = Some u) ->
  (exists j, 1 <= j <= num /\ used m j = Some 0) ->
  exists idx,
    1 <= idx <= num
    /\ used m idx = Some 0
    /\ FindAndReserveEmptyEntry (S fuel) startIdx m
       = Ok (idx, upd_epoch (fun e => set_tableUsed
                               (upd_Z (tableUsed e) idx 1) e) m).
Proof using All.
  intros Hflags (j & Hj & Hj0).
  destruct (probePass_reserves (Z.to_nat num) 0 0) as (k & it & Hk & Hk0 & Heq);
    try lia.
  - intros k Hk. apply Hflags, probe_range.
  - destruct (probe_reaches j Hj) as (k & Hk & Hkj).
    exists k. split; [lia|]. now rewrite Hkj.
  - exists (probe startIdx num k). split; [apply probe_range|].
    split; [exact Hk0|].
    unfold FindAndReserveEmptyEntry. cbn [findLoop].
    rewrite bind_eq, load_eq, bind_eq, Heq. reflexivity.
Qed.

(** One turn of the outer loop when every usable slot is in use. *)
Lemma findLoop_all_taken fuel iteration :
  (forall j, 1 <= j <= num -> exists u, used m j = Some u /\ u <> 0) ->
  0 <= iteration -> iteration + num < 2 ^ 63 ->
  findLoop (S fuel) startIdx iteration m
  = if u32 (3 * num) <? iteration + num then Panic
    else findLoop fuel startIdx (iteration + num) m.
Proof using All.
  intros Hfull Hit Hit'. cbn [findLoop].
  rewrite bind_eq, load_eq, bind_eq.
  rewrite probePass_all_taken; try lia.
  - rewrite Z2Nat.id by lia.
    now destruct (u32 (3 * num) <? iteration + num).
  - intros k Hk. apply Hfull, probe_range.
Qed.

(** When every usable slot stays in use, the call panics, at the end of
    the fourth pass at the latest. *)
Lemma FindAndReserveEmptyEntry_panics fuel :
  (forall j, 1 <= j <= num -> exists u, used m j = Some u /\ u <> 0) ->
  FindAndReserveEmptyEntry (4 + fuel) startIdx m = Panic.
Proof using All.
  intros Hfull. unfold FindAndReserveEmptyEntry.
  pose proof (u32_range (3 * num)) as Hr.
  assert (Hle : u32 (3 * num) <= 3 * num).
  { unfold u32. apply Z.mod_le; lia. }
  change (4 + fuel)%nat with (S (S (S (S fuel)))).
  rewrite findLoop_all_taken by (assumption || lia).
  destruct (Z.ltb_spec (u32 (3 * num)) (0 + num)); [reflexivity|].
  rewrite findLoop_all_taken by (assumption || lia).
  destruct (Z.ltb_spec (u32 (3 * num)) (0 + num + num)); [reflexivity|].
  rewrite findLoop_all_taken by (assumption || lia).
  destruct (Z.ltb_spec (u32 (3 * num)) (0 + num + num + num)); [reflexivity|].
  rewrite findLoop_all_taken by (assumption || lia).
  destruct (Z.ltb_spec (u32 (3 * num)) (0 + num + num + num + num));
    [reflexivity|lia].
Qed.

(** With [3 * entryNum] in the range of [uint32], the panic comes after
    exactly four passes, that is [4 * entryNum] probes. *)
Lemma FindAndReserveEmptyEntry_four_passes :
  3 * num < 2 ^ 32 ->
  (forall j, 1 <= j <= num -> exists u, used m j = Some u /\ u <> 0) ->
  FindAndReserveEmptyEntry 3 startIdx m = Spin.
Proof using All.
  intros H3 Hfull. unfold FindAndReserveEmptyEntry.
  assert (Hu : u32 (3 * num) = 3 * num) by (apply u32_small; lia).
  rewrite (findLoop_all_taken 2), Hu by (assumption || lia).
  destruct (Z.ltb_spec (3 * num) (0 + num)); [lia|].
  rewrite (findLoop_all_taken 1), Hu by (assumption || lia).
  destruct (Z.ltb_spec (3 * num) (0 + num + num)); [lia|].
  rewrite (findLoop_all_taken 0), Hu by (assumption || lia).
  destruct (Z.ltb_spec (3 * num) (0 + num + num + num)); [lia|].
  reflexivity.
Qed.

End Pass.

(** The flags after a reservation. *)
Lemma used_after_reserve m idx j u :
  used m idx = Some u ->
  used (upd_epoch (fun e => set_tableUsed (upd_Z (tableUsed e) idx 1) e) m) j
  = if decide (j = idx) then Some 1 else used m j.
Proof.
  intros Hu. unfold used. cbn [upd_epoch epoch set_tableUsed tableUsed].
  destruct (decide (j = idx)) as [->|Hne].
  - eapply nth_Z_upd_eq, Hu.
  - apply nth_Z_upd_ne. congruence.
Qed.

End Reserve.

(** C10.  On a table without usable slots ([NewLightEpoch(0)]), where no
    slot is free, [FindAndReserveEmptyEntry] neither returns nor panics:
    each turn of the outer loop makes no probe and finds
    [iteration > 3 * entryNum] false, for every value of [rand.Int()]
    and every number of turns. *)
Theorem FindAndReserveEmptyEntry_no_slots_spins :
  forall (fuel : nat) (startIdx : Z),
  exists m,
    PtrTable.NewLightEpoch 4100 0 = Ok m
    /\ PtrTable.entryNum (PtrTable.epoch m) = 0
    /\ PtrTable.FindAndReserveEmptyEntry fuel startIdx m = Spin.
Proof.
  intros fuel startIdx. eexists. split; [vm_compute; reflexivity|].
  split; [reflexivity|]. now apply findLoop_no_slots.
Qed.

(** ** The table of pointers: safe-to-reclaim queries and nested protection *)

Section PtrTableQueries.
Import PtrTable.

(** [IsSafeToReclaim] compares with [<=]. *)
Lemma PtrTable_IsSafeToReclaim_iff m expectedEpoch :
  exists b,
    IsSafeToReclaim expectedEpoch m = Ok (b, m)
    /\ (b = true <-> expectedEpoch <= atomicSafeToReclaimEpoch (epoch m)).
Proof.
  exists (expectedEpoch <=? atomicSafeToReclaimEpoch (epoch m)).
  split; [reflexivity|]. apply Z.leb_le.
Qed.

(** [ComputeNewSafeToReclaimEpoch] returns the value it has stored. *)
Lemma ComputeNewSafeToReclaimEpoch_returns_cached x m r m' :
  ComputeNewSafeToReclaimEpoch x m = Ok (r, m') ->
  r = atomicSafeToReclaimEpoch (epoch m').
Proof.
  unfold ComputeNewSafeToReclaimEpoch. intros H.
  apply bind_Ok_inv in H as (num & m1 & _ & H).
  apply bind_Ok_inv in H as (o & m2 & _ & H).
  apply bind_Ok_inv in H as (u & m3 & _ & H).
  now injection H as <- <-.
Qed.

(** [SpinWaitForSafeToReclaim] returns only with a computed safe epoch
    that has reached the target. *)
Lemma PtrTable_SpinWait_returns_only_when_reached fuel :
  forall currentEpoch targetEpoch m m',
  SpinWaitForSafeToReclaim fuel currentEpoch targetEpoch m = Ok (tt, m') ->
  targetEpoch <= atomicSafeToReclaimEpoch (epoch m')
  /\ exists m1,
       ComputeNewSafeToReclaimEpoch currentEpoch m1
       = Ok (atomicSafeToReclaimEpoch (epoch m'), m').
Proof.
  induction fuel as [|fuel IH]; intros cur target m m' H;
    cbn [SpinWaitForSafeToReclaim] in H; [discriminate|].
  apply bind_Ok_inv in H as (safe & m1 & Hc & H).
  destruct (Z.leb_spec target safe).
  - injection H as <-.
    pose proof (ComputeNewSafeToReclaimEpoch_returns_cached _ _ _ _ Hc) as <-.
    split; [assumption|]. now exists m.
  - eapply IH, H.
Qed.

(** It does return as soon as a scan reaches the target. *)
Lemma PtrTable_SpinWait_returns_when_reached fuel currentEpoch targetEpoch
  m safe m' :
  ComputeNewSafeToReclaimEpoch currentEpoch m = Ok (safe, m') ->
  targetEpoch <= safe ->
  SpinWaitForSafeToReclaim (S fuel) currentEpoch targetEpoch m = Ok (tt, m').
Proof.
  intros Hc Hle. cbn [SpinWaitForSafeToReclaim]. rewrite bind_eq, Hc.
  destruct (Z.leb_spec targetEpoch safe); [reflexivity|lia].
Qed.

Section Nesting.
Variables (m : machine) (i p : Z).
Hypothesis Hslot : nth_Z (table (epoch m)) i = Some p.
Hypothesis Hvalid : valid m p = true.

Lemma withEntry_table en :
  nth_Z (table (epoch (withEntry m p en))) i = Some p.
Proof using Hslot. exact Hslot. Qed.

Lemma withEntry_valid en : valid (withEntry m p en) p = true.
Proof using Hvalid. exact Hvalid. Qed.

Lemma withEntry_entryOf en : entryOf (withEntry m p en) p = en.
Proof. unfold entryOf, withEntry. cbn. now rewrite lookup_insert_eq. Qed.

Lemma withEntry_twice en en' :
  withEntry (withEntry m p en) p en' = withEntry m p en'.
Proof. unfold withEntry, set_cells. cbn. now rewrite insert_insert_eq. Qed.

Lemma withEntry_updEntry en g :
  updEntry p g (withEntry m p en) = Ok (tt, withEntry m p (g en)).
Proof using Hvalid.
  rewrite updEntry_eq by apply withEntry_valid.
  rewrite withEntry_entryOf. fold (withEntry (withEntry m p en) p (g en)).
  now rewrite withEntry_twice.
Qed.

Lemma withEntry_loadEntry en :
  loadEntry p (withEntry m p en) = Ok (en, withEntry m p en).
Proof using Hvalid.
  rewrite loadEntry_eq by apply withEntry_valid. now rewrite withEntry_entryOf.
Qed.

(** [ReentrantProtect] on a protected slot counts the call and keeps the
    epoch. *)
Lemma withEntry_ReentrantProtect l r ph :
  l <> Unprotected ->
  ReentrantProtect i (withEntry m p (mkEntry l r ph))
  = Ok (l, withEntry m p (mkEntry l (u32 (r + 1)) ph)).
Proof using All.
  intros Hl. unfold ReentrantProtect.
  rewrite bind_eq, (tableAt_eq _ _ _ (withEntry_table _)).
  rewrite bind_eq, withEntry_updEntry.
  rewrite bind_eq, withEntry_loadEntry.
  cbn [set_reentrant localCurrentEpoch reentrant atomicPhaseFinished].
  destruct (Z.eqb_spec Unprotected l); [congruence|]. reflexivity.
Qed.

(** On any slot it counts the call, and records the current epoch if the
    slot was unprotected. *)
Lemma ReentrantProtect_eq :
  ReentrantProtect i m
  = Ok (if Unprotected =? localCurrentEpoch (entryOf m p)
        then atomicCurrentEpoch (epoch m)
        else localCurrentEpoch (entryOf m p),
        withEntry m p
          (mkEntry (if Unprotected =? localCurrentEpoch (entryOf m p)
                    then atomicCurrentEpoch (epoch m)
                    else localCurrentEpoch (entryOf m p))
             (u32 (reentrant (entryOf m p) + 1))
             (atomicPhaseFinished (entryOf m p)))).
Proof using All.
  unfold ReentrantProtect.
  rewrite bind_eq, (tableAt_eq _ _ _ Hslot).
  rewrite bind_eq, (updEntry_eq _ _ _ Hvalid).
  fold (withEntry m p (set_reentrant (u32 (reentrant (entryOf m p) + 1))
                         (entryOf m p))).
  rewrite bind_eq, withEntry_loadEntry.
  cbn [set_reentrant localCurrentEpoch].
  destruct (Unprotected =? localCurrentEpoch (entryOf m p)); cbn [negb].
  - rewrite bind_eq. cbn [load gets].
    rewrite bind_eq, withEntry_updEntry.
    rewrite bind_eq, withEntry_loadEntry. reflexivity.
  - destruct (entryOf m p); reflexivity.
Qed.

Lemma withEntry_ReentrantUnprotect l r ph :
  ReentrantUnprotect i (withEntry m p (mkEntry l r ph))
  = Ok (tt, withEntry m p
              (mkEntry (if u32 (r - 1) =? 0 then Unprotected else l)
                 (u32 (r - 1)) ph)).
Proof using All.
  unfold ReentrantUnprotect.
  rewrite bind_eq, (tableAt_eq _ _ _ (withEntry_table _)).
  rewrite bind_eq, withEntry_updEntry.
  rewrite bind_eq, withEntry_loadEntry.
  cbn [set_reentrant localCurrentEpoch reentrant atomicPhaseFinished].
  destruct (u32 (r - 1) =? 0); [|reflexivity].
  now rewrite withEntry_updEntry.
Qed.

Lemma withEntry_IsProtected en :
  IsProtected i (withEntry m p en)
  = Ok (negb (localCurrentEpoch en =? Unprotected), withEntry m p en).
Proof using All.
  unfold IsProtected.
  rewrite bind_eq, (tableAt_eq _ _ _ (withEntry_table _)).
  rewrite bind_eq, withEntry_loadEntry. reflexivity.
Qed.

Lemma repeat_ReentrantProtect k : forall l r ph,
  l <> Unprotected -> 0 <= r -> r + Z.of_nat k < 2 ^ 32 ->
  repeatM k (ReentrantProtect i) (withEntry m p (mkEntry l r ph))
  = Ok (tt, withEntry m p (mkEntry l (r + Z.of_nat k) ph)).
Proof using All.
  induction k as [|k IH]; intros l r ph Hl Hr Hk.
  - cbn [repeatM mret M_ret]. now rewrite Z.add_0_r.
  - rewrite repeatM_S, withEntry_ReentrantProtect by assumption.
    rewrite u32_small by lia. rewrite IH by lia.
    now replace (r + 1 + Z.of_nat k) with (r + Z.of_nat (S k)) by lia.
Qed.

Lemma repeat_ReentrantUnprotect j : forall l r ph,
  Z.of_nat j < r < 2 ^ 32 ->
  repeatM j (ReentrantUnprotect i) (withEntry m p (mkEntry l r ph))
  = Ok (tt, withEntry m p (mkEntry l (r - Z.of_nat j) ph)).
Proof using All.
  induction j as [|j IH]; intros l r ph Hr.
  - cbn [repeatM mret M_ret]. now rewrite Z.sub_0_r.
  - rewrite repeatM_S, withEntry_ReentrantUnprotect.
    rewrite u32_small by lia.
    destruct (Z.eqb_spec (r - 1) 0); [lia|]. rewrite IH by lia.
    now replace (r - 1 - Z.of_nat j) with (r - Z.of_nat (S j)) by lia.
Qed.

Lemma repeatM_add {A} (c : M machine A) a : forall b s,
  repeatM (a + b) c s
  = match repeatM a c s with
    | Ok (_, s') => repeatM b c s'
    | Panic => Panic
    | Spin => Spin
    end.
Proof.
  induction a as [|a IHa]; intros b s; [reflexivity|].
  cbn [Nat.add]. rewrite !repeatM_S.
  destruct (c s) as [[u s']| |]; auto.
Qed.

(** Nested protection on a slot whose count is 0: after [k] calls of [ReentrantProtect] the slot stays protected across
    the first [k - 1] calls of [ReentrantUnprotect], and the [k]-th one
    clears it. *)
Lemma PtrTable_Reentrant_nesting k :
  reentrant (entryOf m p) = 0 ->
  atomicCurrentEpoch (epoch m) <> 0 ->
  (0 < k)%nat -> Z.of_nat k < 2 ^ 32 ->
  exists mk,
    exec (repeatM k (ReentrantProtect i)) m = Ok mk
    /\ (forall j, (j < k)%nat ->
          exists mj,
            exec (repeatM j (ReentrantUnprotect i)) mk = Ok mj
            /\ IsProtected i mj = Ok (true, mj))
    /\ exists m',
         exec (repeatM k (ReentrantUnprotect i)) mk = Ok m'
         /\ IsProtected i m' = Ok (false, m').
Proof using All.
  intros Hr Hcur Hk Hk'. destruct k as [|k]; [lia|].
  set (cur := if Unprotected =? localCurrentEpoch (entryOf m p)
              then atomicCurrentEpoch (epoch m)
              else localCurrentEpoch (entryOf m p)).
  assert (Hcur' : cur <> Unprotected).
  { unfold cur, Unprotected in *.
    destruct (Z.eqb_spec 0 (localCurrentEpoch (entryOf m p))); congruence. }
  set (ph := atomicPhaseFinished (entryOf m p)).
  exists (withEntry m p (mkEntry cur (Z.of_nat (S k)) ph)).
  split.
  { eapply exec_Ok.
    rewrite repeatM_S, ReentrantProtect_eq.
    rewrite Hr. change (u32 (0 + 1)) with 1. fold cur ph.
    rewrite (repeat_ReentrantProtect k cur 1 ph Hcur') by lia.
    now replace (1 + Z.of_nat k) with (Z.of_nat (S k)) by lia. }
  split.
  - intros j Hj. eexists. split.
    + eapply exec_Ok. apply repeat_ReentrantUnprotect. lia.
    + rewrite withEntry_IsProtected. cbn [localCurrentEpoch].
      destruct (Z.eqb_spec cur Unprotected); [contradiction|reflexivity].
  - eexists. split.
    + eapply exec_Ok.
      replace (S k) with (k + 1)%nat at 1 by lia.
      rewrite repeatM_add, repeat_ReentrantUnprotect by lia.
      rewrite repeatM_S, withEntry_ReentrantUnprotect.
      replace (Z.of_nat (S k) - Z.of_nat k) with 1 by lia.
      change (u32 (1 - 1)) with 0. cbn [Z.eqb mret M_ret repeatM].
      reflexivity.
    + rewrite withEntry_IsProtected. reflexivity.
Qed.

End Nesting.

End PtrTableQueries.

(** ** The table of entries: nested protection, waiting and the phase barrier *)

Section ValTablePhases.
Import ValTable.

Lemma ValTable_entryAt_inv i e en e' :
  entryAt i e = Ok (en, e') -> e' = e /\ slot e i = Some en.
Proof.
  unfold entryAt, slot. destruct (nth_Z (table e) i); [|discriminate].
  intros [= <- <-]. auto.
Qed.

Lemma ValTable_checkPhases_spec n : forall i phase e b e',
  checkPhases n i phase e = Ok (b, e') ->
  e' = e
  /\ (b = true <->
      forall k en, i <= k < i + Z.of_nat n -> slot e k = Some en ->
        localCurrentEpoch en <> 0 -> atomicPhaseFinished en = phase).
Proof.
  induction n as [|n IH]; intros i phase e b e' H; cbn [checkPhases] in H.
  - injection H as <- <-. split; [reflexivity|].
    split; [intros _ k en Hk; lia|reflexivity].
  - apply bind_Ok_inv in H as (en & e1 & H1 & H).
    apply ValTable_entryAt_inv in H1 as [-> Hen]. cbv zeta in H.
    destruct (Z.eqb_spec (localCurrentEpoch en) 0) as [E0|E0];
      destruct (Z.eqb_spec (atomicPhaseFinished en) phase) as [Ep|Ep];
      cbn [negb andb] in H.
    1,2,3: apply IH in H as [-> Hb]; split; [reflexivity|];
      rewrite Hb; split;
      [ intros Hall k en' Hk Hs Hl;
        destruct (Z.eq_dec k i) as [->|];
        [ rewrite Hen in Hs; injection Hs as <-; congruence
        | apply (Hall k en'); [lia|assumption|assumption] ]
      | intros Hall k en' Hk; apply Hall; lia ].
    injection H as <- <-. split; [reflexivity|].
    split; [discriminate|]. intros Hall.
    exfalso. apply Ep. apply (Hall i en); [lia|assumption|assumption].
Qed.

(** [FinishThreadPhase] answers for the slots [1] to [entryNum - 1]: the
    slot [entryNum] is not looked at. *)
Lemma ValTable_FinishThreadPhase_spec entryIdx phase e b e' :
  FinishThreadPhase entryIdx phase e = Ok (b, e') ->
  (b = true <->
   forall k en, 1 <= k < entryNum e' -> slot e' k = Some en ->
     localCurrentEpoch en <> 0 -> atomicPhaseFinished en = phase).
Proof.
  unfold FinishThreadPhase. intros H.
  apply bind_Ok_inv in H as (u & e1 & H1 & H).
  apply bind_Ok_inv in H as (n & e2 & H2 & H). injection H2 as <- <-.
  apply ValTable_checkPhases_spec in H as [-> Hb]. rewrite Hb.
  split; intros Hall k en Hk; apply Hall; lia.
Qed.

(** [ReentrantProtect] on a protected slot returns at once: the nesting
    count is not touched. *)
Lemma ValTable_ReentrantProtect_protected e i en :
  slot e i = Some en -> localCurrentEpoch en <> Unprotected ->
  ReentrantProtect i e = Ok (localCurrentEpoch en, e).
Proof.
  intros Hs Hl. unfold ReentrantProtect, entryAt. rewrite bind_eq.
  unfold slot in Hs. rewrite Hs.
  destruct (Z.eqb_spec Unprotected (localCurrentEpoch en));
    [congruence|reflexivity].
Qed.

(** [SpinWaitForSafeToReclaim] returns after a scan exactly when the
    safe epoch it stored is below the target. *)
Lemma ValTable_SpinWait_turn fuel currentEpoch targetEpoch e safe e' :
  ComputeNewSafeToReclaimEpoch currentEpoch e = Ok (safe, e') ->
  SpinWaitForSafeToReclaim (S fuel) currentEpoch targetEpoch e
  = if atomicSafeToReclaimEpoch e' <? targetEpoch then Ok (tt, e')
    else SpinWaitForSafeToReclaim fuel currentEpoch targetEpoch e'.
Proof.
  intros Hc. cbn [SpinWaitForSafeToReclaim]. rewrite bind_eq, Hc.
  rewrite bind_eq. cbn [gets].
  now destruct (atomicSafeToReclaimEpoch e' <? targetEpoch).
Qed.

End ValTablePhases.

Section PtrTablePhases.
Import PtrTable.

Lemma PtrTable_checkPhases_spec n : forall i phase m b m',
  checkPhases n i phase m = Ok (b, m') ->
  m' = m
  /\ (b = true <->
      forall k en, i <= k < i + Z.of_nat n -> slot m k = Some en ->
        localCurrentEpoch en <> 0 -> atomicPhaseFinished en = phase).
Proof.
  induction n as [|n IH]; intros i phase m b m' H; cbn [checkPhases] in H.
  - injection H as <- <-. split; [reflexivity|].
    split; [intros _ k en Hk; lia|reflexivity].
  - apply bind_Ok_inv in H as (q & m1 & H1 & H).
    apply tableAt_inv in H1 as [-> Hq].
    apply bind_Ok_inv in H as (en & m1 & H1 & H).
    apply loadEntry_inv in H1 as (-> & -> & Hv). cbv zeta in H.
    assert (Hen : slot m i = Some (entryOf m q)).
    { unfold slot. now rewrite Hq, Hv. }
    destruct (Z.eqb_spec (localCurrentEpoch (entryOf m q)) 0) as [E0|E0];
      destruct (Z.eqb_spec (atomicPhaseFinished (entryOf m q)) phase)
        as [Ep|Ep];
      cbn [negb andb] in H.
    1,2,3: apply IH in H as [-> Hb]; split; [reflexivity|];
      rewrite Hb; split;
      [ intros Hall k en' Hk Hs Hl;
        destruct (Z.eq_dec k i) as [->|];
        [ rewrite Hen in Hs; injection Hs as <-; congruence
        | apply (Hall k en'); [lia|assumption|assumption] ]
      | intros Hall k en' Hk; apply Hall; lia ].
    injection H as <- <-. split; [reflexivity|].
    split; [discriminate|]. intros Hall.
    exfalso. apply Ep. apply (Hall i _); [lia|assumption|assumption].
Qed.

(** [MarkAndCheckIfFinished] has the same scan: it answers for the slots
    [1] to [entryNum - 1]. *)
Lemma PtrTable_MarkAndCheckIfFinished_spec entryIdx phase m b m' :
  MarkAndCheckIfFinished entryIdx phase m = Ok (b, m') ->
  (b = true <->
   forall k en, 1 <= k < entryNum (epoch m') -> slot m' k = Some en ->
     localCurrentEpoch en <> 0 -> atomicPhaseFinished en = phase).
Proof.
  unfold MarkAndCheckIfFinished. intros H.
  apply bind_Ok_inv in H as (q & m1 & H1 & H).
  apply bind_Ok_inv in H as (u & m2 & H2 & H).
  apply bind_Ok_inv in H as (n & m3 & H3 & H). injection H3 as <- <-.
  apply PtrTable_checkPhases_spec in H as [-> Hb]. rewrite Hb.
  split; intros Hall k en Hk; apply Hall; lia.
Qed.

Lemma aliased_checkPhases p buf size cur safe en dc dl f phase n :
  within buf p 64 -> atomicPhaseFinished en = phase ->
  forall i, 0 <= i -> i + Z.of_nat n <= size + 2 ->
  checkPhases n i phase (aliased p buf size cur safe en dc dl f)
  = Ok (true, aliased p buf size cur safe en dc dl f).
Proof.
  intros Hbuf Hph. induction n as [|n IH]; intros i Hi Hn; [reflexivity|].
  cbn [checkPhases].
  rewrite bind_eq, (tableAt_eq _ _ p) by (apply aliased_table; [assumption|lia]).
  rewrite bind_eq, (aliased_loadEntry p buf size Hbuf). cbv zeta.
  rewrite Hph, Z.eqb_refl. cbn [negb]. rewrite andb_false_r.
  apply IH; lia.
Qed.

(** On the machine built by [NewLightEpoch] every slot reads the marker
    just written, so the answer is always true. *)
Lemma aliased_MarkAndCheckIfFinished p buf size cur safe en dc dl f i phase :
  within buf p 64 -> 0 <= i < size + 2 ->
  MarkAndCheckIfFinished i phase (aliased p buf size cur safe en dc dl f)
  = Ok (true,
        aliased p buf size cur safe (set_atomicPhaseFinished phase en) dc dl f)
  /\ all_protected_finished
       (aliased p buf size cur safe (set_atomicPhaseFinished phase en) dc dl f)
       phase.
Proof.
  intros Hbuf Hi. split.
  - unfold MarkAndCheckIfFinished.
    rewrite bind_eq, (tableAt_eq _ _ p) by (apply aliased_table; [assumption|lia]).
    rewrite bind_eq, (aliased_updEntry p buf size Hbuf).
    rewrite bind_eq, load_eq.
    apply aliased_checkPhases; [assumption|reflexivity|lia|].
    cbn [aliased epoch entryNum]. lia.
  - intros k en' Hk Hs _.
    apply (aliased_slot_inv p buf size Hbuf) in Hs as ->. reflexivity.
Qed.

End PtrTablePhases.

(** ** The order of the epochs when actions are pending *)

Section Ordered.
Import PtrTable.

Lemma slot_core m m' i : core m = core m' -> slot m i = slot m' i.
Proof.
  unfold core, slot, valid, entryOf. intros H.
  injection H as _ _ -> _ -> ->. reflexivity.
Qed.

Lemma epochs_ordered_core m m' :
  core m = core m' -> epochs_ordered m -> epochs_ordered m'.
Proof.
  intros H (Hs & Hc & Hb).
  pose proof (fun i => slot_core m m' i H) as Hslot.
  unfold core in H. injection H as Hcur Hsafe Htab Hnum Hbuf Hcells.
  unfold epochs_ordered, safe_below_protected.
  rewrite <- Hcur, <- Hsafe, <- Hcells, <- Hnum.
  split; [exact Hs|]. split; [exact Hc|].
  intros i en Hi Hsl. apply (Hb i en Hi). now rewrite Hslot.
Qed.

(** The scan of the drain list leaves the epochs alone. *)
Section CoreKept.
Variable c : Z * Z * list Z * Z * option bytes * gmap Z epochEntry.
Local Abbreviation K := (fun m => core m = c).

Lemma core_actionAt i : preserves K (actionAt i).
Proof. intros m a m' HK H. now apply actionAt_inv in H as [-> _]. Qed.

Lemma core_updAction i g : preserves K (updAction i g).
Proof.
  intros m u m' HK H. apply updAction_inv in H as (a & _ & ->). exact HK.
Qed.

Lemma core_call callback ctx : preserves K (call callback ctx).
Proof.
  destruct callback as [f|]; [|apply preserves_panic].
  apply preserves_modify. intros m HK. exact HK.
Qed.

Lemma core_addDrainCount delta : preserves K (addDrainCount delta).
Proof.
  unfold addDrainCount. apply preserves_bind; [|intros _; apply preserves_gets].
  apply preserves_modify. intros m HK. exact HK.
Qed.

Lemma core_casActionEpoch i old new : preserves K (casActionEpoch i old new).
Proof.
  unfold casActionEpoch. apply preserves_bind; [apply core_actionAt|intros a].
  destruct (atomicEpoch a =? old); [|apply preserves_ret].
  apply preserves_bind; [apply core_updAction|intros _; apply preserves_ret].
Qed.

Lemma core_tryPop i expectedEpoch : preserves K (tryPop i expectedEpoch).
Proof.
  unfold tryPop. apply preserves_bind; [apply core_casActionEpoch|].
  intros [|]; [|apply preserves_ret].
  apply preserves_bind; [apply core_actionAt|intros a]. cbv zeta.
  repeat (apply preserves_bind; [apply core_updAction|intros _]).
  apply preserves_bind; [apply core_call|intros _; apply preserves_ret].
Qed.

Lemma core_drainLoop n : forall i, preserves K (drainLoop n i).
Proof.
  induction n as [|n IH]; intros i; cbn [drainLoop]; [apply preserves_ret|].
  apply preserves_bind; [apply core_actionAt|intros a]. cbv zeta.
  apply preserves_bind; [apply preserves_gets|intros safe].
  destruct (atomicEpoch a <=? safe); [|apply IH].
  apply preserves_bind; [apply core_tryPop|intros [|]]; [|apply IH].
  apply preserves_bind; [apply core_addDrainCount|intros count].
  destruct (count =? 0); [apply preserves_ret|apply IH].
Qed.

End CoreKept.

(** What the scan of the table returns: a value at most the start value
    and at most the epoch of every protected slot it has read, and equal
    to one of them. *)
Lemma scanTable_spec n : forall i o m r m',
  scanTable n i o m = Ok (r, m') ->
  m' = m
  /\ r <= o
  /\ (forall k en, i <= k < i + Z.of_nat n -> slot m k = Some en ->
        localCurrentEpoch en <> Unprotected -> r <= localCurrentEpoch en)
  /\ (r = o \/
      exists k en, i <= k < i + Z.of_nat n /\ slot m k = Some en
                   /\ localCurrentEpoch en <> Unprotected
                   /\ r = localCurrentEpoch en).
Proof.
  induction n as [|n IH]; intros i o m r m' H; cbn [scanTable] in H.
  - injection H as <- <-. split; [reflexivity|]. split; [lia|].
    split; [intros k en Hk; lia|now left].
  - apply bind_Ok_inv in H as (q & m1 & H1 & H).
    apply tableAt_inv in H1 as [-> Hq].
    apply bind_Ok_inv in H as (en & m1 & H1 & H).
    apply loadEntry_inv in H1 as (-> & -> & Hv). cbv zeta in H.
    assert (Hen : slot m i = Some (entryOf m q)).
    { unfold slot. now rewrite Hq, Hv. }
    apply IH in H as (-> & Hle & Hall & Hex). split; [reflexivity|].
    set (l := localCurrentEpoch (entryOf m q)) in *.
    destruct (Z.eqb_spec l Unprotected) as [E0|E0];
      destruct (Z.ltb_spec l o) as [El|El]; cbn [negb andb] in *.
    + split; [lia|]. split.
      * intros k en Hk Hs Hp. destruct (Z.eq_dec k i) as [->|].
        -- rewrite Hen in Hs. injection Hs as <-. contradiction.
        -- apply (Hall k en); [lia|assumption|assumption].
      * destruct Hex as [->|(k & en & Hk & Hs & Hp & ->)]; [now left|].
        right. exists k, en. repeat split; try assumption; lia.
    + split; [lia|]. split.
      * intros k en Hk Hs Hp. destruct (Z.eq_dec k i) as [->|].
        -- rewrite Hen in Hs. injection Hs as <-. contradiction.
        -- apply (Hall k en); [lia|assumption|assumption].
      * destruct Hex as [->|(k & en & Hk & Hs & Hp & ->)]; [now left|].
        right. exists k, en. repeat split; try assumption; lia.
    + split; [lia|]. split.
      * intros k en Hk Hs Hp. destruct (Z.eq_dec k i) as [->|].
        -- rewrite Hen in Hs. injection Hs as <-. fold l. lia.
        -- apply (Hall k en); [lia|assumption|assumption].
      * right. destruct Hex as [->|(k & en & Hk & Hs & Hp & ->)].
        -- exists i, (entryOf m q). repeat split; try assumption; lia.
        -- exists k, en. repeat split; try assumption; lia.
    + split; [lia|]. split.
      * intros k en Hk Hs Hp. destruct (Z.eq_dec k i) as [->|].
        -- rewrite Hen in Hs. injection Hs as <-. fold l. lia.
        -- apply (Hall k en); [lia|assumption|assumption].
      * destruct Hex as [->|(k & en & Hk & Hs & Hp & ->)]; [now left|].
        right. exists k, en. repeat split; try assumption; lia.
Qed.

Lemma slot_withEntry m q en i en' :
  slot (withEntry m q en) i = Some en' ->
  en' = en \/ slot m i = Some en'.
Proof.
  unfold slot. change (epoch (withEntry m q en)) with (epoch m).
  destruct (nth_Z (table (epoch m)) i) as [pi|]; [|discriminate].
  change (valid (withEntry m q en) pi) with (valid m pi).
  destruct (valid m pi); [|discriminate]. intros [= <-].
  destruct (decide (q = pi)) as [->|Hne].
  - left. apply withEntry_entryOf.
  - right. unfold entryOf, withEntry. cbn [cells set_cells].
    now rewrite lookup_insert_ne by assumption.
Qed.

Lemma ordered_withEntry m q en :
  epochs_ordered m -> 0 <= localCurrentEpoch en ->
  (localCurrentEpoch en <> Unprotected ->
   atomicSafeToReclaimEpoch (epoch m) <= localCurrentEpoch en - 1) ->
  epochs_ordered (withEntry m q en).
Proof.
  intros (Hs & Hc & Hb) Hen Hsafe. split; [exact Hs|]. split.
  - cbn [withEntry cells set_cells]. intros q' en' H.
    destruct (decide (q = q')) as [->|Hne].
    + rewrite lookup_insert_eq in H. congruence.
    + rewrite lookup_insert_ne in H by assumption. eauto.
  - intros i en' Hi Hsl Hp.
    apply slot_withEntry in Hsl as [->|Hsl]; [now apply Hsafe|].
    now apply (Hb i en').
Qed.

Lemma Protect_inv i m r m' :
  Protect i m = Ok (r, m') ->
  exists q, m' = withEntry m q
                   (set_localCurrentEpoch (atomicCurrentEpoch (epoch m))
                      (entryOf m q)).
Proof.
  unfold Protect. intros H.
  apply bind_Ok_inv in H as (q & m1 & H1 & H).
  apply tableAt_inv in H1 as [-> _].
  apply bind_Ok_inv in H as (cur & m1 & H1 & H). injection H1 as <- <-.
  apply bind_Ok_inv in H as (u & m1 & H1 & H).
  apply updEntry_inv in H1 as ->.
  apply bind_Ok_inv in H as (en & m2 & H2 & H).
  apply loadEntry_inv in H2 as (-> & _ & _). injection H as _ <-.
  now exists q.
Qed.

Lemma Unprotect_inv i m u m' :
  Unprotect i m = Ok (u, m') ->
  exists q, m' = withEntry m q
                   (set_localCurrentEpoch Unprotected (entryOf m q)).
Proof.
  unfold Unprotect. intros H.
  apply bind_Ok_inv in H as (q & m1 & H1 & H).
  apply tableAt_inv in H1 as [-> _].
  apply updEntry_inv in H as ->. now exists q.
Qed.

(** [Drain] with an epoch above the cached safe epoch keeps the order and
    does not lower the safe epoch. *)
Lemma ordered_Drain x m m' :
  epochs_ordered m ->
  atomicSafeToReclaimEpoch (epoch m) < x <= atomicCurrentEpoch (epoch m) ->
  atomicCurrentEpoch (epoch m) < 2 ^ 64 ->
  Drain x m = Ok (tt, m') ->
  epochs_ordered m'
  /\ atomicSafeToReclaimEpoch (epoch m) <= atomicSafeToReclaimEpoch (epoch m')
  /\ atomicCurrentEpoch (epoch m') = atomicCurrentEpoch (epoch m).
Proof.
  intros Hord Hx Hcur H. pose proof Hord as (Hs & Hc & Hb).
  unfold Drain in H.
  apply bind_Ok_inv in H as (r & m2 & H1 & H).
  unfold ComputeNewSafeToReclaimEpoch in H1.
  apply bind_Ok_inv in H1 as (num & m0 & H0 & H1). injection H0 as <- <-.
  apply bind_Ok_inv in H1 as (o & m0 & H0 & H1).
  apply scanTable_spec in H0 as (-> & Hle & Hall & Hex).
  apply bind_Ok_inv in H1 as (u & m0 & H0 & H1).
  injection H0 as _ <-. injection H1 as _ <-.
  assert (Hlow : atomicSafeToReclaimEpoch (epoch m) < o).
  { destruct Hex as [->|(k & en & Hk & Hsl & Hp & ->)]; [lia|].
    specialize (Hb k en ltac:(lia) Hsl Hp). lia. }
  assert (Hu : u64 (o - 1) = o - 1) by (apply u64_small; lia).
  set (m2 := upd_epoch (set_atomicSafeToReclaimEpoch (u64 (o - 1))) m) in *.
  assert (H2 : epochs_ordered m2
               /\ atomicSafeToReclaimEpoch (epoch m)
                  <= atomicSafeToReclaimEpoch (epoch m2)
               /\ atomicCurrentEpoch (epoch m2) = atomicCurrentEpoch (epoch m)).
  { unfold m2. destruct m as [[c s t tu n dc dl] b cl f].
    unfold epochs_ordered, safe_below_protected in *. cbn in *.
    rewrite Hu. split; [|split; [lia|reflexivity]].
    split; [lia|]. split; [exact Hc|].
    intros i en Hi Hsl Hp.
    specialize (Hall i en ltac:(lia) Hsl Hp). lia. }
  pose proof (core_drainLoop (core m2) _ _ _ _ _ eq_refl H) as Hcore.
  destruct H2 as (H2 & H3 & H4).
  split; [eapply epochs_ordered_core; [symmetry; exact Hcore|exact H2]|].
  unfold core in Hcore. injection Hcore as -> -> _ _ _ _.
  split; assumption.
Qed.

(** One call of [Protect], [Unprotect] or [BumpCurrentEpoch]. *)
Lemma ordered_perform c m m' :
  basic_operation c -> epochs_ordered m ->
  atomicCurrentEpoch (epoch m) + 1 < 2 ^ 64 ->
  exec (perform c) m = Ok m' ->
  epochs_ordered m'
  /\ atomicSafeToReclaimEpoch (epoch m) <= atomicSafeToReclaimEpoch (epoch m')
  /\ atomicCurrentEpoch (epoch m') <= atomicCurrentEpoch (epoch m) + 1.
Proof.
  intros Hc Hord Hcur H. pose proof Hord as (Hs & Hcells & Hb).
  apply exec_Ok_inv in H as [u H].
  destruct c; try contradiction; cbn [perform] in H.
  - apply bind_Ok_inv in H as (r & m1 & H1 & H). injection H as _ <-.
    apply Protect_inv in H1 as (q & ->).
    split; [|cbn; lia].
    apply ordered_withEntry; [assumption|cbn; lia|cbn; lia].
  - apply Unprotect_inv in H as (q & ->).
    split; [|cbn; lia].
    apply ordered_withEntry; [assumption|cbn; unfold Unprotected; lia|].
    cbn. congruence.
  - apply bind_Ok_inv in H as (r & m1 & H1 & H). injection H as _ <-.
    unfold BumpCurrentEpoch in H1.
    apply bind_Ok_inv in H1 as (u1 & m2 & H2 & H1). injection H2 as _ <-.
    apply bind_Ok_inv in H1 as (nx & m3 & H3 & H1). injection H3 as <- <-.
    apply bind_Ok_inv in H1 as (dc & m3 & H3 & H1). injection H3 as <- <-.
    apply bind_Ok_inv in H1 as (u2 & m3 & H3 & H1). injection H1 as _ <-.
    set (m2 := upd_epoch _ m) in *.
    assert (Hu : u64 (atomicCurrentEpoch (epoch m) + 1)
                 = atomicCurrentEpoch (epoch m) + 1)
      by (apply u64_small; lia).
    assert (H2 : epochs_ordered m2
                 /\ atomicSafeToReclaimEpoch (epoch m2)
                    = atomicSafeToReclaimEpoch (epoch m)
                 /\ atomicCurrentEpoch (epoch m2)
                    = atomicCurrentEpoch (epoch m) + 1).
    { unfold m2. destruct m as [[c s t tu n dc0 dl] b cl f].
      unfold epochs_ordered, safe_below_protected in *. cbn in *.
      rewrite Hu. split; [|split; reflexivity].
      split; [lia|]. split; assumption. }
    destruct H2 as (H2 & H2s & H2c).
    match type of H3 with
    | context [if ?b then _ else _] => destruct b
    end.
    + destruct u2. rewrite Hu in H3.
      apply ordered_Drain in H3 as (H4 & H5 & H6); [|assumption|lia|lia].
      split; [assumption|]. lia.
    + injection H3 as _ <-. split; [assumption|]. lia.
Qed.

(** Along calls of [Protect], [Unprotect] and [BumpCurrentEpoch], also
    with actions pending so that every bump drains, the safe epoch never
    decreases and stays below the epoch of every protected usable slot,
    as long as the epoch counter does not wrap. *)
Lemma ordered_history cs : forall m,
  Forall basic_operation cs -> epochs_ordered m ->
  atomicCurrentEpoch (epoch m) + Z.of_nat (length cs) < 2 ^ 64 ->
  Forall epochs_ordered (history cs m)
  /\ forall k a b,
       (m :: history cs m) !! k = Some a ->
       (m :: history cs m) !! S k = Some b ->
       atomicSafeToReclaimEpoch (epoch a) <= atomicSafeToReclaimEpoch (epoch b).
Proof.
  induction cs as [|c cs IH]; intros m Hcs Hord Hlen.
  - split; [constructor|]. intros k a b _ Hb.
    cbn [history] in Hb. change ([m] !! S k) with (@nil machine !! k) in Hb.
    now rewrite lookup_nil in Hb.
  - apply Forall_cons in Hcs as [Hc Hcs]. cbn [length] in Hlen.
    cbn [history].
    destruct (exec (perform c) m) as [m'| |] eqn:E.
    + destruct (ordered_perform c m m' Hc Hord ltac:(lia) E)
        as (Hord' & Hsafe & Hcur).
      destruct (IH m' Hcs Hord' ltac:(lia)) as (Hall & Hmono).
      split; [now constructor|].
      intros [|k] a b Ha Hb.
      * injection Ha as <-. injection Hb as <-. exact Hsafe.
      * exact (Hmono k a b Ha Hb).
    + split; [constructor|]. intros k a b _ Hb.
      change ([m] !! S k) with (@nil machine !! k) in Hb.
      now rewrite lookup_nil in Hb.
    + split; [constructor|]. intros k a b _ Hb.
      change ([m] !! S k) with (@nil machine !! k) in Hb.
      now rewrite lookup_nil in Hb.
Qed.

(** The state of the reclamation scenario in which the action waits is
    one such state with a pending action. *)
Lemma waiting_epochs_ordered p buf size cb cx :
  within buf p 64 ->
  epochs_ordered
    (aliased p buf size 6 0 (mkEntry 5 0 RestPhase) 1
       (mkAction 5 (Some cb) cx :: replicate 255 freeAction) []).
Proof.
  intros Hbuf. split; [cbn; lia|]. split.
  - cbn [aliased cells]. intros q en H.
    apply lookup_singleton_Some in H as [_ <-]. cbn. lia.
  - intros i en Hi Hsl Hp.
    apply (aliased_slot_inv p buf size Hbuf) in Hsl as ->. cbn. lia.
Qed.

(** The object that [NewLightEpoch] returns is in such a state. *)
Lemma NewLightEpoch_epochs_ordered addr size m0 :
  0 <= size < 2 ^ 26 - 2 -> 0 <= addr ->
  addr + ((size + 2) * 64 + 63) <= 2 ^ 64 ->
  NewLightEpoch addr size = Ok m0 -> epochs_ordered m0.
Proof.
  intros Hsize Haddr Hend Hnew.
  destruct (NewLightEpoch_eq addr size Hsize Haddr Hend)
    as (p & buf & Hm & Hbuf).
  rewrite Hm in Hnew. injection Hnew as <-.
  split; [cbn; lia|]. split.
  - cbn [aliased cells]. intros q en H.
    apply lookup_singleton_Some in H as [_ <-]. cbn. lia.
  - intros i en Hi Hsl Hp.
    apply (aliased_slot_inv p buf size Hbuf) in Hsl as ->.
    cbn in Hp. unfold Unprotected in Hp. lia.
Qed.

End Ordered.

(** C1.  Along every sequence of [Protect], [Unprotect] and
    [BumpCurrentEpoch] calls (the calls of all threads in the order they
    take effect, with any slot indices) on a [LightEpoch] whose epochs
    are in order, as they are on the object that [NewLightEpoch] returns
    and remain with actions registered, and as long as the epoch counter
    does not wrap: [safeToReclaimEpoch] never decreases from one state to
    the next, and in every state it is at most [localCurrentEpoch - 1]
    for every usable slot [1..entryNum] that is protected, that is, at
    most the minimum of these epochs minus one.  This holds with actions
    pending, when every bump drains and the scan of
    [ComputeNewSafeToReclaimEpoch] stores a new safe epoch. *)
Theorem safeToReclaimEpoch_monotone_and_bounded
  (m0 : PtrTable.machine) (cs : list PtrTable.operation) :
  PtrTable.epochs_ordered m0 ->
  Forall PtrTable.basic_operation cs ->
  PtrTable.atomicCurrentEpoch (PtrTable.epoch m0) + Z.of_nat (length cs)
  < 2 ^ 64 ->
  (forall k m m',
      (m0 :: PtrTable.history cs m0) !! k = Some m ->
      (m0 :: PtrTable.history cs m0) !! S k = Some m' ->
      PtrTable.atomicSafeToReclaimEpoch (PtrTable.epoch m)
      <= PtrTable.atomicSafeToReclaimEpoch (PtrTable.epoch m'))
  /\ Forall PtrTable.safe_below_protected (m0 :: PtrTable.history cs m0).
Proof.
  intros Hord Hcs Hlen.
  destruct (ordered_history cs m0 Hcs Hord Hlen) as (Hall & Hmono).
  split; [exact Hmono|].
  constructor; [apply Hord|].
  eapply Forall_impl; [exact Hall|]. intros m H. apply H.
Qed.

Lemma safeToReclaimEpoch_monotone_and_bounded_witness :
  let m0 := PtrTable.aliased 4224 (mkBytes 4100 383) 3 6 0
              (mkEntry 5 0 RestPhase) 1
              (mkAction 5 (Some 7%nat) None
               :: replicate 255 PtrTable.freeAction) [] in
  let cs := [PtrTable.OpBumpCurrentEpoch; PtrTable.OpUnprotect 1;
             PtrTable.OpBumpCurrentEpoch; PtrTable.OpProtect 2;
             PtrTable.OpBumpCurrentEpoch] in
  map (fun m => PtrTable.atomicSafeToReclaimEpoch (PtrTable.epoch m))
    (m0 :: PtrTable.history cs m0)
  = [0; 4; 4; 7; 7; 7]
  /\ (forall k m m',
        (m0 :: PtrTable.history cs m0) !! k = Some m ->
        (m0 :: PtrTable.history cs m0) !! S k = Some m' ->
        PtrTable.atomicSafeToReclaimEpoch (PtrTable.epoch m)
        <= PtrTable.atomicSafeToReclaimEpoch (PtrTable.epoch m'))
  /\ Forall PtrTable.safe_below_protected (m0 :: PtrTable.history cs m0).
Proof.
  intros m0 cs. split; [vm_compute; reflexivity|].
  apply (safeToReclaimEpoch_monotone_and_bounded m0 cs).
  - apply waiting_epochs_ordered. unfold within; cbn; lia.
  - repeat constructor.
  - cbn. lia.
Defined.

(** With the slots being one entry, the protection of a slot is lifted
    by a call for another slot: slot 1 is protected at epoch 5 and an
    action with trigger epoch 5 is registered; [Protect(2)] then
    overwrites the shared epoch with 6, and the next bump drains the
    action although slot 1 was never unprotected. *)
Lemma PtrTable_protection_lost_through_other_slot :
  exists m0 m1 m2,
    PtrTable.NewLightEpoch 4100 2 = Ok m0
    /\ exec (PtrTable.performAll
               [PtrTable.OpBumpCurrentEpoch; PtrTable.OpBumpCurrentEpoch;
                PtrTable.OpBumpCurrentEpoch; PtrTable.OpBumpCurrentEpoch;
                PtrTable.OpProtect 1;
                PtrTable.OpBumpCurrentEpochWithCallback 1 (Some 7%nat) None])
            m0 = Ok m1
    /\ PtrTable.slot m1 1 = Some (mkEntry 5 0 RestPhase)
    /\ PtrTable.invocations 7%nat m1 = 0%nat
    /\ exec (PtrTable.performAll
               [PtrTable.OpProtect 2; PtrTable.OpBumpCurrentEpoch]) m1 = Ok m2
    /\ PtrTable.IsProtected 1 m2 = Ok (true, m2)
    /\ PtrTable.invocations 7%nat m2 = 1%nat.
Proof.
  do 3 eexists. split; [vm_compute; reflexivity|].
  split; [vm_compute; reflexivity|].
  split; [vm_compute; reflexivity|].
  split; [vm_compute; reflexivity|].
  split; [vm_compute; reflexivity|].
  split; vm_compute; reflexivity.
Qed.

(** The probe index is [1 + (startIdx + i) % entryNum] in Go's [int]:
    when [rand.Int()] is so large that [startIdx + i] wraps, the
    remainder is negative.  With three usable slots, slot 2 reserved and
    [rand.Int() = 2^63 - 1], the second probe indexes [tableUsed[-1]] and
    the call panics although slots 1 and 3 are free. *)
Lemma FindAndReserveEmptyEntry_start_index_wraps :
  exists m0 m1,
    PtrTable.NewLightEpoch 4100 3 = Ok m0
    /\ PtrTable.FindAndReserveEmptyEntry 1 1 m0 = Ok (2, m1)
    /\ PtrTable.used m1 1 = Some 0
    /\ PtrTable.used m1 3 = Some 0
    /\ forall fuel,
         PtrTable.FindAndReserveEmptyEntry (S fuel) (2 ^ 63 - 1) m1 = Panic.
Proof.
  do 2 eexists. split; [vm_compute; reflexivity|].
  split; [vm_compute; reflexivity|].
  split; [reflexivity|]. split; [reflexivity|].
  intros fuel. reflexivity.
Qed.

(** ** Further properties of the allocator *)

(** X1.  The start address returned by [alignedAlloc] is the least
    multiple of [alignment] at or after the first byte of the buffer (the
    address [getFirstAddress] gives): it is a multiple of [alignment], it
    is less than [alignment] bytes into the buffer, it is the first byte
    itself when that is aligned, and no aligned address of the buffer
    lies before it. *)
Theorem alignedAlloc_start_is_least (addr alignment size : Z) :
  0 < alignment -> 0 < size -> size + alignment - 1 < 2 ^ 63 ->
  0 <= addr -> addr + (size + alignment - 1) <= 2 ^ 64 ->
  exists origin start,
    alignedAlloc addr alignment size = Ok (origin, start)
    /\ getFirstAddress origin = Some addr
    /\ start mod alignment = 0
    /\ addr <= start < addr + alignment
    /\ (addr mod alignment = 0 -> start = addr)
    /\ forall q, addr <= q -> q mod alignment = 0 -> start <= q.
Proof.
  intros Ha Hs Hfit Haddr Hend.
  destruct (alignedAlloc_start addr alignment size Ha Hs Hfit Haddr Hend)
    as (start & Heq & Hmod & Hrange).
  exists (Some (mkBytes addr (size + alignment - 1))), start.
  split; [exact Heq|]. split.
  { unfold getFirstAddress. cbn [len data].
    destruct (Z.eqb_spec (size + alignment - 1) 0) as [E|E];
      [exfalso; clear Hmod; lia|reflexivity]. }
  split; [exact Hmod|]. split; [exact Hrange|]. split.
  - intros H0.
    apply Z.mod_divide in H0; [|lia]. apply Z.mod_divide in Hmod; [|lia].
    destruct H0 as [a Ea], Hmod as [b Eb].
    assert (b - a < 1)
      by (apply (Z.mul_lt_mono_pos_r alignment); [assumption|lia]).
    assert (-1 < b - a)
      by (apply (Z.mul_lt_mono_pos_r alignment); [assumption|lia]).
    replace b with a in Eb by lia. lia.
  - intros q Hq Hqm.
    apply Z.mod_divide in Hqm; [|lia]. apply Z.mod_divide in Hmod; [|lia].
    destruct Hqm as [a Ea], Hmod as [b Eb].
    assert (b - a < 1)
      by (apply (Z.mul_lt_mono_pos_r alignment); [assumption|lia]).
    assert (b * alignment <= a * alignment)
      by (apply Z.mul_le_mono_nonneg_r; lia).
    lia.
Qed.

Lemma alignedAlloc_start_is_least_witness :
  exists origin start,
    alignedAlloc 4100 64 1280 = Ok (origin, start)
    /\ getFirstAddress origin = Some 4100
    /\ start mod 64 = 0
    /\ 4100 <= start < 4100 + 64
    /\ (4100 mod 64 = 0 -> start = 4100)
    /\ forall q, 4100 <= q -> q mod 64 = 0 -> start <= q.
Proof.
  apply (alignedAlloc_start_is_least 4100 64 1280); lia.
Defined.

(** ** Further properties of the hash bucket entries *)

Section LowAddrFields.
Import LowAddr.

(** X2.  In the packing with the address in the low 48 bits, each setter
    writes its field, cut to the width of the field, and leaves the other
    fields as they were: [SetAddress] stores the low 48 bits of its
    argument and keeps tag and tentative bit, [SetTag] stores the low 14
    bits of its argument and keeps address and tentative bit. *)
Theorem LowAddr_fields_independent entry a t :
  0 <= entry < 2 ^ 64 -> 0 <= a < 2 ^ 64 -> 0 <= t < 2 ^ 16 ->
  GetAddress (SetAddress entry a) = a mod 2 ^ 48
  /\ GetTag (SetAddress entry a) = GetTag entry
  /\ IsTentative (SetAddress entry a) = IsTentative entry
  /\ GetTag (SetTag entry t) = t mod 2 ^ 14
  /\ GetAddress (SetTag entry t) = GetAddress entry
  /\ IsTentative (SetTag entry t) = IsTentative entry.
Proof.
  intros He Ha Ht.
  unfold GetAddress, GetTag, IsTentative, SetTag, SetAddress, u64, u16.
  fields_to_arith.
  split; [Z.div_mod_to_equations; lia|].
  split; [Z.div_mod_to_equations; lia|].
  split; [do 2 f_equal; Z.div_mod_to_equations; lia|].
  split; [Z.div_mod_to_equations; lia|].
  split; [Z.div_mod_to_equations; lia|].
  do 2 f_equal; Z.div_mod_to_equations; lia.
Qed.

Lemma LowAddr_fields_independent_witness :
  GetAddress (SetAddress (2 ^ 64 - 1) (2 ^ 48 + 5)) = (2 ^ 48 + 5) mod 2 ^ 48
  /\ GetTag (SetAddress (2 ^ 64 - 1) (2 ^ 48 + 5)) = GetTag (2 ^ 64 - 1)
  /\ IsTentative (SetAddress (2 ^ 64 - 1) (2 ^ 48 + 5))
     = IsTentative (2 ^ 64 - 1)
  /\ GetTag (SetTag (2 ^ 64 - 1) (2 ^ 14 + 3)) = (2 ^ 14 + 3) mod 2 ^ 14
  /\ GetAddress (SetTag (2 ^ 64 - 1) (2 ^ 14 + 3)) = GetAddress (2 ^ 64 - 1)
  /\ IsTentative (SetTag (2 ^ 64 - 1) (2 ^ 14 + 3)) = IsTentative (2 ^ 64 - 1).
Proof.
  apply (LowAddr_fields_independent (2 ^ 64 - 1) (2 ^ 48 + 5) (2 ^ 14 + 3));
    lia.
Defined.

(** X3.  The two setters commute, and the entry they leave is made of the
    tentative bit of the old entry, the low 14 bits of the tag and the low
    48 bits of the address: the reserved bit 62 is cleared by [SetTag]. *)
Theorem LowAddr_setters_commute entry a t :
  0 <= entry < 2 ^ 64 -> 0 <= a < 2 ^ 64 -> 0 <= t < 2 ^ 16 ->
  SetTag (SetAddress entry a) t = SetAddress (SetTag entry t) a
  /\ SetTag (SetAddress entry a) t
     = (entry / 2 ^ 63) * 2 ^ 63 + (t mod 2 ^ 14) * 2 ^ 48 + a mod 2 ^ 48
  /\ Z.testbit (SetTag entry t) 62 = false.
Proof.
  intros He Ha Ht.
  rewrite Z.testbit_eqb by lia.
  unfold GetAddress, GetTag, IsTentative, SetTag, SetAddress, u64, u16.
  fields_to_arith.
  repeat split.
  - Z.div_mod_to_equations; lia.
  - Z.div_mod_to_equations; lia.
  - apply Z.eqb_neq. Z.div_mod_to_equations; lia.
Qed.

Lemma LowAddr_setters_commute_witness :
  SetTag (SetAddress (2 ^ 64 - 1) 77) 9 = SetAddress (SetTag (2 ^ 64 - 1) 9) 77
  /\ SetTag (SetAddress (2 ^ 64 - 1) 77) 9
     = ((2 ^ 64 - 1) / 2 ^ 63) * 2 ^ 63 + (9 mod 2 ^ 14) * 2 ^ 48 + 77 mod 2 ^ 48
  /\ Z.testbit (SetTag (2 ^ 64 - 1) 9) 62 = false.
Proof.
  apply (LowAddr_setters_commute (2 ^ 64 - 1) 77 9); lia.
Defined.

End LowAddrFields.

Section HighAddrFields.
Import HighAddr.

(** X4.  In the packing with the address in the high 48 bits,
    [SetAddress] stores the low 48 bits of its argument and keeps the tag
    that [GetTag] reads and the tentative bit; [SetTag] stores the low 6
    bits of its argument, which is all that [GetTag] reads, keeps the
    tentative bit, and of the address keeps the low 16 bits only. *)
Theorem HighAddr_fields_as_stored entry a t :
  0 <= entry < 2 ^ 64 -> 0 <= a < 2 ^ 64 -> 0 <= t < 2 ^ 16 ->
  GetAddress (SetAddress entry a) = a mod 2 ^ 48
  /\ GetTag (SetAddress entry a) = GetTag entry
  /\ IsTentative (SetAddress entry a) = IsTentative entry
  /\ GetTag (SetTag entry t) = t mod 2 ^ 6
  /\ GetAddress (SetTag entry t) = GetAddress entry mod 2 ^ 16
  /\ IsTentative (SetTag entry t) = IsTentative entry
  /\ 0 <= GetTag entry < 2 ^ 6.
Proof.
  intros He Ha Ht.
  unfold GetAddress, GetTag, IsTentative, SetTag, SetAddress, u64, u16.
  change 0x1 with (Z.ones 1).
  fields_to_arith.
  split; [Z.div_mod_to_equations; lia|].
  split; [Z.div_mod_to_equations; lia|].
  split; [do 2 f_equal; Z.div_mod_to_equations; lia|].
  split; [Z.div_mod_to_equations; lia|].
  split; [Z.div_mod_to_equations; lia|].
  split; [do 2 f_equal; Z.div_mod_to_equations; lia|].
  Z.div_mod_to_equations; lia.
Qed.

Lemma HighAddr_fields_as_stored_witness :
  GetAddress (SetAddress (2 ^ 64 - 1) (2 ^ 48 + 5)) = (2 ^ 48 + 5) mod 2 ^ 48
  /\ GetTag (SetAddress (2 ^ 64 - 1) (2 ^ 48 + 5)) = GetTag (2 ^ 64 - 1)
  /\ IsTentative (SetAddress (2 ^ 64 - 1) (2 ^ 48 + 5))
     = IsTentative (2 ^ 64 - 1)
  /\ GetTag (SetTag (2 ^ 64 - 1) 67) = 67 mod 2 ^ 6
  /\ GetAddress (SetTag (2 ^ 64 - 1) 67) = GetAddress (2 ^ 64 - 1) mod 2 ^ 16
  /\ IsTentative (SetTag (2 ^ 64 - 1) 67) = IsTentative (2 ^ 64 - 1)
  /\ 0 <= GetTag (2 ^ 64 - 1) < 2 ^ 6.
Proof.
  apply (HighAddr_fields_as_stored (2 ^ 64 - 1) (2 ^ 48 + 5) 67); lia.
Defined.

End HighAddrFields.

(** ** The bucket index *)

Lemma land_pow2_pred x k :
  0 <= k -> Z.land x (2 ^ k - 1) = x mod 2 ^ k.
Proof.
  intros Hk. rewrite <- Z.land_ones by lia. now rewrite Z.ones_equiv, Z.sub_1_r.
Qed.

(** X5.  For a table size that is a power of two, [bucketIdxForHash] is
    the remainder of the hash by the size, hence an index into the
    [size] buckets; two hashes that agree modulo the size select the same
    bucket. *)
Theorem bucketIdxForHash_power_of_two hash size k :
  0 <= k < 64 -> size = 2 ^ k -> 0 <= hash < 2 ^ 64 ->
  bucketIdxForHash hash size = hash mod size
  /\ 0 <= bucketIdxForHash hash size < size.
Proof.
  intros Hk -> Hh.
  assert (Hp : 0 < 2 ^ k) by (apply Z.pow_pos_nonneg; lia).
  assert (Hlt : 2 ^ k < 2 ^ 64) by (apply Z.pow_lt_mono_r; lia).
  unfold bucketIdxForHash. rewrite u64_small by lia.
  rewrite land_pow2_pred by lia.
  split; [reflexivity|]. apply Z.mod_pos_bound. lia.
Qed.

Lemma bucketIdxForHash_power_of_two_witness :
  bucketIdxForHash 1000003 1024 = 1000003 mod 1024
  /\ 0 <= bucketIdxForHash 1000003 1024 < 1024.
Proof.
  apply (bucketIdxForHash_power_of_two 1000003 1024 10); [lia|reflexivity|lia].
Defined.

(** A number below [2 ^ n] is [2 ^ n - 1] or has a zero bit below [n]. *)
Lemma zero_bit_below n :
  0 <= n -> forall s, 0 <= s < 2 ^ n ->
  s = 2 ^ n - 1 \/ exists b, 0 <= b < n /\ Z.testbit s b = false.
Proof.
  intros Hn. pattern n. apply natlike_ind; [| |exact Hn]; clear n Hn.
  - intros s Hs. left. change (2 ^ 0) with 1 in *. lia.
  - intros n Hn IH s Hs.
    rewrite Z.pow_succ_r in * by lia.
    assert (Hp : 0 < 2 ^ n) by (apply Z.pow_pos_nonneg; lia).
    destruct (Z.testbit s n) eqn:Eb.
    + apply Z.testbit_true in Eb; [|lia].
      assert (Hq : s / 2 ^ n = 1).
      { assert (0 <= s / 2 ^ n < 2).
        { split; [apply Z.div_pos; lia|apply Z.div_lt_upper_bound; lia]. }
        assert (s / 2 ^ n <> 0) by (intros E; rewrite E in Eb; discriminate).
        lia. }
      pose proof (Z.div_mod s (2 ^ n) ltac:(lia)) as Hdm. rewrite Hq in Hdm.
      pose proof (Z.mod_pos_bound s (2 ^ n) Hp) as Hm.
      destruct (IH (s mod 2 ^ n) Hm) as [E|(b & Hb & Hbit)].
      * left. lia.
      * right. exists b. split; [lia|].
        rewrite Z.mod_pow2_bits_low in Hbit by lia. exact Hbit.
    + right. exists n. split; [lia|exact Eb].
Qed.

(** A conjunction with a non-negative mask is at most the mask. *)
Lemma land_le_mask a b : 0 <= b -> Z.land a b <= b.
Proof.
  intros Hb.
  assert (H0 : Z.land (Z.ldiff b a) (Z.land b a) = 0).
  { apply Z.bits_inj'. intros n Hn.
    rewrite !Z.land_spec, Z.ldiff_spec, Z.bits_0.
    now destruct (Z.testbit b n), (Z.testbit a n). }
  assert (E : b = Z.ldiff b a + Z.land b a).
  { rewrite Z.add_nocarry_lxor by exact H0.
    rewrite Z.lxor_lor by exact H0.
    symmetry. apply Z.lor_ldiff_and. }
  assert (0 <= Z.ldiff b a) by (apply Z.ldiff_nonneg; lia).
  rewrite (Z.land_comm a b). lia.
Qed.

(** X6.  For every size from 1 to [2 ^ 64 - 1] the index that
    [bucketIdxForHash] returns is below [size].  The size has to be a
    power of two for the hash table to use all its buckets: for any
    other size there is a bucket index below [size] that
    [bucketIdxForHash] returns for no hash. *)
Theorem bucketIdxForHash_misses_a_bucket size :
  0 < size < 2 ^ 64 ->
  (forall hash, 0 <= hash < 2 ^ 64 -> 0 <= bucketIdxForHash hash size < size)
  /\ ((forall k, 0 <= k -> size <> 2 ^ k) ->
      exists idx,
        0 <= idx < size
        /\ forall hash,
             0 <= hash < 2 ^ 64 -> bucketIdxForHash hash size <> idx).
Proof.
  intros Hs. unfold bucketIdxForHash. rewrite u64_small by lia.
  split.
  - intros hash Hh. split; [apply Z.land_nonneg; lia|].
    assert (Z.land hash (size - 1) <= size - 1); [|lia].
    apply land_le_mask. lia.
  - intros Hnp. assert (H1 : size <> 1) by (apply (Hnp 0); lia).
    set (s := size - 1). assert (Hs1 : 0 < s) by (unfold s; lia).
    pose proof (Z.log2_spec s Hs1) as Hlog.
    pose proof (Z.log2_nonneg s) as Hl0.
    destruct (zero_bit_below (Z.succ (Z.log2 s)) ltac:(lia) s ltac:(lia))
      as [E|(b & Hb & Hbit)].
    + exfalso. apply (Hnp (Z.succ (Z.log2 s))); [lia|]. subst s. lia.
    + exists (2 ^ b).
      assert (Hle : 2 ^ b <= 2 ^ Z.log2 s) by (apply Z.pow_le_mono_r; lia).
      assert (0 < 2 ^ b) by (apply Z.pow_pos_nonneg; lia).
      split; [subst s; lia|].
      intros hash Hh E.
      assert (Hf : Z.testbit (Z.land hash s) b = false)
        by (rewrite Z.land_spec, Hbit; apply andb_false_r).
      rewrite E, Z.pow2_bits_true in Hf by lia. discriminate.
Qed.

Lemma bucketIdxForHash_misses_a_bucket_witness :
  (forall hash, 0 <= hash < 2 ^ 64 -> 0 <= bucketIdxForHash hash 6 < 6)
  /\ exists idx,
       0 <= idx < 6
       /\ forall hash, 0 <= hash < 2 ^ 64 -> bucketIdxForHash hash 6 <> idx.
Proof.
  destruct (bucketIdxForHash_misses_a_bucket 6 ltac:(lia)) as [Hbound Hmiss].
  split; [exact Hbound|]. apply Hmiss.
  intros k Hk E.
  destruct (Z.le_gt_cases 3 k) as [H|H].
  - pose proof (Z.pow_le_mono_r 2 3 k ltac:(lia) H) as Hp.
    change (2 ^ 3) with 8 in Hp. lia.
  - assert (Hc : k = 0 \/ k = 1 \/ k = 2) by lia.
    destruct Hc as [->|[->| ->]]; discriminate E.
Defined.

(** ** Package [tinykv] *)

Section TinyKVFacts.
Import TinyKV.

(** X7.  The five predicates on errors classify: on the nil error and on
    an error that is not a [DBError] every one of them answers false, and
    on a [DBError] each answers whether the code is its own, so that at
    most one of them answers true. *)
Theorem error_predicates_classify err :
  (forall e, err = DBError_ptr (Some e) ->
     IsNotFoundError err = Ok (Code e =? NotFound)
     /\ IsCorruptionError err = Ok (Code e =? Corruption)
     /\ IsNotSupportedError err = Ok (Code e =? NotSupported)
     /\ IsInvalidArgumentError err = Ok (Code e =? InvalidArgument)
     /\ IsIOError err = Ok (Code e =? IOError))
  /\ (err = nil_error \/ (exists text, err = other_error text) ->
      IsNotFoundError err = Ok false
      /\ IsCorruptionError err = Ok false
      /\ IsNotSupportedError err = Ok false
      /\ IsInvalidArgumentError err = Ok false
      /\ IsIOError err = Ok false)
  /\ (forall p q : error -> result bool,
        p ∈ [IsNotFoundError; IsCorruptionError; IsNotSupportedError;
             IsInvalidArgumentError; IsIOError] ->
        q ∈ [IsNotFoundError; IsCorruptionError; IsNotSupportedError;
             IsInvalidArgumentError; IsIOError] ->
        p err = Ok true -> q err = Ok true -> p err = q err /\ p = q).
Proof.
  split; [|split].
  - intros e ->. repeat split.
  - intros [->|[text ->]]; repeat split.
  - intros p q Hp Hq Hpe Hqe. split; [congruence|].
    repeat (apply elem_of_cons in Hp as [->|Hp]);
      [..|now apply elem_of_nil in Hp];
      repeat (apply elem_of_cons in Hq as [->|Hq]);
      try (now apply elem_of_nil in Hq); try reflexivity; exfalso;
      destruct err as [|[e|]|]; try discriminate;
      unfold IsNotFoundError, IsCorruptionError, IsNotSupportedError,
        IsInvalidArgumentError, IsIOError, hasCode, NotFound, Corruption,
        NotSupported, InvalidArgument, IOError in *;
      injection Hpe as Hpe; injection Hqe as Hqe;
      apply Z.eqb_eq in Hpe, Hqe; lia.
Qed.

(** X8.  Every operation on keys checks the key first: on the empty key
    [Put], [ReadModifyWrite], [Get] and [Delete] return the
    invalid-argument error, and on any other key the not-supported error
    of the unimplemented data base; the value returned beside the error
    is the empty string. *)
Theorem kvDB_operations_check_key db key value wo ro :
  (key = ""%string ->
     IsInvalidArgumentError (Put db key value wo) = Ok true
     /\ IsInvalidArgumentError (ReadModifyWrite db key value wo).2 = Ok true
     /\ IsInvalidArgumentError (Get db key ro).2 = Ok true
     /\ IsInvalidArgumentError (Delete db key wo) = Ok true)
  /\ (key <> ""%string ->
     IsNotSupportedError (Put db key value wo) = Ok true
     /\ IsNotSupportedError (ReadModifyWrite db key value wo).2 = Ok true
     /\ IsNotSupportedError (Get db key ro).2 = Ok true
     /\ IsNotSupportedError (Delete db key wo) = Ok true
     /\ IsInvalidArgumentError (Put db key value wo) = Ok false)
  /\ (ReadModifyWrite db key value wo).1 = ""%string
  /\ (Get db key ro).1 = ""%string.
Proof.
  unfold Put, ReadModifyWrite, Get, Delete, preCheckKeyValue.
  destruct (String.eqb_spec key "") as [->|Hne].
  - repeat split; intros; try reflexivity; congruence.
  - repeat split; intros; try reflexivity; congruence.
Qed.

End TinyKVFacts.

(** ** Further properties of the table of entries ([ValTable]) *)

Section ValTableMore.
Import ValTable.

Lemma ValTable_entryAt_eq e i en :
  slot e i = Some en -> entryAt i e = Ok (en, e).
Proof. unfold slot, entryAt. now intros ->. Qed.

Lemma ValTable_entryAt_Panic {A} e i (k : epochEntry -> M LightEpoch A) :
  slot e i = None -> (entryAt i ≫= k) e = Panic.
Proof. unfold slot. intros H. rewrite bind_eq. unfold entryAt. now rewrite H. Qed.

Lemma ValTable_updEntry_eq e i en f :
  slot e i = Some en ->
  updEntry i f e = Ok (tt, set_table (upd_Z (table e) i (f en)) e).
Proof.
  intros H. unfold updEntry. rewrite bind_eq, (ValTable_entryAt_eq _ _ _ H).
  reflexivity.
Qed.

Lemma ValTable_slot_upd_eq e i en x :
  slot e i = Some en -> slot (set_table (upd_Z (table e) i x) e) i = Some x.
Proof. unfold slot. cbn [table set_table]. apply nth_Z_upd_eq. Qed.

Lemma ValTable_slot_upd_ne e i j x :
  i <> j -> slot (set_table (upd_Z (table e) i x) e) j = slot e j.
Proof. unfold slot. cbn [table set_table]. apply nth_Z_upd_ne. Qed.

(** *** The constructor *)

Lemma ValTable_initTable_eq n : forall i e pre,
  table e = pre ++ replicate n zeroEntry ->
  Z.of_nat (length pre) = i ->
  initTable n i e
  = Ok (tt, set_table (pre ++ replicate n (mkEntry 0 0 RestPhase)) e).
Proof.
  induction n as [|n IH]; intros i e pre Ht Hi; cbn [initTable].
  - cbn [replicate] in *. rewrite <- Ht. now destruct e.
  - assert (Hs : slot e i = Some zeroEntry).
    { unfold slot. rewrite nth_Z_lookup by lia. rewrite Ht, <- Hi, Nat2Z.id.
      now rewrite lookup_app_r, Nat.sub_diag by lia. }
    rewrite bind_eq, (ValTable_updEntry_eq _ _ _ _ Hs).
    rewrite (IH (i + 1) _ (pre ++ [mkEntry 0 0 RestPhase])).
    + f_equal. f_equal. cbn [replicate]. rewrite <- app_assoc. cbn [app].
      now destruct e.
    + cbn [table set_table]. unfold upd_Z.
      destruct (Z.ltb_spec i 0); [lia|].
      rewrite Ht, <- Hi, Nat2Z.id. cbn [replicate].
      rewrite insert_app_r_alt, Nat.sub_diag by lia. cbn [insert].
      now rewrite <- app_assoc.
    + rewrite length_app. cbn [length]. lia.
Qed.

Lemma ValTable_updAction_eq e i a f :
  nth_Z (drainList e) i = Some a ->
  updAction i f e = Ok (tt, set_drainList (upd_Z (drainList e) i (f a)) e).
Proof. intros H. unfold updAction. now rewrite H. Qed.

Lemma ValTable_initializeAction_eq e i a :
  nth_Z (drainList e) i = Some a ->
  initializeAction i e
  = Ok (tt, set_drainList
              (upd_Z (drainList e) i (mkAction epochFree None None)) e).
Proof.
  intros H. unfold initializeAction.
  rewrite bind_eq, (ValTable_updAction_eq _ _ _ _ H).
  rewrite bind_eq, (ValTable_updAction_eq _ _ (set_ctx None a));
    [|cbn [drainList set_drainList]; eapply nth_Z_upd_eq; eassumption].
  rewrite (ValTable_updAction_eq _ _ (set_callback None (set_ctx None a)));
    [|cbn [drainList set_drainList]; eapply nth_Z_upd_eq;
      eapply nth_Z_upd_eq; eassumption].
  cbn [drainList set_drainList]. rewrite !upd_Z_upd_Z.
  now destruct e.
Qed.

Lemma ValTable_initDrainList_eq n : forall i e pre,
  drainList e = pre ++ replicate n zeroAction ->
  Z.of_nat (length pre) = i ->
  initDrainList n i e
  = Ok (tt, set_drainList
              (pre ++ replicate n (mkAction epochFree None None)) e).
Proof.
  induction n as [|n IH]; intros i e pre Ht Hi; cbn [initDrainList].
  - cbn [replicate] in *. rewrite <- Ht. now destruct e.
  - assert (Hs : nth_Z (drainList e) i = Some zeroAction).
    { rewrite nth_Z_lookup by lia. rewrite Ht, <- Hi, Nat2Z.id.
      now rewrite lookup_app_r, Nat.sub_diag by lia. }
    rewrite bind_eq, (ValTable_initializeAction_eq _ _ _ Hs).
    rewrite (IH (i + 1) _ (pre ++ [mkAction epochFree None None])).
    + f_equal. f_equal. cbn [replicate]. rewrite <- app_assoc. cbn [app].
      now destruct e.
    + cbn [drainList set_drainList]. unfold upd_Z.
      destruct (Z.ltb_spec i 0); [lia|].
      rewrite Ht, <- Hi, Nat2Z.id. cbn [replicate].
      rewrite insert_app_r_alt, Nat.sub_diag by lia. cbn [insert].
      now rewrite <- app_assoc.
    + rewrite length_app. cbn [length]. lia.
Qed.

Lemma ValTable_NewLightEpoch_eq size :
  NewLightEpoch size
  = Ok (mkLightEpoch 1 0
          (replicate (Z.to_nat (u32 (size + 2))) (mkEntry 0 0 RestPhase))
          size 0 (replicate 256 (mkAction epochFree None None))).
Proof.
  unfold NewLightEpoch, exec. rewrite bind_eq.
  rewrite (ValTable_initTable_eq _ 0 _ []); [|reflexivity|reflexivity].
  rewrite (ValTable_initDrainList_eq _ 0 _ []); [|reflexivity|reflexivity].
  reflexivity.
Qed.

(** X9.  [NewLightEpoch(size)] with the table of entries returns an
    object at epoch 1 with safe epoch 0, [size] usable slots, no pending
    action and a free drain list, whose [size + 2] slots are all
    unprotected with the phase marker [RestPhase]; an index outside the
    table makes [Protect] and [IsProtected] panic. *)
Theorem ValTable_NewLightEpoch_initial size :
  0 <= size < 2 ^ 32 - 2 ->
  exists e,
    NewLightEpoch size = Ok e
    /\ globals e = (1, 0, size, 0, replicate 256 (mkAction epochFree None None))
    /\ (forall i, 0 <= i < size + 2 ->
          slot e i = Some (mkEntry 0 0 RestPhase)
          /\ IsProtected i e = Ok (false, e))
    /\ (forall i, ~ 0 <= i < size + 2 ->
          slot e i = None /\ Protect i e = Panic /\ IsProtected i e = Panic).
Proof.
  intros Hs. eexists. split; [apply ValTable_NewLightEpoch_eq|].
  rewrite u32_small by lia.
  split; [reflexivity|]. split.
  - intros i Hi.
    assert (H : slot (mkLightEpoch 1 0
                  (replicate (Z.to_nat (size + 2)) (mkEntry 0 0 RestPhase))
                  size 0 (replicate 256 (mkAction epochFree None None))) i
                = Some (mkEntry 0 0 RestPhase)).
    { unfold slot. cbn [table]. apply nth_Z_replicate. lia. }
    split; [exact H|].
    unfold IsProtected. rewrite bind_eq, (ValTable_entryAt_eq _ _ _ H).
    reflexivity.
  - intros i Hi.
    assert (H : slot (mkLightEpoch 1 0
                  (replicate (Z.to_nat (size + 2)) (mkEntry 0 0 RestPhase))
                  size 0 (replicate 256 (mkAction epochFree None None))) i
                = None).
    { unfold slot, nth_Z. cbn [table].
      destruct (Z.ltb_spec i 0); [reflexivity|].
      apply lookup_ge_None. rewrite length_replicate. lia. }
    split; [exact H|]. split.
    + unfold Protect. now apply ValTable_entryAt_Panic.
    + unfold IsProtected. now apply ValTable_entryAt_Panic.
Qed.

Lemma ValTable_NewLightEpoch_initial_witness :
  exists e,
    NewLightEpoch 3 = Ok e
    /\ globals e = (1, 0, 3, 0, replicate 256 (mkAction epochFree None None))
    /\ (forall i, 0 <= i < 3 + 2 ->
          slot e i = Some (mkEntry 0 0 RestPhase)
          /\ IsProtected i e = Ok (false, e))
    /\ (forall i, ~ 0 <= i < 3 + 2 ->
          slot e i = None /\ Protect i e = Panic /\ IsProtected i e = Panic).
Proof.
  apply (ValTable_NewLightEpoch_initial 3). lia.
Defined.

(** *** Operations on one slot *)

Lemma same_but_slot_refl i e : same_but_slot i e e.
Proof. split; [reflexivity|]. reflexivity. Qed.

Lemma same_but_slot_updEntry i f e0 :
  preserves (same_but_slot i e0) (updEntry i f).
Proof.
  intros e u e' [Hg Hs] H. unfold updEntry in H.
  apply bind_Ok_inv in H as (en & e1 & H1 & H).
  apply ValTable_entryAt_inv in H1 as [-> Hen].
  injection H as _ <-. split; [exact Hg|].
  intros j Hj. rewrite ValTable_slot_upd_ne by congruence. now apply Hs.
Qed.

Lemma same_but_slot_entryAt i j e0 :
  preserves (same_but_slot i e0) (entryAt j).
Proof.
  intros e en e' HP H. now apply ValTable_entryAt_inv in H as [-> _].
Qed.

Lemma same_but_slot_checkPhases i e0 n : forall k phase,
  preserves (same_but_slot i e0) (checkPhases n k phase).
Proof.
  intros k phase e b e' HP H.
  now apply ValTable_checkPhases_spec in H as [-> _].
Qed.

(** X10.  The slots of the table of entries are distinct: a call of
    [Protect], [Unprotect], [ReentrantProtect], [ReentrantUnprotect],
    [IsProtected], [FinishThreadPhase] or [HasThreadFinishedPhase] for
    slot [i] leaves every other slot, the two epochs, the number of
    slots and the drain list as they were. *)
Theorem ValTable_slot_operations_frame i phase e :
  preserves (same_but_slot i e) (Protect i)
  /\ preserves (same_but_slot i e) (Unprotect i)
  /\ preserves (same_but_slot i e) (ReentrantProtect i)
  /\ preserves (same_but_slot i e) (ReentrantUnprotect i)
  /\ preserves (same_but_slot i e) (IsProtected i)
  /\ preserves (same_but_slot i e) (FinishThreadPhase i phase)
  /\ preserves (same_but_slot i e) (HasThreadFinishedPhase i phase).
Proof.
  split; [|split; [|split; [|split; [|split; [|split]]]]].
  - unfold Protect.
    repeat first
      [ apply same_but_slot_entryAt | apply same_but_slot_updEntry
      | apply preserves_gets | apply preserves_ret
      | apply preserves_bind; [|intros ?] ].
  - apply same_but_slot_updEntry.
  - unfold ReentrantProtect.
    apply preserves_bind; [apply same_but_slot_entryAt|intros en].
    destruct (negb (Unprotected =? localCurrentEpoch en));
    repeat first
      [ apply same_but_slot_entryAt | apply same_but_slot_updEntry
      | apply preserves_gets | apply preserves_ret
      | apply preserves_bind; [|intros ?] ].
  - unfold ReentrantUnprotect.
    apply preserves_bind; [apply same_but_slot_updEntry|intros _].
    apply preserves_bind; [apply same_but_slot_entryAt|intros en].
    destruct (reentrant en =? 0);
      [apply same_but_slot_updEntry|apply preserves_ret].
  - unfold IsProtected.
    apply preserves_bind; [apply same_but_slot_entryAt|intros en].
    apply preserves_ret.
  - unfold FinishThreadPhase.
    apply preserves_bind; [apply same_but_slot_updEntry|intros _].
    apply preserves_bind; [apply preserves_gets|intros n].
    apply same_but_slot_checkPhases.
  - unfold HasThreadFinishedPhase.
    apply preserves_bind; [apply same_but_slot_entryAt|intros en].
    apply preserves_ret.
Qed.

(** X11.  On a slot of the table, [Protect] stores and returns the
    current epoch, after which [IsProtected] answers true (the current
    epoch being other than 0), and [Unprotect] stores 0, after which
    [IsProtected] answers false; the nesting count and the phase marker
    of the slot are kept.  An index outside the table is a panic. *)
Theorem ValTable_Protect_then_Unprotect e i :
  (forall en, slot e i = Some en ->
     exists e1 e2,
       Protect i e = Ok (atomicCurrentEpoch e, e1)
       /\ slot e1 i = Some (set_localCurrentEpoch (atomicCurrentEpoch e) en)
       /\ IsProtected i e1 = Ok (negb (atomicCurrentEpoch e =? 0), e1)
       /\ Unprotect i e1 = Ok (tt, e2)
       /\ slot e2 i = Some (set_localCurrentEpoch 0 en)
       /\ IsProtected i e2 = Ok (false, e2))
  /\ (slot e i = None ->
      Protect i e = Panic /\ Unprotect i e = Panic
      /\ IsProtected i e = Panic /\ ReentrantProtect i e = Panic
      /\ ReentrantUnprotect i e = Panic
      /\ forall phase, FinishThreadPhase i phase e = Panic
                        /\ HasThreadFinishedPhase i phase e = Panic).
Proof.
  split.
  - intros en Hen.
    set (e1 := set_table (upd_Z (table e) i
                 (set_localCurrentEpoch (atomicCurrentEpoch e) en)) e).
    assert (H1 : slot e1 i
                 = Some (set_localCurrentEpoch (atomicCurrentEpoch e) en))
      by (eapply ValTable_slot_upd_eq; eassumption).
    set (e2 := set_table (upd_Z (table e1) i
                 (set_localCurrentEpoch Unprotected
                    (set_localCurrentEpoch (atomicCurrentEpoch e) en))) e1).
    assert (H2 : slot e2 i = Some (set_localCurrentEpoch 0 en))
      by (eapply ValTable_slot_upd_eq; eassumption).
    exists e1, e2. split; [|split; [exact H1|split; [|split; [|split]]]].
    + unfold Protect.
      rewrite bind_eq, (ValTable_entryAt_eq _ _ _ Hen).
      rewrite bind_eq. cbn [gets].
      rewrite bind_eq, (ValTable_updEntry_eq _ _ _ _ Hen). fold e1.
      rewrite bind_eq, (ValTable_entryAt_eq _ _ _ H1). reflexivity.
    + unfold IsProtected.
      rewrite bind_eq, (ValTable_entryAt_eq _ _ _ H1). reflexivity.
    + unfold Unprotect. now rewrite (ValTable_updEntry_eq _ _ _ _ H1).
    + exact H2.
    + unfold IsProtected.
      rewrite bind_eq, (ValTable_entryAt_eq _ _ _ H2). reflexivity.
  - intros Hn.
    assert (Hu : forall f, updEntry i f e = Panic)
      by (intros f; unfold updEntry; now apply ValTable_entryAt_Panic).
    repeat split.
    + unfold Protect. now apply ValTable_entryAt_Panic.
    + apply Hu.
    + unfold IsProtected. now apply ValTable_entryAt_Panic.
    + unfold ReentrantProtect. now apply ValTable_entryAt_Panic.
    + unfold ReentrantUnprotect. now rewrite bind_eq, Hu.
    + unfold FinishThreadPhase. now rewrite bind_eq, Hu.
    + unfold HasThreadFinishedPhase. now apply ValTable_entryAt_Panic.
Qed.

(** *** The phase barrier *)

(** The scan of [FinishThreadPhase] returns when the slots it reads
    exist. *)
Lemma ValTable_checkPhases_returns n : forall i phase e,
  (forall k, i <= k < i + Z.of_nat n -> is_Some (slot e k)) ->
  exists b, checkPhases n i phase e = Ok (b, e).
Proof.
  induction n as [|n IH]; intros i phase e Hall; cbn [checkPhases].
  - eexists. reflexivity.
  - destruct (Hall i ltac:(lia)) as [en Hen].
    rewrite bind_eq, (ValTable_entryAt_eq _ _ _ Hen). cbv zeta.
    destruct (negb (localCurrentEpoch en =? 0)
              && negb (atomicPhaseFinished en =? phase)).
    + eexists. reflexivity.
    + apply IH. intros k Hk. apply Hall. lia.
Qed.

(** X12.  [FinishThreadPhase(entryIdx, phase)] on a table that holds
    the slots [1] to [entryNum - 1] records [phase] in the marker of slot
    [entryIdx], so that [HasThreadFinishedPhase(entryIdx, phase)] then
    holds, changes nothing else, and returns true exactly when every
    protected slot among [1] to [entryNum - 1] has the marker [phase]:
    the slot [entryNum] is not examined. *)
Theorem ValTable_FinishThreadPhase_barrier e entryIdx phase en :
  slot e entryIdx = Some en ->
  (forall k, 1 <= k < entryNum e -> is_Some (slot e k)) ->
  exists b e',
    FinishThreadPhase entryIdx phase e = Ok (b, e')
    /\ slot e' entryIdx = Some (set_atomicPhaseFinished phase en)
    /\ same_but_slot entryIdx e e'
    /\ HasThreadFinishedPhase entryIdx phase e' = Ok (true, e')
    /\ (b = true <->
        forall k en', 1 <= k < entryNum e -> slot e' k = Some en' ->
          localCurrentEpoch en' <> 0 -> atomicPhaseFinished en' = phase).
Proof.
  intros Hen Hall.
  set (e1 := set_table (upd_Z (table e) entryIdx
               (set_atomicPhaseFinished phase en)) e).
  assert (H1 : slot e1 entryIdx = Some (set_atomicPhaseFinished phase en))
    by (eapply ValTable_slot_upd_eq; eassumption).
  assert (Hall1 : forall k, 1 <= k < 1 + Z.of_nat (Z.to_nat (entryNum e - 1)) ->
                    is_Some (slot e1 k)).
  { intros k Hk. destruct (Z.eq_dec entryIdx k) as [<-|Hne].
    - rewrite H1. eauto.
    - unfold e1. rewrite ValTable_slot_upd_ne by assumption.
      apply Hall. lia. }
  destruct (ValTable_checkPhases_returns _ 1 phase e1 Hall1) as [b Hb].
  assert (Hf : FinishThreadPhase entryIdx phase e = Ok (b, e1)).
  { unfold FinishThreadPhase.
    rewrite bind_eq, (ValTable_updEntry_eq _ _ _ _ Hen). fold e1.
    rewrite bind_eq. cbn [gets]. exact Hb. }
  exists b, e1. split; [exact Hf|]. split; [exact H1|]. split.
  { split; [reflexivity|]. intros j Hj. unfold e1.
    apply ValTable_slot_upd_ne. congruence. }
  split.
  { unfold HasThreadFinishedPhase.
    rewrite bind_eq, (ValTable_entryAt_eq _ _ _ H1).
    cbn [atomicPhaseFinished set_atomicPhaseFinished mret M_ret].
    now rewrite Z.eqb_refl. }
  apply (ValTable_FinishThreadPhase_spec _ _ _ _ _ Hf).
Qed.

Lemma ValTable_FinishThreadPhase_barrier_witness :
  exists b e',
    FinishThreadPhase 1 PreparePhase
      (mkLightEpoch 1 0 (replicate 5 (mkEntry 0 0 RestPhase)) 3 0
         (replicate 256 (mkAction epochFree None None))) = Ok (b, e')
    /\ slot e' 1
       = Some (set_atomicPhaseFinished PreparePhase (mkEntry 0 0 RestPhase))
    /\ same_but_slot 1
         (mkLightEpoch 1 0 (replicate 5 (mkEntry 0 0 RestPhase)) 3 0
            (replicate 256 (mkAction epochFree None None))) e'
    /\ HasThreadFinishedPhase 1 PreparePhase e' = Ok (true, e')
    /\ (b = true <->
        forall k en', 1 <= k < 3 -> slot e' k = Some en' ->
          localCurrentEpoch en' <> 0 -> atomicPhaseFinished en' = PreparePhase).
Proof.
  apply (ValTable_FinishThreadPhase_barrier
           (mkLightEpoch 1 0 (replicate 5 (mkEntry 0 0 RestPhase)) 3 0
              (replicate 256 (mkAction epochFree None None)))
           1 PreparePhase (mkEntry 0 0 RestPhase)).
  - reflexivity.
  - intros k Hk. cbn [entryNum] in Hk.
    assert (Hc : k = 1 \/ k = 2) by lia.
    destruct Hc as [-> | ->]; eexists; reflexivity.
Defined.

Lemma ValTable_resetPhases_eq n : forall i e,
  0 <= i -> (forall k, i <= k < i + Z.of_nat n -> is_Some (slot e k)) ->
  exists e',
    resetPhases n i e = Ok (tt, e')
    /\ globals e' = globals e
    /\ (forall k en, i <= k < i + Z.of_nat n -> slot e k = Some en ->
          slot e' k = Some (set_atomicPhaseFinished RestPhase en))
    /\ (forall k, ~ i <= k < i + Z.of_nat n -> slot e' k = slot e k).
Proof.
  induction n as [|n IH]; intros i e Hi Hall; cbn [resetPhases].
  - exists e. split; [reflexivity|]. split; [reflexivity|].
    split; [intros k en Hk; lia|reflexivity].
  - destruct (Hall i ltac:(lia)) as [en Hen].
    rewrite bind_eq, (ValTable_updEntry_eq _ _ _ _ Hen).
    set (e1 := set_table _ e).
    destruct (IH (i + 1) e1 ltac:(lia)) as (e' & Hr & Hg & Hin & Hout).
    { intros k Hk. unfold e1. rewrite ValTable_slot_upd_ne by lia.
      apply Hall. lia. }
    exists e'. split; [exact Hr|]. split; [rewrite Hg; reflexivity|]. split.
    + intros k en' Hk Hs. destruct (Z.eq_dec k i) as [->|Hne].
      * rewrite Hout by lia. unfold e1.
        rewrite Hen in Hs. injection Hs as <-.
        eapply ValTable_slot_upd_eq; eassumption.
      * apply Hin; [lia|]. unfold e1.
        rewrite ValTable_slot_upd_ne by lia. exact Hs.
    + intros k Hk. rewrite Hout by lia. unfold e1.
      apply ValTable_slot_upd_ne. lia.
Qed.

(** X13.  [ResetPhaseFinished] on a table that holds the slots [1] to
    [entryNum - 1] sets the phase marker of these slots to [RestPhase],
    keeping their epoch and nesting count, and changes nothing else: the
    marker of slot [entryNum] is left as it is. *)
Theorem ValTable_ResetPhaseFinished_resets e :
  (forall k, 1 <= k < entryNum e -> is_Some (slot e k)) ->
  exists e',
    ResetPhaseFinished e = Ok (tt, e')
    /\ globals e' = globals e
    /\ (forall k en, 1 <= k < entryNum e -> slot e k = Some en ->
          slot e' k = Some (set_atomicPhaseFinished RestPhase en)
          /\ HasThreadFinishedPhase k RestPhase e' = Ok (true, e'))
    /\ (forall k, ~ 1 <= k < entryNum e -> slot e' k = slot e k).
Proof.
  intros Hall. unfold ResetPhaseFinished. rewrite bind_eq. cbn [gets].
  destruct (ValTable_resetPhases_eq (Z.to_nat (entryNum e - 1)) 1 e
              ltac:(lia)) as (e' & Hr & Hg & Hin & Hout).
  { intros k Hk. apply Hall. lia. }
  exists e'. split; [exact Hr|]. split; [exact Hg|]. split.
  - intros k en Hk Hs.
    assert (H1 : slot e' k = Some (set_atomicPhaseFinished RestPhase en))
      by (apply Hin; [lia|exact Hs]).
    split; [exact H1|].
    unfold HasThreadFinishedPhase.
    rewrite bind_eq, (ValTable_entryAt_eq _ _ _ H1). reflexivity.
  - intros k Hk. apply Hout. lia.
Qed.

Lemma ValTable_ResetPhaseFinished_resets_witness :
  exists e',
    ResetPhaseFinished
      (mkLightEpoch 1 0 (replicate 5 (mkEntry 1 0 PreparePhase)) 3 0
         (replicate 256 (mkAction epochFree None None))) = Ok (tt, e')
    /\ globals e'
       = globals (mkLightEpoch 1 0 (replicate 5 (mkEntry 1 0 PreparePhase)) 3 0
                    (replicate 256 (mkAction epochFree None None)))
    /\ (forall k en, 1 <= k < 3 ->
          slot (mkLightEpoch 1 0 (replicate 5 (mkEntry 1 0 PreparePhase)) 3 0
                  (replicate 256 (mkAction epochFree None None))) k = Some en ->
          slot e' k = Some (set_atomicPhaseFinished RestPhase en)
          /\ HasThreadFinishedPhase k RestPhase e' = Ok (true, e'))
    /\ (forall k, ~ 1 <= k < 3 ->
          slot e' k
          = slot (mkLightEpoch 1 0 (replicate 5 (mkEntry 1 0 PreparePhase)) 3 0
                    (replicate 256 (mkAction epochFree None None))) k).
Proof.
  apply (ValTable_ResetPhaseFinished_resets
           (mkLightEpoch 1 0 (replicate 5 (mkEntry 1 0 PreparePhase)) 3 0
              (replicate 256 (mkAction epochFree None None)))).
  intros k Hk. cbn [entryNum] in Hk.
  assert (Hc : k = 1 \/ k = 2) by lia.
  destruct Hc as [-> | ->]; eexists; reflexivity.
Defined.

End ValTableMore.

(** ** Further properties of the table of pointers ([PtrTable]) *)

Section PtrTableMore.
Import PtrTable.

(** *** The constructor *)

(** X14.  [NewLightEpoch(size)] with the table of pointers returns an
    object at epoch 1 with safe epoch 0, [size] usable slots, no pending
    action, a free drain list and no slot reserved; each of the
    [size + 2] slots reads as an unprotected entry with the phase marker
    [RestPhase], and an index outside the table makes [Protect] panic. *)
Theorem PtrTable_NewLightEpoch_initial addr size :
  0 <= size < 2 ^ 26 - 2 -> 0 <= addr ->
  addr + ((size + 2) * 64 + 63) <= 2 ^ 64 ->
  exists m,
    NewLightEpoch addr size = Ok m
    /\ atomicCurrentEpoch (epoch m) = 1
    /\ atomicSafeToReclaimEpoch (epoch m) = 0
    /\ entryNum (epoch m) = size
    /\ atomicDrainCount (epoch m) = 0
    /\ drainList (epoch m) = replicate 256 freeAction
    /\ fired m = []
    /\ (forall i, 0 <= i < size + 2 ->
          slot m i = Some (mkEntry 0 0 RestPhase)
          /\ used m i = Some 0
          /\ IsProtected i m = Ok (false, m))
    /\ (forall i, ~ 0 <= i < size + 2 ->
          slot m i = None /\ used m i = None /\ Protect i m = Panic).
Proof.
  intros Hs Ha He.
  destruct (NewLightEpoch_eq addr size Hs Ha He) as (p & buf & Hm & Hbuf).
  eexists. split; [exact Hm|].
  do 6 (split; [reflexivity|]). split.
  - intros i Hi. split; [now apply aliased_slot|]. split.
    + unfold used. cbn [aliased epoch tableUsed]. apply nth_Z_replicate. lia.
    + unfold IsProtected.
      rewrite bind_eq, (tableAt_eq _ _ p) by (now apply aliased_table).
      rewrite bind_eq, (aliased_loadEntry p buf size Hbuf). reflexivity.
  - intros i Hi.
    assert (Hn : forall x : Z, nth_Z (replicate (Z.to_nat (size + 2)) x) i = None).
    { intros x. unfold nth_Z. destruct (Z.ltb_spec i 0); [reflexivity|].
      apply lookup_ge_None. rewrite length_replicate. lia. }
    split; [|split].
    + unfold slot. cbn [aliased epoch table]. now rewrite Hn.
    + unfold used. cbn [aliased epoch tableUsed]. apply Hn.
    + unfold Protect. rewrite bind_eq. unfold tableAt.
      cbn [aliased epoch table]. now rewrite Hn.
Qed.

Lemma PtrTable_NewLightEpoch_initial_witness :
  exists m,
    NewLightEpoch 4100 3 = Ok m
    /\ atomicCurrentEpoch (epoch m) = 1
    /\ atomicSafeToReclaimEpoch (epoch m) = 0
    /\ entryNum (epoch m) = 3
    /\ atomicDrainCount (epoch m) = 0
    /\ drainList (epoch m) = replicate 256 freeAction
    /\ fired m = []
    /\ (forall i, 0 <= i < 3 + 2 ->
          slot m i = Some (mkEntry 0 0 RestPhase)
          /\ used m i = Some 0
          /\ IsProtected i m = Ok (false, m))
    /\ (forall i, ~ 0 <= i < 3 + 2 ->
          slot m i = None /\ used m i = None /\ Protect i m = Panic).
Proof.
  apply (PtrTable_NewLightEpoch_initial 4100 3); lia.
Defined.

(** A table whose entry address is not in the buffer cannot be
    initialized. *)
Lemma initTable_bad_pointer n i start m q :
  nth_Z (table (epoch m)) i = Some q ->
  valid m (u64 (start + CacheLineSize)) = false ->
  initTable (S n) i start m = Panic.
Proof.
  intros Hi Hv. cbn [initTable].
  unfold setTableAt. rewrite bind_eq, bind_eq, (tableAt_eq _ _ _ Hi).
  cbn [store modify].
  set (p := u64 (start + CacheLineSize)) in *.
  set (m1 := upd_epoch (fun e => set_table (upd_Z (table e) i p) e) m).
  assert (Hi1 : nth_Z (table (epoch m1)) i = Some p)
    by (unfold m1; cbn [epoch upd_epoch table set_table];
        eapply nth_Z_upd_eq; exact Hi).
  rewrite bind_eq, (tableAt_eq _ _ _ Hi1).
  rewrite bind_eq. unfold updEntry. rewrite bind_eq. unfold loadEntry.
  assert (Hv1 : valid m1 p = false) by exact Hv.
  now rewrite Hv1.
Qed.

(** X15.  The byte size [(size + 2) * CacheLineSize] of the table is
    computed in [uint32]: when [size + 2] is a multiple of [2 ^ 26] the
    product wraps to 0, [alignedAlloc] returns the nil buffer with start
    0, and the initialization of the first entry, at address 64, is a
    bad access: [NewLightEpoch] panics. *)
Theorem NewLightEpoch_size_wraps addr size k :
  1 <= k < 64 -> size + 2 = k * 2 ^ 26 ->
  NewLightEpoch addr size = Panic.
Proof.
  intros Hk Hsz. unfold NewLightEpoch.
  assert (Hn : u32 (size + 2) = size + 2) by (apply u32_small; lia).
  rewrite Hn. unfold CacheLineSize at 1 2.
  assert (Hw : u32 ((size + 2) * 64) = 0).
  { unfold u32. rewrite Hsz.
    replace (k * 2 ^ 26 * 64) with (k * 2 ^ 32) by lia. apply Z_mod_mult. }
  rewrite Hw, alignedAlloc_degenerate by lia.
  destruct (Z.to_nat (size + 2)) as [|n] eqn:En; [lia|].
  unfold exec. rewrite bind_eq.
  now rewrite (initTable_bad_pointer n 0 0 _ 0).
Qed.

Lemma NewLightEpoch_size_wraps_witness :
  NewLightEpoch 4100 (2 ^ 26 - 2) = Panic.
Proof.
  apply (NewLightEpoch_size_wraps 4100 (2 ^ 26 - 2) 1); lia.
Defined.

(** *** The scan of the table *)

Lemma slot_Some_inv m k en :
  slot m k = Some en ->
  exists p, nth_Z (table (epoch m)) k = Some p
            /\ valid m p = true /\ en = entryOf m p.
Proof.
  unfold slot. destruct (nth_Z (table (epoch m)) k) as [p|]; [|discriminate].
  destruct (valid m p) eqn:Hv; [|discriminate].
  intros [= <-]. eauto.
Qed.

Lemma slot_None_inv m k :
  slot m k = None ->
  nth_Z (table (epoch m)) k = None
  \/ exists p, nth_Z (table (epoch m)) k = Some p /\ valid m p = false.
Proof.
  unfold slot. destruct (nth_Z (table (epoch m)) k) as [p|]; [|auto].
  destruct (valid m p) eqn:Hv; [discriminate|]. eauto.
Qed.

(** Reading the entry of a slot. *)
Lemma read_slot {A} m k en (f : epochEntry -> M machine A) :
  slot m k = Some en ->
  (entry ← tableAt k; en' ← loadEntry entry; f en') m = f en m.
Proof.
  intros H. apply slot_Some_inv in H as (p & Hp & Hv & ->).
  rewrite bind_eq, (tableAt_eq _ _ _ Hp).
  now rewrite bind_eq, (loadEntry_eq _ _ Hv).
Qed.

Lemma read_slot_Panic {A} m k (f : epochEntry -> M machine A) :
  slot m k = None ->
  (entry ← tableAt k; en' ← loadEntry entry; f en') m = Panic.
Proof.
  intros H. apply slot_None_inv in H as [Hn|(p & Hp & Hv)].
  - rewrite bind_eq. unfold tableAt. now rewrite Hn.
  - rewrite bind_eq, (tableAt_eq _ _ _ Hp).
    rewrite bind_eq. unfold loadEntry. now rewrite Hv.
Qed.

Lemma scanTable_returns n : forall i o m,
  (forall k, i <= k < i + Z.of_nat n -> is_Some (slot m k)) ->
  exists r, scanTable n i o m = Ok (r, m).
Proof.
  induction n as [|n IH]; intros i o m Hall; cbn [scanTable].
  - eexists. reflexivity.
  - destruct (Hall i ltac:(lia)) as [en Hen].
    rewrite (read_slot _ _ _ _ Hen). cbv zeta.
    apply IH. intros k Hk. apply Hall. lia.
Qed.

Lemma scanTable_Panic n : forall i o m k,
  i <= k < i + Z.of_nat n -> slot m k = None ->
  scanTable n i o m = Panic.
Proof.
  induction n as [|n IH]; intros i o m k Hk Hn; [lia|]. cbn [scanTable].
  destruct (slot m i) as [en|] eqn:Hen.
  - rewrite (read_slot _ _ _ _ Hen). cbv zeta.
    apply (IH _ _ _ k); [|exact Hn].
    destruct (Z.eq_dec k i) as [->|]; [congruence|lia].
  - now apply read_slot_Panic.
Qed.

(** The usable slots of the table built by [NewLightEpoch] can be
    read. *)
Lemma aliased_readable p buf size cur safe en dc dl f :
  within buf p 64 -> readable (aliased p buf size cur safe en dc dl f).
Proof.
  intros Hbuf k Hk. cbn [aliased epoch entryNum] in Hk.
  rewrite (aliased_slot p buf size Hbuf) by lia. eauto.
Qed.

(** The scan returns when the usable slots can be read. *)
Lemma ComputeNewSafeToReclaimEpoch_scan currentEpoch m :
  readable m ->
  exists o,
    ComputeNewSafeToReclaimEpoch currentEpoch m
    = Ok (u64 (o - 1),
          upd_epoch (set_atomicSafeToReclaimEpoch (u64 (o - 1))) m)
    /\ o <= currentEpoch
    /\ (forall k en, 1 <= k <= entryNum (epoch m) -> slot m k = Some en ->
          localCurrentEpoch en <> Unprotected -> o <= localCurrentEpoch en)
    /\ (o = currentEpoch
        \/ exists k en, 1 <= k <= entryNum (epoch m) /\ slot m k = Some en
                        /\ localCurrentEpoch en <> Unprotected
                        /\ o = localCurrentEpoch en).
Proof.
  intros Hr.
  destruct (scanTable_returns (Z.to_nat (entryNum (epoch m))) 1
              currentEpoch m) as [o Ho].
  { intros k Hk. apply Hr. lia. }
  exists o. split.
  - unfold ComputeNewSafeToReclaimEpoch.
    rewrite bind_eq, load_eq, bind_eq, Ho. reflexivity.
  - apply scanTable_spec in Ho as (_ & Hle & Hall & Hex).
    split; [exact Hle|]. split.
    + intros k en Hk. apply Hall. lia.
    + destruct Hex as [->|(k & en & Hk & H)]; [now left|].
      right. exists k, en. split; [lia|exact H].
Qed.

(** X16.  [ComputeNewSafeToReclaimEpoch(currentEpoch)] stores and
    returns, in [uint64], one less than the oldest epoch among
    [currentEpoch] and the epochs of the protected slots [1] to
    [entryNum]; nothing else is changed.  The slots 0 and
    [entryNum + 1] are not looked at; a usable slot that cannot be read
    is a panic. *)
Theorem ComputeNewSafeToReclaimEpoch_oldest currentEpoch m :
  (readable m ->
   exists o,
     ComputeNewSafeToReclaimEpoch currentEpoch m
     = Ok (u64 (o - 1),
           upd_epoch (set_atomicSafeToReclaimEpoch (u64 (o - 1))) m)
     /\ o <= currentEpoch
     /\ (forall k en, 1 <= k <= entryNum (epoch m) -> slot m k = Some en ->
           localCurrentEpoch en <> Unprotected -> o <= localCurrentEpoch en)
     /\ (o = currentEpoch
         \/ exists k en, 1 <= k <= entryNum (epoch m) /\ slot m k = Some en
                         /\ localCurrentEpoch en <> Unprotected
                         /\ o = localCurrentEpoch en))
  /\ ((exists k, 1 <= k <= entryNum (epoch m) /\ slot m k = None) ->
      ComputeNewSafeToReclaimEpoch currentEpoch m = Panic).
Proof.
  split; [apply ComputeNewSafeToReclaimEpoch_scan|].
  intros (k & Hk & Hn). unfold ComputeNewSafeToReclaimEpoch.
  rewrite bind_eq, load_eq, bind_eq.
  now rewrite (scanTable_Panic _ _ _ _ k) by (auto; lia).
Qed.

Lemma ComputeNewSafeToReclaimEpoch_oldest_witness :
  exists m0,
    NewLightEpoch 4100 3 = Ok m0
    /\ exists o,
         ComputeNewSafeToReclaimEpoch 7 m0
         = Ok (u64 (o - 1),
               upd_epoch (set_atomicSafeToReclaimEpoch (u64 (o - 1))) m0)
         /\ o <= 7
         /\ (forall k en, 1 <= k <= entryNum (epoch m0) -> slot m0 k = Some en ->
               localCurrentEpoch en <> Unprotected -> o <= localCurrentEpoch en)
         /\ (o = 7
             \/ exists k en, 1 <= k <= entryNum (epoch m0) /\ slot m0 k = Some en
                             /\ localCurrentEpoch en <> Unprotected
                             /\ o = localCurrentEpoch en).
Proof.
  destruct (NewLightEpoch_eq 4100 3) as (p & buf & Hm & Hbuf); [lia..|].
  eexists. split; [exact Hm|].
  apply (proj1 (ComputeNewSafeToReclaimEpoch_oldest 7 _)).
  now apply aliased_readable.
Defined.

Lemma slot_set_safe m v k :
  slot (upd_epoch (set_atomicSafeToReclaimEpoch v) m) k = slot m k.
Proof. reflexivity. Qed.

(** A second scan with the same argument stores the same value. *)
Lemma ComputeNewSafeToReclaimEpoch_again x m r m' :
  ComputeNewSafeToReclaimEpoch x m = Ok (r, m') ->
  ComputeNewSafeToReclaimEpoch x m' = Ok (r, m').
Proof.
  intros H. unfold ComputeNewSafeToReclaimEpoch in *.
  apply bind_Ok_inv in H as (num & m0 & H0 & H). injection H0 as <- <-.
  apply bind_Ok_inv in H as (o & m0 & H0 & H).
  pose proof (scanTable_spec _ _ _ _ _ _ H0) as (-> & Hle & Hall & Hex).
  apply bind_Ok_inv in H as (u & m1 & H1 & H).
  injection H1 as _ <-. injection H as <- <-.
  set (m1 := upd_epoch (set_atomicSafeToReclaimEpoch (u64 (o - 1))) m).
  assert (Hn : entryNum (epoch m1) = entryNum (epoch m)) by reflexivity.
  destruct (scanTable_returns (Z.to_nat (entryNum (epoch m))) 1 x m1)
    as [o' Ho'].
  { intros k Hk. unfold m1. rewrite slot_set_safe.
    destruct (slot m k) eqn:E; [eauto|].
    now rewrite (scanTable_Panic _ _ _ _ k Hk E) in H0. }
  rewrite bind_eq, load_eq, Hn, bind_eq, Ho'.
  pose proof (scanTable_spec _ _ _ _ _ _ Ho') as (_ & Hle' & Hall' & Hex').
  assert (o' = o); [|subst o'; destruct m as [[]]; reflexivity].
  unfold m1 in Hall', Hex'.
  assert (o' <= o).
  { destruct Hex as [->|(k & en & Hk & Hs & Hp & ->)]; [exact Hle'|].
    apply (Hall' k en Hk); [now rewrite slot_set_safe|exact Hp]. }
  assert (o <= o').
  { destruct Hex' as [->|(k & en & Hk & Hs & Hp & ->)]; [exact Hle|].
    rewrite slot_set_safe in Hs. now apply (Hall k en Hk). }
  lia.
Qed.

Lemma SpinWait_never fuel : forall x target m r,
  ComputeNewSafeToReclaimEpoch x m = Ok (r, m) -> r < target ->
  SpinWaitForSafeToReclaim fuel x target m = Spin.
Proof.
  induction fuel as [|fuel IH]; intros x target m r Hc Hlt; [reflexivity|].
  cbn [SpinWaitForSafeToReclaim]. rewrite bind_eq, Hc.
  destruct (Z.leb_spec target r); [lia|]. now apply (IH _ _ _ r).
Qed.

(** X17.  With no other call in between, the first scan of
    [SpinWaitForSafeToReclaim(currentEpoch, target)] decides: if the safe
    epoch it computes has reached [target] the call returns, with that
    safe epoch stored, and otherwise it never returns, every further scan
    computing the same value. *)
Theorem SpinWaitForSafeToReclaim_first_scan_decides currentEpoch target m :
  readable m ->
  exists safe m1,
    ComputeNewSafeToReclaimEpoch currentEpoch m = Ok (safe, m1)
    /\ atomicSafeToReclaimEpoch (epoch m1) = safe
    /\ (target <= safe ->
        forall fuel,
          SpinWaitForSafeToReclaim (S fuel) currentEpoch target m = Ok (tt, m1))
    /\ (safe < target ->
        forall fuel,
          SpinWaitForSafeToReclaim fuel currentEpoch target m = Spin).
Proof.
  intros Hr.
  destruct (ComputeNewSafeToReclaimEpoch_scan currentEpoch m Hr)
    as (o & Hc & _).
  eexists _, _. split; [exact Hc|]. split; [reflexivity|]. split.
  - intros Hle fuel.
    now apply (PtrTable_SpinWait_returns_when_reached _ _ _ _ (u64 (o - 1))).
  - intros Hlt [|fuel]; [reflexivity|].
    cbn [SpinWaitForSafeToReclaim]. rewrite bind_eq, Hc.
    destruct (Z.leb_spec target (u64 (o - 1))); [lia|].
    apply (SpinWait_never _ _ _ _ (u64 (o - 1))); [|exact Hlt].
    eapply ComputeNewSafeToReclaimEpoch_again, Hc.
Qed.

Lemma SpinWaitForSafeToReclaim_first_scan_decides_witness :
  exists m0,
    NewLightEpoch 4100 3 = Ok m0
    /\ exists safe m1,
         ComputeNewSafeToReclaimEpoch 7 m0 = Ok (safe, m1)
         /\ atomicSafeToReclaimEpoch (epoch m1) = safe
         /\ (5 <= safe ->
             forall fuel,
               SpinWaitForSafeToReclaim (S fuel) 7 5 m0 = Ok (tt, m1))
         /\ (safe < 5 ->
             forall fuel, SpinWaitForSafeToReclaim fuel 7 5 m0 = Spin).
Proof.
  destruct (NewLightEpoch_eq 4100 3) as (p & buf & Hm & Hbuf); [lia..|].
  eexists. split; [exact Hm|].
  apply (SpinWaitForSafeToReclaim_first_scan_decides 7 5 _).
  now apply aliased_readable.
Defined.

End PtrTableMore.

(** *** Reserving and releasing slots *)

Section ReserveMore.
Import PtrTable.

(** X18.  On a table of at least one usable slot, of which one is free,
    [FindAndReserveEmptyEntry] returns in its first pass the index of a
    usable slot that was free, with the in-use flag of that slot set to 1
    and nothing else changed ([rand.Int()] being small enough for the
    probe index not to wrap). *)
Theorem FindAndReserveEmptyEntry_reserves_free_slot startIdx m fuel :
  0 < entryNum (epoch m) < 2 ^ 32 ->
  0 <= startIdx -> startIdx + entryNum (epoch m) < 2 ^ 63 ->
  (forall j, 1 <= j <= entryNum (epoch m) -> is_Some (used m j)) ->
  (exists j, 1 <= j <= entryNum (epoch m) /\ used m j = Some 0) ->
  exists idx m',
    FindAndReserveEmptyEntry (S fuel) startIdx m = Ok (idx, m')
    /\ 1 <= idx <= entryNum (epoch m)
    /\ used m idx = Some 0
    /\ used m' idx = Some 1
    /\ (forall j, j <> idx -> used m' j = used m j)
    /\ core m' = core m
    /\ drainList (epoch m') = drainList (epoch m)
    /\ atomicDrainCount (epoch m') = atomicDrainCount (epoch m)
    /\ fired m' = fired m.
Proof.
  intros Hn Hs Hw Hall Hfree.
  destruct (FindAndReserveEmptyEntry_reserves startIdx m Hn Hs Hw fuel)
    as (idx & Hidx & Hu & Hr); [|exact Hfree|].
  { intros j Hj. destruct (Hall j Hj) as [u Hu]. eauto. }
  eexists idx, _. split; [exact Hr|]. split; [exact Hidx|].
  split; [exact Hu|]. split; [|split].
  - rewrite (used_after_reserve _ _ _ _ Hu). now rewrite decide_True.
  - intros j Hj. rewrite (used_after_reserve _ _ _ _ Hu).
    now rewrite decide_False.
  - repeat split.
Qed.

Lemma FindAndReserveEmptyEntry_reserves_free_slot_witness :
  exists m0,
    NewLightEpoch 4100 3 = Ok m0
    /\ exists idx m',
         FindAndReserveEmptyEntry 1 5 m0 = Ok (idx, m')
         /\ 1 <= idx <= entryNum (epoch m0)
         /\ used m0 idx = Some 0
         /\ used m' idx = Some 1
         /\ (forall j, j <> idx -> used m' j = used m0 j)
         /\ core m' = core m0
         /\ drainList (epoch m') = drainList (epoch m0)
         /\ atomicDrainCount (epoch m') = atomicDrainCount (epoch m0)
         /\ fired m' = fired m0.
Proof.
  destruct (NewLightEpoch_eq 4100 3) as (p & buf & Hm & Hbuf); [lia..|].
  eexists. split; [exact Hm|].
  apply (FindAndReserveEmptyEntry_reserves_free_slot 5 _ 0).
  - cbn. lia.
  - lia.
  - cbn. lia.
  - intros j Hj. cbn in Hj. exists 0.
    unfold used. cbn [aliased epoch tableUsed]. apply nth_Z_replicate. lia.
  - exists 1. split; [cbn; lia|reflexivity].
Defined.

(** X19.  With every usable slot in use and no slot being released,
    [FindAndReserveEmptyEntry] panics: it does so at the end of its
    fourth pass over the slots, that is after [4 * entryNum] probes, and
    not before. *)
Theorem FindAndReserveEmptyEntry_full_table_panics startIdx m :
  0 < entryNum (epoch m) -> 3 * entryNum (epoch m) < 2 ^ 32 ->
  0 <= startIdx -> startIdx + entryNum (epoch m) < 2 ^ 63 ->
  (forall j, 1 <= j <= entryNum (epoch m) ->
     exists u, used m j = Some u /\ u <> 0) ->
  (forall fuel, FindAndReserveEmptyEntry (4 + fuel) startIdx m = Panic)
  /\ FindAndReserveEmptyEntry 3 startIdx m = Spin.
Proof.
  intros Hn H3 Hs Hw Hall. split.
  - intros fuel. apply FindAndReserveEmptyEntry_panics; try assumption. lia.
  - apply FindAndReserveEmptyEntry_four_passes; try assumption. lia.
Qed.

Lemma FindAndReserveEmptyEntry_full_table_panics_witness :
  exists m0 m1,
    NewLightEpoch 4100 2 = Ok m0
    /\ exec (performAll [OpFindAndReserveEmptyEntry 1 0;
                         OpFindAndReserveEmptyEntry 1 0]) m0 = Ok m1
    /\ (forall fuel, FindAndReserveEmptyEntry (4 + fuel) 7 m1 = Panic)
    /\ FindAndReserveEmptyEntry 3 7 m1 = Spin.
Proof.
  eexists _, _. split; [vm_compute; reflexivity|].
  split; [vm_compute; reflexivity|].
  apply (FindAndReserveEmptyEntry_full_table_panics 7).
  - cbn. lia.
  - cbn. lia.
  - lia.
  - cbn. lia.
  - intros j Hj. cbn in Hj. exists 1.
    assert (Hc : j = 1 \/ j = 2) by lia.
    destruct Hc as [-> | ->]; (split; [reflexivity|lia]).
Defined.

(** Among the slots [1] to [N], one is outside a duplicate-free list of
    fewer than [N] indices. *)
Lemma slot_outside (N : Z) (taken : list Z) :
  NoDup taken -> (length taken < Z.to_nat N)%nat ->
  exists j, 1 <= j <= N /\ j ∉ taken.
Proof.
  intros Hnd Hlen.
  destruct (decide (Forall (fun j => j ∈ taken) (seqZ 1 N))) as [Hall|Hex].
  - exfalso.
    assert (Hsub : seqZ 1 N ⊆+ taken).
    { apply NoDup_submseteq; [apply NoDup_seqZ|].
      intros x Hx. rewrite Forall_forall in Hall. now apply Hall. }
    apply submseteq_length in Hsub. rewrite length_seqZ in Hsub. lia.
  - apply not_Forall_Exists in Hex; [|intros x; apply _].
    apply Exists_exists in Hex as (j & Hj & Hnot).
    apply elem_of_seqZ in Hj. exists j. split; [lia|exact Hnot].
Qed.

Lemma reserveAll_spec fuel N : forall starts m taken,
  entryNum (epoch m) = N -> 0 < N < 2 ^ 32 ->
  NoDup taken -> (forall j, j ∈ taken -> 1 <= j <= N) ->
  (forall j, 1 <= j <= N ->
     used m j = Some (if decide (j ∈ taken) then 1 else 0)) ->
  (length taken + length starts <= Z.to_nat N)%nat ->
  Forall (fun s => 0 <= s /\ s + N < 2 ^ 63) starts ->
  exists idxs m',
    reserveAll (S fuel) starts m = Ok (idxs, m')
    /\ entryNum (epoch m') = N
    /\ core m' = core m
    /\ length idxs = length starts
    /\ NoDup (idxs ++ taken)
    /\ (forall j, j ∈ idxs -> 1 <= j <= N)
    /\ (forall j, 1 <= j <= N ->
          used m' j = Some (if decide (j ∈ idxs ++ taken) then 1 else 0)).
Proof.
  induction starts as [|s starts IH];
    intros m taken HN Hn Hnd Hin Hused Hlen Hst.
  - exists [], m. cbn [reserveAll app].
    split; [reflexivity|]. split; [exact HN|]. split; [reflexivity|].
    split; [reflexivity|]. split; [exact Hnd|].
    split; [intros j Hj; now apply elem_of_nil in Hj|exact Hused].
  - apply Forall_cons in Hst as [[Hs0 Hs1] Hst]. cbn [length] in Hlen.
    destruct (slot_outside N taken Hnd ltac:(lia)) as (j0 & Hj0 & Hout).
    destruct (FindAndReserveEmptyEntry_reserves s m ltac:(lia) Hs0
                ltac:(lia) fuel) as (idx & Hidx & Hu & Hr).
    { intros j Hj. rewrite HN in Hj. rewrite (Hused j Hj). eauto. }
    { exists j0. rewrite HN. split; [exact Hj0|].
      rewrite (Hused j0 Hj0). now rewrite decide_False. }
    rewrite HN in Hidx.
    assert (Hfresh : idx ∉ taken).
    { intros Hi. rewrite (Hused idx Hidx), decide_True in Hu by assumption.
      discriminate. }
    set (m1 := upd_epoch _ m) in Hr.
    destruct (IH m1 (idx :: taken)) as (idxs & m' & Hr' & HN' & Hc & Hl & Hnd' & Hin' & Hused').
    + exact HN.
    + exact Hn.
    + now constructor.
    + intros j Hj. apply elem_of_cons in Hj as [->|Hj]; [exact Hidx|now apply Hin].
    + intros j Hj. unfold m1. rewrite (used_after_reserve _ _ _ _ Hu).
      rewrite (Hused j Hj).
      destruct (decide (j = idx)) as [->|Hne].
      * rewrite decide_True by (apply elem_of_cons; auto). reflexivity.
      * destruct (decide (j ∈ taken)) as [Ht|Ht].
        -- rewrite decide_True by (apply elem_of_cons; auto). reflexivity.
        -- rewrite decide_False; [reflexivity|].
           intros Hc. apply elem_of_cons in Hc as [?|?]; contradiction.
    + cbn [length]. lia.
    + exact Hst.
    + exists (idx :: idxs), m'. split.
      { cbn [reserveAll]. rewrite bind_eq, Hr, bind_eq, Hr'. reflexivity. }
      assert (Hperm : (idx :: idxs) ++ taken ≡ₚ idxs ++ idx :: taken).
      { cbn [app]. now rewrite Permutation_middle. }
      split; [exact HN'|]. split; [rewrite Hc; reflexivity|].
      split; [cbn [length]; lia|]. split; [now rewrite Hperm|]. split.
      * intros j Hj. apply elem_of_cons in Hj as [->|Hj]; [exact Hidx|now apply Hin'].
      * intros j Hj. rewrite (Hused' j Hj).
        destruct (decide (j ∈ idxs ++ idx :: taken)) as [H1|H1].
        -- rewrite decide_True; [reflexivity|now rewrite Hperm].
        -- rewrite decide_False; [reflexivity|now rewrite Hperm].
Qed.

(** X20.  On a table of [N] usable slots, all free, [N] calls of
    [FindAndReserveEmptyEntry] return, in some order, each of the indices
    [1] to [N] once; every slot is then in use, and a further call
    panics. *)
Theorem reserve_every_slot starts m fuel :
  0 < entryNum (epoch m) -> 3 * entryNum (epoch m) < 2 ^ 32 ->
  (forall j, 1 <= j <= entryNum (epoch m) -> used m j = Some 0) ->
  Z.of_nat (length starts) = entryNum (epoch m) ->
  Forall (fun s => 0 <= s /\ s + entryNum (epoch m) < 2 ^ 63) starts ->
  exists idxs m',
    reserveAll (S fuel) starts m = Ok (idxs, m')
    /\ idxs ≡ₚ seqZ 1 (entryNum (epoch m))
    /\ core m' = core m
    /\ (forall j, 1 <= j <= entryNum (epoch m) -> used m' j = Some 1)
    /\ forall s fuel',
         0 <= s -> s + entryNum (epoch m) < 2 ^ 63 ->
         FindAndReserveEmptyEntry (4 + fuel') s m' = Panic.
Proof.
  intros Hn H3 Hfree Hlen Hst.
  assert (Hin0 : forall j : Z, j ∈ @nil Z -> 1 <= j <= entryNum (epoch m))
    by (intros j Hj; now apply elem_of_nil in Hj).
  assert (Hused0 : forall j, 1 <= j <= entryNum (epoch m) ->
            used m j = Some (if decide (j ∈ @nil Z) then 1 else 0))
    by (intros j Hj; rewrite (Hfree j Hj); reflexivity).
  destruct (reserveAll_spec fuel (entryNum (epoch m)) starts m []
              eq_refl ltac:(lia) (NoDup_nil_2 (A:=Z)) Hin0 Hused0
              ltac:(cbn [length]; lia) Hst)
    as (idxs & m' & Hr & HN & Hc & Hl & Hnd & Hin & Hused).
  rewrite app_nil_r in Hnd.
  assert (Hperm : idxs ≡ₚ seqZ 1 (entryNum (epoch m))).
    { apply submseteq_length_Permutation.
      - apply NoDup_submseteq; [exact Hnd|].
        intros x Hx. apply elem_of_seqZ. specialize (Hin x Hx). lia.
      - rewrite length_seqZ. lia. }
    assert (Hall : forall j, 1 <= j <= entryNum (epoch m) ->
                     used m' j = Some 1).
    { intros j Hj. rewrite (Hused j Hj), app_nil_r.
      rewrite decide_True; [reflexivity|].
      rewrite Hperm. apply elem_of_seqZ. lia. }
    exists idxs, m'. split; [exact Hr|]. split; [exact Hperm|].
    split; [exact Hc|]. split; [exact Hall|].
    intros s fuel' Hs0 Hs1.
    apply FindAndReserveEmptyEntry_panics; rewrite ?HN; try lia.
    intros j Hj. exists 1. split; [now apply Hall|lia].
Qed.

Lemma reserve_every_slot_witness :
  exists m0,
    NewLightEpoch 4100 3 = Ok m0
    /\ exists idxs m',
         reserveAll 1 [7; 7; 100] m0 = Ok (idxs, m')
         /\ idxs ≡ₚ seqZ 1 (entryNum (epoch m0))
         /\ core m' = core m0
         /\ (forall j, 1 <= j <= entryNum (epoch m0) -> used m' j = Some 1)
         /\ forall s fuel',
              0 <= s -> s + entryNum (epoch m0) < 2 ^ 63 ->
              FindAndReserveEmptyEntry (4 + fuel') s m' = Panic.
Proof.
  destruct (NewLightEpoch_eq 4100 3) as (p & buf & Hm & Hbuf); [lia..|].
  eexists. split; [exact Hm|].
  apply (reserve_every_slot [7; 7; 100] _ 0).
  - cbn. lia.
  - cbn. lia.
  - intros j Hj. cbn in Hj.
    unfold used. cbn [aliased epoch tableUsed]. apply nth_Z_replicate. lia.
  - reflexivity.
  - cbn [aliased epoch entryNum]. repeat constructor; lia.
Defined.

Lemma upd_Z_id {A} (l : list A) i x :
  nth_Z l i = Some x -> upd_Z l i x = l.
Proof.
  unfold nth_Z, upd_Z. destruct (Z.ltb_spec i 0); [discriminate|].
  apply list_insert_id.
Qed.

(** X21.  [ReleaseEntry] undoes a reservation: after
    [FindAndReserveEmptyEntry] has returned [idx], [ReleaseEntry(idx)]
    leaves the in-use flags as they were before the reservation, and the
    entry of slot [idx] initialized, that is unprotected, with nesting
    count 0 and the phase marker [RestPhase]. *)
Theorem ReleaseEntry_undoes_reservation startIdx m fuel :
  0 < entryNum (epoch m) < 2 ^ 32 ->
  0 <= startIdx -> startIdx + entryNum (epoch m) < 2 ^ 63 ->
  (forall j, 1 <= j <= entryNum (epoch m) -> is_Some (used m j)) ->
  (exists j, 1 <= j <= entryNum (epoch m) /\ used m j = Some 0) ->
  readable m ->
  exists idx m1 m2,
    FindAndReserveEmptyEntry (S fuel) startIdx m = Ok (idx, m1)
    /\ used m1 idx = Some 1
    /\ ReleaseEntry idx m1 = Ok (tt, m2)
    /\ tableUsed (epoch m2) = tableUsed (epoch m)
    /\ slot m2 idx = Some (mkEntry 0 0 RestPhase)
    /\ IsProtected idx m2 = Ok (false, m2).
Proof.
  intros Hn Hs Hw Hall Hfree Hread.
  destruct (FindAndReserveEmptyEntry_reserves startIdx m Hn Hs Hw fuel)
    as (idx & Hidx & Hu & Hr); [|exact Hfree|].
  { intros j Hj. destruct (Hall j Hj) as [u Hu]. eauto. }
  set (m1 := upd_epoch _ m) in Hr.
  destruct (Hread idx Hidx) as [en Hen].
  apply slot_Some_inv in Hen as (p & Hp & Hv & ->).
  assert (Hu1 : used m1 idx = Some 1).
  { unfold m1. rewrite (used_after_reserve _ _ _ _ Hu). now rewrite decide_True. }
  set (m2 := upd_epoch (fun e => set_tableUsed (upd_Z (tableUsed e) idx 0) e)
               (withEntry m1 p (mkEntry 0 0 RestPhase))).
  assert (Hrel : ReleaseEntry idx m1 = Ok (tt, m2)).
  { unfold ReleaseEntry.
    rewrite bind_eq, (tableAt_eq m1 idx p Hp).
    rewrite bind_eq, (updEntry_eq m1 p _ Hv), initialize_eq.
    unfold setTableUsedAt.
    rewrite bind_eq. rewrite (tableUsedAt_eq _ idx 1) by exact Hu1.
    reflexivity. }
  assert (Hs2 : slot m2 idx = Some (mkEntry 0 0 RestPhase)).
  { unfold slot. change (table (epoch m2)) with (table (epoch m)).
    rewrite Hp. change (valid m2 p) with (valid m p). rewrite Hv.
    f_equal. unfold m2, entryOf, withEntry. cbn [cells upd_epoch set_cells].
    now rewrite lookup_insert_eq. }
  exists idx, m1, m2. split; [exact Hr|]. split; [exact Hu1|].
  split; [exact Hrel|]. split; [|split; [exact Hs2|]].
  - unfold m2, m1. cbn [epoch upd_epoch withEntry set_cells tableUsed set_tableUsed].
    rewrite upd_Z_upd_Z. now apply upd_Z_id.
  - unfold IsProtected. now rewrite (read_slot _ _ _ _ Hs2).
Qed.

Lemma ReleaseEntry_undoes_reservation_witness :
  exists m0,
    NewLightEpoch 4100 3 = Ok m0
    /\ exists idx m1 m2,
         FindAndReserveEmptyEntry 1 5 m0 = Ok (idx, m1)
         /\ used m1 idx = Some 1
         /\ ReleaseEntry idx m1 = Ok (tt, m2)
         /\ tableUsed (epoch m2) = tableUsed (epoch m0)
         /\ slot m2 idx = Some (mkEntry 0 0 RestPhase)
         /\ IsProtected idx m2 = Ok (false, m2).
Proof.
  destruct (NewLightEpoch_eq 4100 3) as (p & buf & Hm & Hbuf); [lia..|].
  eexists. split; [exact Hm|].
  apply (ReleaseEntry_undoes_reservation 5 _ 0).
  - cbn. lia.
  - lia.
  - cbn. lia.
  - intros j Hj. cbn in Hj. exists 0.
    unfold used. cbn [aliased epoch tableUsed]. apply nth_Z_replicate. lia.
  - exists 1. split; [cbn; lia|reflexivity].
  - now apply aliased_readable.
Defined.

End ReserveMore.

(** *** Protection of a slot *)

Section ProtectMore.
Import PtrTable.

Lemma slot_withEntry_at m p en j q :
  nth_Z (table (epoch m)) j = Some q -> valid m q = true ->
  slot (withEntry m p en) j
  = Some (if decide (q = p) then en else entryOf m q).
Proof.
  intros Hq Hv. unfold slot.
  change (table (epoch (withEntry m p en))) with (table (epoch m)).
  rewrite Hq. change (valid (withEntry m p en) q) with (valid m q).
  rewrite Hv. f_equal. unfold entryOf, withEntry. cbn [cells set_cells].
  destruct (decide (q = p)) as [->|Hne].
  - now rewrite lookup_insert_eq.
  - now rewrite lookup_insert_ne by congruence.
Qed.

(** X22.  [Protect(i)] writes the current epoch into the entry that slot
    [i] points to and returns it, and [Unprotect(i)] writes 0 there: a
    slot that holds another pointer is left as it was, a slot that holds
    the same pointer changes with slot [i].  The operations themselves
    keep apart the slots that [NewLightEpoch] would have to keep apart. *)
Theorem Protect_writes_the_pointee m i p :
  nth_Z (table (epoch m)) i = Some p -> valid m p = true ->
  exists m1 m2,
    Protect i m = Ok (atomicCurrentEpoch (epoch m), m1)
    /\ Unprotect i m1 = Ok (tt, m2)
    /\ IsProtected i m1 = Ok (negb (atomicCurrentEpoch (epoch m) =? 0), m1)
    /\ IsProtected i m2 = Ok (false, m2)
    /\ epoch m1 = epoch m /\ epoch m2 = epoch m
    /\ forall j q,
         nth_Z (table (epoch m)) j = Some q -> valid m q = true ->
         slot m1 j
         = Some (if decide (q = p)
                 then set_localCurrentEpoch (atomicCurrentEpoch (epoch m))
                        (entryOf m p)
                 else entryOf m q)
         /\ slot m2 j
            = Some (if decide (q = p)
                    then set_localCurrentEpoch 0 (entryOf m p)
                    else entryOf m q).
Proof.
  intros Hp Hv.
  set (cur := atomicCurrentEpoch (epoch m)).
  set (m1 := withEntry m p (set_localCurrentEpoch cur (entryOf m p))).
  set (m2 := withEntry m p (set_localCurrentEpoch 0 (entryOf m p))).
  assert (Hv1 : valid m1 p = true) by exact Hv.
  assert (He1 : entryOf m1 p = set_localCurrentEpoch cur (entryOf m p))
    by (unfold m1, entryOf, withEntry; cbn [cells set_cells];
        now rewrite lookup_insert_eq).
  assert (HP : Protect i m = Ok (cur, m1)).
  { unfold Protect. rewrite bind_eq, (tableAt_eq _ _ _ Hp).
    rewrite bind_eq, load_eq. fold cur.
    rewrite bind_eq, (updEntry_eq _ _ _ Hv). fold (withEntry m p
      (set_localCurrentEpoch cur (entryOf m p))). fold m1.
    rewrite bind_eq, (loadEntry_eq _ _ Hv1), He1. reflexivity. }
  assert (HU : Unprotect i m1 = Ok (tt, m2)).
  { unfold Unprotect.
    rewrite bind_eq, (tableAt_eq m1 i p Hp), (updEntry_eq _ _ _ Hv1), He1.
    unfold m1, m2, withEntry, set_cells. cbn [cells epoch tableBuf fired].
    now rewrite insert_insert_eq. }
  assert (Hs1 : forall j q, nth_Z (table (epoch m)) j = Some q ->
                  valid m q = true ->
                  slot m1 j = Some (if decide (q = p)
                                    then set_localCurrentEpoch cur (entryOf m p)
                                    else entryOf m q))
    by (intros j q; apply slot_withEntry_at).
  assert (Hs2 : forall j q, nth_Z (table (epoch m)) j = Some q ->
                  valid m q = true ->
                  slot m2 j = Some (if decide (q = p)
                                    then set_localCurrentEpoch 0 (entryOf m p)
                                    else entryOf m q))
    by (intros j q; apply slot_withEntry_at).
  exists m1, m2. split; [exact HP|]. split; [exact HU|]. split; [|split].
  - unfold IsProtected.
    rewrite (read_slot _ _ _ _ (Hs1 i p Hp Hv)), decide_True by reflexivity.
    reflexivity.
  - unfold IsProtected.
    rewrite (read_slot _ _ _ _ (Hs2 i p Hp Hv)), decide_True by reflexivity.
    reflexivity.
  - split; [reflexivity|]. split; [reflexivity|].
    intros j q Hq Hvq. split; [now apply Hs1|now apply Hs2].
Qed.

Lemma Protect_writes_the_pointee_witness :
  exists m0 p,
    NewLightEpoch 4100 3 = Ok m0
    /\ exists m1 m2,
         Protect 2 m0 = Ok (atomicCurrentEpoch (epoch m0), m1)
         /\ Unprotect 2 m1 = Ok (tt, m2)
         /\ IsProtected 2 m1
            = Ok (negb (atomicCurrentEpoch (epoch m0) =? 0), m1)
         /\ IsProtected 2 m2 = Ok (false, m2)
         /\ epoch m1 = epoch m0 /\ epoch m2 = epoch m0
         /\ forall j q,
              nth_Z (table (epoch m0)) j = Some q -> valid m0 q = true ->
              slot m1 j
              = Some (if decide (q = p)
                      then set_localCurrentEpoch (atomicCurrentEpoch (epoch m0))
                             (entryOf m0 p)
                      else entryOf m0 q)
              /\ slot m2 j
                 = Some (if decide (q = p)
                         then set_localCurrentEpoch 0 (entryOf m0 p)
                         else entryOf m0 q).
Proof.
  destruct (NewLightEpoch_eq 4100 3) as (p & buf & Hm & Hbuf); [lia..|].
  eexists _, p. split; [exact Hm|].
  apply (Protect_writes_the_pointee _ 2 p).
  - apply aliased_table; [exact Hbuf|lia].
  - now apply aliased_valid.
Defined.

(** X23.  Nested protection with the table of pointers: on the table
    built by [NewLightEpoch], after [k] calls of [ReentrantProtect(i)]
    the slot stays protected across the first [k - 1] calls of
    [ReentrantUnprotect(i)], and the [k]-th call resets its epoch
    to 0. *)
Theorem Reentrant_nesting_on_new_table addr size i k :
  0 <= size < 2 ^ 26 - 2 -> 0 <= addr ->
  addr + ((size + 2) * 64 + 63) <= 2 ^ 64 ->
  0 <= i < size + 2 -> (0 < k)%nat -> Z.of_nat k < 2 ^ 32 ->
  exists m0 mk,
    NewLightEpoch addr size = Ok m0
    /\ exec (repeatM k (ReentrantProtect i)) m0 = Ok mk
    /\ (forall j, (j < k)%nat ->
          exists mj,
            exec (repeatM j (ReentrantUnprotect i)) mk = Ok mj
            /\ IsProtected i mj = Ok (true, mj))
    /\ exists m',
         exec (repeatM k (ReentrantUnprotect i)) mk = Ok m'
         /\ IsProtected i m' = Ok (false, m').
Proof.
  intros Hs Ha He Hi Hk0 Hk.
  destruct (NewLightEpoch_eq addr size Hs Ha He) as (p & buf & Hm & Hbuf).
  destruct (PtrTable_Reentrant_nesting
              (aliased p buf size 1 0 (mkEntry 0 0 RestPhase) 0
                 (replicate 256 freeAction) []) i p) with (k := k)
    as (mk & H1 & H2 & H3).
  - now apply aliased_table.
  - now apply aliased_valid.
  - now rewrite (aliased_entryOf p buf size Hbuf).
  - cbn. lia.
  - exact Hk0.
  - exact Hk.
  - eexists _, mk. split; [exact Hm|]. split; [exact H1|].
    split; [exact H2|exact H3].
Qed.

Lemma Reentrant_nesting_on_new_table_witness :
  exists m0 mk,
    NewLightEpoch 4100 3 = Ok m0
    /\ exec (repeatM 4 (ReentrantProtect 2)) m0 = Ok mk
    /\ (forall j, (j < 4)%nat ->
          exists mj,
            exec (repeatM j (ReentrantUnprotect 2)) mk = Ok mj
            /\ IsProtected 2 mj = Ok (true, mj))
    /\ exists m',
         exec (repeatM 4 (ReentrantUnprotect 2)) mk = Ok m'
         /\ IsProtected 2 m' = Ok (false, m').
Proof.
  apply (Reentrant_nesting_on_new_table 4100 3 2 4); lia.
Defined.

End ProtectMore.

(** ** Draining and registering actions *)

Section DrainMore.
Import PtrTable.

Lemma with_drains_self m :
  with_drains m (drainList (epoch m)) (atomicDrainCount (epoch m)) (fired m)
  = m.
Proof. now destruct m as [[]]. Qed.

Lemma with_drains_twice m dl c f dl' c' f' :
  with_drains (with_drains m dl c f) dl' c' f' = with_drains m dl' c' f'.
Proof. reflexivity. Qed.

Lemma nth_Z_middle {A} (pre suf : list A) x :
  nth_Z (pre ++ x :: suf) (Z.of_nat (length pre)) = Some x.
Proof.
  rewrite nth_Z_lookup, Nat2Z.id by lia.
  now rewrite lookup_app_r, Nat.sub_diag by lia.
Qed.

Lemma upd_Z_middle {A} (pre suf : list A) x y :
  upd_Z (pre ++ x :: suf) (Z.of_nat (length pre)) y = pre ++ y :: suf.
Proof.
  unfold upd_Z. destruct (Z.ltb_spec (Z.of_nat (length pre)) 0); [lia|].
  rewrite Nat2Z.id, insert_app_r_alt, Nat.sub_diag by lia. reflexivity.
Qed.

Lemma isFree_true a : isFree a = true <-> atomicEpoch a = epochFree.
Proof. unfold isFree. apply Z.eqb_eq. Qed.

Lemma isFree_false a : isFree a = false <-> atomicEpoch a <> epochFree.
Proof. unfold isFree. apply Z.eqb_neq. Qed.

(** The number of waiting actions of a list. *)
Local Abbreviation count_waiting l :=
  (Z.of_nat (length (filter (fun a => isFree a = false) l))).

Lemma count_waiting_app l1 l2 :
  count_waiting (l1 ++ l2) = count_waiting l1 + count_waiting l2.
Proof. rewrite filter_app, length_app. lia. Qed.

Lemma count_waiting_cons a l :
  count_waiting (a :: l)
  = (if isFree a then 0 else 1) + count_waiting l.
Proof.
  destruct (isFree a) eqn:E.
  - rewrite filter_cons_False by congruence. lia.
  - rewrite filter_cons_True by assumption. cbn [length]. lia.
Qed.

Lemma count_waiting_nonneg (l : list epochAction) : 0 <= count_waiting l.
Proof. lia. Qed.

Lemma invoked_by_cons safe a l :
  invoked_by safe (a :: l)
  = (if atomicEpoch a <=? safe
     then match callback a with Some f => [(f, ctx a)] | None => [] end
     else []) ++ invoked_by safe l.
Proof.
  unfold invoked_by. cbn [omap list_omap].
  destruct (atomicEpoch a <=? safe); [|reflexivity].
  destruct (callback a); reflexivity.
Qed.

Lemma drained_cons safe a l :
  drained safe (a :: l)
  = (if atomicEpoch a <=? safe then freeAction else a) :: drained safe l.
Proof. reflexivity. Qed.

(** A list without waiting action is not touched by a drain. *)
Lemma drained_all_free safe l :
  safe < epochFree -> count_waiting l = 0 ->
  drained safe l = l /\ invoked_by safe l = [].
Proof.
  intros Hs. induction l as [|a l IH]; intros Hc; [auto|].
  rewrite count_waiting_cons in Hc.
  destruct (isFree a) eqn:E; [|lia].
  destruct IH as [IH1 IH2]; [lia|].
  apply isFree_true in E. rewrite drained_cons, invoked_by_cons.
  destruct (Z.leb_spec (atomicEpoch a) safe); [lia|].
  now rewrite IH1, IH2.
Qed.

Lemma tryPop_with_drains m dl c f i a g :
  nth_Z dl i = Some a -> callback a = Some g ->
  tryPop i (atomicEpoch a) (with_drains m dl c f)
  = Ok (true, with_drains m (upd_Z dl i freeAction) c (f ++ [(g, ctx a)])).
Proof.
  intros Ha Hg.
  now rewrite (tryPop_eq (with_drains m dl c f) i a g Ha Hg).
Qed.

Lemma action_ok_free : action_ok freeAction.
Proof.
  unfold action_ok. change (isFree freeAction) with true. split; reflexivity.
Qed.

Lemma addDrainCount_with_drains m dl c f delta :
  addDrainCount delta (with_drains m dl c f)
  = Ok (u32 (c + delta), with_drains m dl (u32 (c + delta)) f).
Proof. reflexivity. Qed.

(** A free slot is never popped: its callback is nil. *)
Lemma tryPop_nil_callback m i a :
  nth_Z (drainList (epoch m)) i = Some a -> callback a = None ->
  tryPop i (atomicEpoch a) m = Panic.
Proof.
  intros Ha Hf. unfold tryPop, casActionEpoch.
  rewrite bind_eq, bind_eq, (actionAt_eq _ _ _ Ha), Z.eqb_refl.
  rewrite bind_eq, (updAction_eq _ _ _ _ Ha).
  set (m1 := upd_epoch _ m).
  assert (H1 : nth_Z (drainList (epoch m1)) i
               = Some (set_atomicEpoch epochLocked a)).
  { unfold m1. rewrite drainList_upd. eapply nth_Z_upd_eq, Ha. }
  cbn [mret M_ret]. rewrite bind_eq, (actionAt_eq _ _ _ H1). cbv zeta.
  rewrite bind_eq, (updAction_eq _ _ _ _ H1).
  set (m2 := upd_epoch _ m1).
  assert (H2 : nth_Z (drainList (epoch m2)) i
               = Some (set_callback None (set_atomicEpoch epochLocked a))).
  { unfold m2. rewrite drainList_upd. eapply nth_Z_upd_eq, H1. }
  rewrite bind_eq, (updAction_eq _ _ _ _ H2).
  set (m3 := upd_epoch _ m2).
  assert (H3 : nth_Z (drainList (epoch m3)) i
               = Some (set_ctx None (set_callback None
                                       (set_atomicEpoch epochLocked a)))).
  { unfold m3. rewrite drainList_upd. eapply nth_Z_upd_eq, H2. }
  rewrite bind_eq, (updAction_eq _ _ _ _ H3).
  cbn [set_atomicEpoch callback ctx]. rewrite Hf. reflexivity.
Qed.

(** The scan of the drain list by [Drain], on a consistent list and with
    a safe epoch below [epochFree]: the slots that are due are popped, in
    order, and the count follows. *)
Lemma drainLoop_spec m : forall suf pre count f,
  atomicSafeToReclaimEpoch (epoch m) < epochFree ->
  Forall action_ok (pre ++ suf) ->
  count = count_waiting (pre ++ suf) -> count < 2 ^ 32 ->
  drainLoop (length suf) (Z.of_nat (length pre))
    (with_drains m (pre ++ suf) count f)
  = Ok (tt,
        with_drains m
          (pre ++ drained (atomicSafeToReclaimEpoch (epoch m)) suf)
          (count - Z.of_nat (length (invoked_by
                                       (atomicSafeToReclaimEpoch (epoch m)) suf)))
          (f ++ invoked_by (atomicSafeToReclaimEpoch (epoch m)) suf)).
Proof.
  set (safe := atomicSafeToReclaimEpoch (epoch m)).
  induction suf as [|a suf IH]; intros pre count f Hsafe Hok Hc Hlt.
  - cbn [length drainLoop]. unfold drained, invoked_by.
    cbn [map omap list_omap length].
    now rewrite Z.sub_0_r, !app_nil_r.
  - cbn [length]. rewrite drainLoop_S.
    rewrite bind_eq, (actionAt_eq _ _ a) by apply nth_Z_middle.
    cbv zeta. rewrite bind_eq, load_eq.
    change (atomicSafeToReclaimEpoch (epoch (with_drains m (pre ++ a :: suf) count f)))
      with safe.
    assert (Ha : action_ok a).
    { rewrite Forall_app in Hok. destruct Hok as [_ Hok].
      now apply Forall_cons in Hok as [Ha _]. }
    rewrite drained_cons, invoked_by_cons.
    rewrite count_waiting_app, count_waiting_cons in Hc.
    destruct (Z.leb_spec (atomicEpoch a) safe) as [Hdue|Hnot].
    + unfold action_ok in Ha. destruct (isFree a) eqn:Efree.
      { apply isFree_true in Efree. lia. }
      destruct Ha as [Hrange Hcb].
      destruct (callback a) as [g|] eqn:Eg; [|contradiction].
      rewrite bind_eq, (tryPop_with_drains _ _ _ _ _ a g)
        by (apply nth_Z_middle || exact Eg).
      rewrite upd_Z_middle.
      rewrite bind_eq, addDrainCount_with_drains.
      pose proof (count_waiting_nonneg pre). pose proof (count_waiting_nonneg suf).
      assert (Hu : u32 (count + (2 ^ 32 - 1)) = count - 1).
      { unfold u32. replace (count + (2 ^ 32 - 1)) with (count - 1 + 1 * 2 ^ 32) by lia.
        rewrite Z_mod_plus_full. apply Z.mod_small. lia. }
      rewrite Hu. rewrite length_app. cbn [length].
      destruct (Z.eqb_spec (count - 1) 0) as [E0|E0].
      * destruct (drained_all_free safe suf Hsafe ltac:(lia)) as [-> ->].
        cbn [mret M_ret length]. rewrite app_nil_r.
        do 2 f_equal; try (f_equal; lia).
      * replace (pre ++ freeAction :: suf) with ((pre ++ [freeAction]) ++ suf)
          by (now rewrite <- app_assoc).
        replace (Z.of_nat (length pre) + 1)
          with (Z.of_nat (length (pre ++ [freeAction])))
          by (rewrite length_app; cbn [length]; lia).
        rewrite IH.
        -- rewrite <- !app_assoc. cbn [app]. do 2 f_equal. f_equal. lia.
        -- exact Hsafe.
        -- rewrite <- app_assoc. cbn [app].
           apply Forall_app in Hok as [Hp Hs]. apply Forall_cons in Hs as [_ Hs].
           apply Forall_app. split; [exact Hp|]. constructor; [|exact Hs].
           apply action_ok_free.
        -- rewrite <- app_assoc. cbn [app].
           rewrite count_waiting_app, count_waiting_cons.
           change (isFree freeAction) with true. lia.
        -- lia.
    + replace (pre ++ a :: suf) with ((pre ++ [a]) ++ suf)
        by (now rewrite <- app_assoc).
      replace (Z.of_nat (length pre) + 1)
        with (Z.of_nat (length (pre ++ [a])))
        by (rewrite length_app; cbn [length]; lia).
      rewrite IH.
      * rewrite <- !app_assoc. reflexivity.
      * exact Hsafe.
      * now rewrite <- app_assoc.
      * rewrite <- app_assoc. cbn [app].
        rewrite count_waiting_app, count_waiting_cons. exact Hc.
      * exact Hlt.
Qed.

(** What a drain leaves is consistent, and the count follows. *)
Lemma drained_ok safe l :
  safe < epochFree -> Forall action_ok l ->
  Forall action_ok (drained safe l)
  /\ count_waiting (drained safe l)
     = count_waiting l - Z.of_nat (length (invoked_by safe l))
  /\ forall f,
       (length (filter (fun a => callback a = Some f) (drained safe l))
        + length (filter (fun c => c.1 = f) (invoked_by safe l))
        = length (filter (fun a => callback a = Some f) l))%nat.
Proof.
  intros Hs. induction l as [|a l IH]; intros Hok.
  - split; [constructor|]. split; [reflexivity|]. reflexivity.
  - apply Forall_cons in Hok as [Ha Hok].
    destruct (IH Hok) as (IH1 & IH2 & IH3).
    rewrite drained_cons, invoked_by_cons.
    rewrite !count_waiting_cons, IH2, length_app.
    unfold action_ok in Ha.
    destruct (Z.leb_spec (atomicEpoch a) safe) as [Hdue|Hnot].
    + destruct (isFree a) eqn:Efree.
      { apply isFree_true in Efree. lia. }
      destruct Ha as [Hr Hcb].
      destruct (callback a) as [g|] eqn:Eg; [|contradiction].
      change (isFree freeAction) with true. cbn [length].
      split; [constructor; [apply action_ok_free|exact IH1]|].
      split; [lia|]. intros f. specialize (IH3 f).
      rewrite (filter_cons_False _ freeAction) by discriminate.
      cbn [app].
      destruct (decide (g = f)) as [->|Hne].
      * rewrite (filter_cons_True _ (f, ctx a)) by reflexivity.
        rewrite (filter_cons_True _ a) by assumption.
        cbn [length]. lia.
      * rewrite (filter_cons_False _ (g, ctx a)) by (cbn; congruence).
        rewrite (filter_cons_False _ a) by congruence.
        exact IH3.
    + cbn [app length].
      split; [constructor; [exact Ha|exact IH1]|].
      split; [lia|]. intros f. specialize (IH3 f).
      destruct (decide (callback a = Some f)) as [E|E].
      * rewrite !(filter_cons_True _ a) by assumption. cbn [length]. lia.
      * rewrite !(filter_cons_False _ a) by assumption. exact IH3.
Qed.

(** [Drain] once its scan of the table has returned [o]. *)
Lemma Drain_after_scan x m o :
  scanTable (Z.to_nat (entryNum (epoch m))) 1 x m = Ok (o, m) ->
  1 <= o <= 2 ^ 64 - 1 -> drain_list_ok m ->
  Drain x m
  = Ok (tt,
        with_drains (upd_epoch (set_atomicSafeToReclaimEpoch (o - 1)) m)
          (drained (o - 1) (drainList (epoch m)))
          (atomicDrainCount (epoch m)
           - Z.of_nat (length (invoked_by (o - 1) (drainList (epoch m)))))
          (fired m ++ invoked_by (o - 1) (drainList (epoch m)))).
Proof.
  intros Hscan Ho (Hlen & Hok & Hcount).
  unfold Drain, ComputeNewSafeToReclaimEpoch.
  rewrite bind_eq, bind_eq, load_eq, bind_eq, Hscan.
  rewrite bind_eq. cbn [store modify]. rewrite load_eq.
  rewrite (u64_small (o - 1)) by lia.
  set (m1 := upd_epoch (set_atomicSafeToReclaimEpoch (o - 1)) m).
  pose proof (drainLoop_spec m1 (drainList (epoch m)) []
                (atomicDrainCount (epoch m)) (fired m)) as H.
  cbn [app length] in H.
  change (with_drains m1 (drainList (epoch m)) (atomicDrainCount (epoch m))
            (fired m)) with m1 in H.
  change (atomicSafeToReclaimEpoch (epoch m1)) with (o - 1) in H.
  rewrite Hlen in H. apply H.
  - unfold epochFree. lia.
  - exact Hok.
  - exact Hcount.
  - rewrite Hcount. unfold waiting.
    pose proof (length_filter (fun a => isFree a = false) (drainList (epoch m))).
    rewrite Hlen in *. change (Z.to_nat drainListSize) with 256%nat in *. lia.
Qed.

(** The value that the scan of an admissible [Drain] finds. *)
Lemma scan_above_safe x m o :
  epochs_ordered m ->
  atomicSafeToReclaimEpoch (epoch m) < x <= atomicCurrentEpoch (epoch m) ->
  scanTable (Z.to_nat (entryNum (epoch m))) 1 x m = Ok (o, m) ->
  atomicSafeToReclaimEpoch (epoch m) < o <= x
  /\ forall k en, 1 <= k <= entryNum (epoch m) -> slot m k = Some en ->
       localCurrentEpoch en <> Unprotected -> o <= localCurrentEpoch en.
Proof.
  intros (Hs & Hc & Hb) Hx Hscan.
  apply scanTable_spec in Hscan as (_ & Hle & Hall & Hex).
  split.
  - split; [|exact Hle].
    destruct Hex as [->|(k & en & Hk & Hsl & Hp & ->)]; [lia|].
    specialize (Hb k en ltac:(lia) Hsl Hp). lia.
  - intros k en Hk. apply Hall. lia.
Qed.

Lemma Drain_returns x m :
  epochs_ordered m -> drain_list_ok m -> readable m ->
  atomicSafeToReclaimEpoch (epoch m) < x <= atomicCurrentEpoch (epoch m) ->
  atomicCurrentEpoch (epoch m) < 2 ^ 64 ->
  exists o,
    Drain x m
    = Ok (tt,
          with_drains (upd_epoch (set_atomicSafeToReclaimEpoch (o - 1)) m)
            (drained (o - 1) (drainList (epoch m)))
            (atomicDrainCount (epoch m)
             - Z.of_nat (length (invoked_by (o - 1) (drainList (epoch m)))))
            (fired m ++ invoked_by (o - 1) (drainList (epoch m))))
    /\ atomicSafeToReclaimEpoch (epoch m) < o <= x
    /\ forall k en, 1 <= k <= entryNum (epoch m) -> slot m k = Some en ->
         localCurrentEpoch en <> Unprotected -> o <= localCurrentEpoch en.
Proof.
  intros Hord Hok Hread Hx Hcur.
  destruct (scanTable_returns (Z.to_nat (entryNum (epoch m))) 1 x m)
    as [o Ho].
  { intros k Hk. apply Hread. lia. }
  destruct (scan_above_safe x m o Hord Hx Ho) as [Hr Hall].
  exists o. split; [|split; assumption].
  apply Drain_after_scan; [exact Ho| |exact Hok].
  destruct Hord as ((H0 & _) & _). lia.
Qed.

(** The value that [Drain] stores is one less than an epoch that is
    attained: it is [x] or the epoch of a protected usable slot. *)
Lemma Drain_returns_oldest x m :
  epochs_ordered m -> drain_list_ok m -> readable m ->
  atomicSafeToReclaimEpoch (epoch m) < x <= atomicCurrentEpoch (epoch m) ->
  atomicCurrentEpoch (epoch m) < 2 ^ 64 ->
  exists o,
    Drain x m
    = Ok (tt,
          with_drains (upd_epoch (set_atomicSafeToReclaimEpoch (o - 1)) m)
            (drained (o - 1) (drainList (epoch m)))
            (atomicDrainCount (epoch m)
             - Z.of_nat (length (invoked_by (o - 1) (drainList (epoch m)))))
            (fired m ++ invoked_by (o - 1) (drainList (epoch m))))
    /\ atomicSafeToReclaimEpoch (epoch m) < o <= x
    /\ (forall k en, 1 <= k <= entryNum (epoch m) -> slot m k = Some en ->
          localCurrentEpoch en <> Unprotected -> o <= localCurrentEpoch en)
    /\ (o = x
        \/ exists k en, 1 <= k <= entryNum (epoch m) /\ slot m k = Some en
                        /\ localCurrentEpoch en <> Unprotected
                        /\ o = localCurrentEpoch en).
Proof.
  intros Hord Hok Hread Hx Hcur.
  destruct (scanTable_returns (Z.to_nat (entryNum (epoch m))) 1 x m)
    as [o Ho].
  { intros k Hk. apply Hread. lia. }
  destruct (scan_above_safe x m o Hord Hx Ho) as [Hr Hall].
  exists o. split; [|split; [exact Hr|split; [exact Hall|]]].
  - apply Drain_after_scan; [exact Ho| |exact Hok].
    destruct Hord as ((H0 & _) & _). lia.
  - apply scanTable_spec in Ho as (_ & _ & _ & Hex).
    destruct Hex as [->|(k & en & Hk & Hsl & Hp & ->)]; [now left|].
    right. exists k, en. split; [lia|]. split; [exact Hsl|].
    split; [exact Hp|reflexivity].
Qed.

Lemma Drain_inv x m m' :
  epochs_ordered m -> drain_list_ok m ->
  atomicSafeToReclaimEpoch (epoch m) < x <= atomicCurrentEpoch (epoch m) ->
  atomicCurrentEpoch (epoch m) < 2 ^ 64 ->
  Drain x m = Ok (tt, m') ->
  exists o,
    m' = with_drains (upd_epoch (set_atomicSafeToReclaimEpoch (o - 1)) m)
           (drained (o - 1) (drainList (epoch m)))
           (atomicDrainCount (epoch m)
            - Z.of_nat (length (invoked_by (o - 1) (drainList (epoch m)))))
           (fired m ++ invoked_by (o - 1) (drainList (epoch m)))
    /\ atomicSafeToReclaimEpoch (epoch m) < o <= x
    /\ forall k en, 1 <= k <= entryNum (epoch m) -> slot m k = Some en ->
         localCurrentEpoch en <> Unprotected -> o <= localCurrentEpoch en.
Proof.
  intros Hord Hok Hx Hcur H.
  assert (Hscan : exists o,
            scanTable (Z.to_nat (entryNum (epoch m))) 1 x m = Ok (o, m)).
  { unfold Drain, ComputeNewSafeToReclaimEpoch in H.
    apply bind_Ok_inv in H as (r & m2 & H1 & _).
    apply bind_Ok_inv in H1 as (num & m0 & H0 & H1). injection H0 as <- <-.
    apply bind_Ok_inv in H1 as (o & m0 & H0 & _).
    pose proof (scanTable_spec _ _ _ _ _ _ H0) as (-> & _).
    eauto. }
  destruct Hscan as [o Ho].
  destruct (scan_above_safe x m o Hord Hx Ho) as [Hr Hall].
  exists o. split; [|split; assumption].
  rewrite (Drain_after_scan x m o Ho) in H; [|destruct Hord as ((H0 & _) & _); lia|exact Hok].
  now injection H as <-.
Qed.

(** The state that an admissible [Drain] leaves. *)
Lemma drained_state_ok m o :
  epochs_ordered m -> drain_list_ok m ->
  atomicSafeToReclaimEpoch (epoch m) < o <= atomicCurrentEpoch (epoch m) ->
  atomicCurrentEpoch (epoch m) < 2 ^ 64 ->
  (forall k en, 1 <= k <= entryNum (epoch m) -> slot m k = Some en ->
     localCurrentEpoch en <> Unprotected -> o <= localCurrentEpoch en) ->
  epochs_ordered
    (with_drains (upd_epoch (set_atomicSafeToReclaimEpoch (o - 1)) m)
       (drained (o - 1) (drainList (epoch m)))
       (atomicDrainCount (epoch m)
        - Z.of_nat (length (invoked_by (o - 1) (drainList (epoch m)))))
       (fired m ++ invoked_by (o - 1) (drainList (epoch m))))
  /\ drain_list_ok
       (with_drains (upd_epoch (set_atomicSafeToReclaimEpoch (o - 1)) m)
          (drained (o - 1) (drainList (epoch m)))
          (atomicDrainCount (epoch m)
           - Z.of_nat (length (invoked_by (o - 1) (drainList (epoch m)))))
          (fired m ++ invoked_by (o - 1) (drainList (epoch m)))).
Proof.
  intros (Hs & Hc & Hb) (Hlen & Hok & Hcount) Ho Hcur Hall.
  destruct (drained_ok (o - 1) (drainList (epoch m))) as (D1 & D2 & _);
    [unfold epochFree; lia|exact Hok|].
  split.
  - split; [cbn; lia|]. split; [exact Hc|].
    intros k en Hk Hsl Hp. cbn in Hk |- *.
    specialize (Hall k en Hk Hsl Hp). lia.
  - split; [|split].
    + cbn [with_drains epoch drainList]. unfold drained.
      now rewrite length_map.
    + exact D1.
    + unfold waiting. cbn [with_drains epoch drainList atomicDrainCount].
      rewrite D2, Hcount. reflexivity.
Qed.

(** X24.  In a state with ordered epochs and a consistent drain list,
    [Drain(nextEpoch)] for an epoch above the safe epoch and at most the
    current one returns; it stores as safe epoch one less than the oldest
    epoch among [nextEpoch] and the protected usable slots (the new safe
    epoch is below [nextEpoch] and below the epoch of every protected
    usable slot, and it is one less than [nextEpoch] or one less than the
    epoch of one of these slots), and it invokes, in the order of the
    drain list, the callbacks of exactly the actions whose trigger epoch
    is at most that safe epoch, each with its own context: no action is
    run while a slot protected at or before its trigger epoch is still
    protected. *)
Theorem Drain_invokes_what_is_safe nextEpoch m :
  epochs_ordered m -> drain_list_ok m -> readable m ->
  atomicSafeToReclaimEpoch (epoch m) < nextEpoch
    <= atomicCurrentEpoch (epoch m) ->
  atomicCurrentEpoch (epoch m) < 2 ^ 64 ->
  exists safe m',
    Drain nextEpoch m = Ok (tt, m')
    /\ atomicSafeToReclaimEpoch (epoch m') = safe
    /\ atomicSafeToReclaimEpoch (epoch m) <= safe < nextEpoch
    /\ core m' = core (upd_epoch (set_atomicSafeToReclaimEpoch safe) m)
    /\ (forall k en, 1 <= k <= entryNum (epoch m) -> slot m k = Some en ->
          localCurrentEpoch en <> Unprotected -> safe < localCurrentEpoch en)
    /\ (safe = nextEpoch - 1
        \/ exists k en, 1 <= k <= entryNum (epoch m) /\ slot m k = Some en
                        /\ localCurrentEpoch en <> Unprotected
                        /\ safe = localCurrentEpoch en - 1)
    /\ fired m' = fired m ++ invoked_by safe (drainList (epoch m))
    /\ forall f c,
         (f, c) ∈ invoked_by safe (drainList (epoch m)) <->
         exists a, a ∈ drainList (epoch m) /\ callback a = Some f
                   /\ ctx a = c /\ atomicEpoch a <= safe.
Proof.
  intros Hord Hok Hread Hx Hcur.
  destruct (Drain_returns_oldest nextEpoch m Hord Hok Hread Hx Hcur)
    as (o & HD & Ho & Hall & Hex).
  exists (o - 1). eexists. split; [exact HD|]. split; [reflexivity|].
  split; [lia|]. split; [reflexivity|]. split.
  { intros k en Hk Hsl Hp. specialize (Hall k en Hk Hsl Hp). lia. }
  split.
  { destruct Hex as [->|(k & en & Hk & Hsl & Hp & ->)]; [now left|].
    right. exists k, en. split; [exact Hk|]. split; [exact Hsl|].
    split; [exact Hp|reflexivity]. }
  split; [reflexivity|].
  intros f c. unfold invoked_by. rewrite list_elem_of_omap.
  split.
  - intros (a & Ha & Hf). exists a. split; [exact Ha|].
    destruct (Z.leb_spec (atomicEpoch a) (o - 1)); [|discriminate].
    destruct (callback a) as [g|]; [|discriminate].
    injection Hf as <- <-. auto.
  - intros (a & Ha & Hf & Hc & Hle). exists a. split; [exact Ha|].
    destruct (Z.leb_spec (atomicEpoch a) (o - 1)); [|lia].
    rewrite Hf, Hc. reflexivity.
Qed.

(** X25.  Under the same conditions [Drain] leaves no action behind
    that is due: every action still in the drain list has a trigger epoch
    above the new safe epoch.  The drain list stays consistent, the drain
    count being the number of waiting actions; the epochs stay ordered;
    and for every callback the number of its invocations and of the
    slots that hold it add up to what they added up to before: an action
    is run once and then gone. *)
Theorem Drain_leaves_nothing_due nextEpoch m :
  epochs_ordered m -> drain_list_ok m -> readable m ->
  atomicSafeToReclaimEpoch (epoch m) < nextEpoch
    <= atomicCurrentEpoch (epoch m) ->
  atomicCurrentEpoch (epoch m) < 2 ^ 64 ->
  exists m',
    Drain nextEpoch m = Ok (tt, m')
    /\ epochs_ordered m' /\ drain_list_ok m'
    /\ (forall a, a ∈ drainList (epoch m') -> isFree a = false ->
          atomicSafeToReclaimEpoch (epoch m') < atomicEpoch a)
    /\ atomicDrainCount (epoch m') = Z.of_nat (length (waiting m'))
    /\ forall f,
         (invocations f m' + held f m' = invocations f m + held f m)%nat.
Proof.
  intros Hord Hok Hread Hx Hcur.
  destruct (Drain_returns nextEpoch m Hord Hok Hread Hx Hcur)
    as (o & HD & Ho & Hall).
  destruct (drained_state_ok m o Hord Hok ltac:(lia) Hcur Hall)
    as [Hord' Hok'].
  eexists. split; [exact HD|]. split; [exact Hord'|]. split; [exact Hok'|].
  split; [|split; [apply Hok'|]].
  - intros a Ha Hfree.
    cbn [with_drains epoch drainList atomicSafeToReclaimEpoch] in Ha |- *.
    unfold drained in Ha.
    apply (list_elem_of_fmap_1
             (fun a => if atomicEpoch a <=? o - 1 then freeAction else a))
      in Ha as (b & -> & Hb).
    change (atomicSafeToReclaimEpoch
              (epoch (upd_epoch (set_atomicSafeToReclaimEpoch (o - 1)) m)))
      with (o - 1).
    destruct (Z.leb_spec (atomicEpoch b) (o - 1)); [discriminate|lia].
  - intros f. destruct Hok as (_ & Hact & _).
    destruct (drained_ok (o - 1) (drainList (epoch m))) as (_ & _ & D3);
      [unfold epochFree; destruct Hord as ((? & ?) & _); lia|exact Hact|].
    specialize (D3 f). unfold invocations, held.
    cbn [with_drains epoch drainList fired].
    rewrite filter_app, length_app. lia.
Qed.

(** A state in which one action waits: the current epoch is 6, slot
    entries are protected at epoch 5 or not at all, and the first slot of
    the drain list holds an action with trigger epoch 5. *)
Lemma one_waiting_ok p buf size l cb cx f :
  within buf p 64 -> l = 0 \/ l = 5 ->
  epochs_ordered
    (aliased p buf size 6 0 (mkEntry l 0 RestPhase) 1
       (mkAction 5 (Some cb) cx :: replicate 255 freeAction) f)
  /\ drain_list_ok
       (aliased p buf size 6 0 (mkEntry l 0 RestPhase) 1
          (mkAction 5 (Some cb) cx :: replicate 255 freeAction) f)
  /\ readable
       (aliased p buf size 6 0 (mkEntry l 0 RestPhase) 1
          (mkAction 5 (Some cb) cx :: replicate 255 freeAction) f).
Proof.
  intros Hbuf Hl. split; [|split].
  - split; [cbn; lia|]. split.
    + cbn [aliased cells]. intros q en H.
      apply lookup_singleton_Some in H as [_ <-]. cbn. lia.
    + intros i en Hi Hsl Hp.
      apply (aliased_slot_inv p buf size Hbuf) in Hsl as ->.
      cbn in Hp |- *. unfold Unprotected in Hp. lia.
  - split; [reflexivity|]. split; [|reflexivity].
    constructor.
    + unfold action_ok. cbn. unfold epochLocked. split; [lia|discriminate].
    + apply Forall_replicate, action_ok_free.
  - now apply aliased_readable.
Qed.

Lemma Drain_invokes_what_is_safe_witness :
  exists safe m',
    Drain 6
      (aliased 4224 (mkBytes 4100 383) 3 6 0 (mkEntry 0 0 RestPhase) 1
         (mkAction 5 (Some 7%nat) None :: replicate 255 freeAction) [])
    = Ok (tt, m')
    /\ atomicSafeToReclaimEpoch (epoch m') = safe
    /\ 0 <= safe < 6
    /\ core m'
       = core (upd_epoch (set_atomicSafeToReclaimEpoch safe)
                 (aliased 4224 (mkBytes 4100 383) 3 6 0 (mkEntry 0 0 RestPhase) 1
                    (mkAction 5 (Some 7%nat) None :: replicate 255 freeAction)
                    []))
    /\ (forall k en, 1 <= k <= 3 ->
          slot (aliased 4224 (mkBytes 4100 383) 3 6 0 (mkEntry 0 0 RestPhase) 1
                  (mkAction 5 (Some 7%nat) None :: replicate 255 freeAction) [])
               k = Some en ->
          localCurrentEpoch en <> Unprotected -> safe < localCurrentEpoch en)
    /\ (safe = 6 - 1
        \/ exists k en,
             1 <= k <= 3
             /\ slot (aliased 4224 (mkBytes 4100 383) 3 6 0
                        (mkEntry 0 0 RestPhase) 1
                        (mkAction 5 (Some 7%nat) None
                         :: replicate 255 freeAction) [])
                     k = Some en
             /\ localCurrentEpoch en <> Unprotected
             /\ safe = localCurrentEpoch en - 1)
    /\ fired m'
       = [] ++ invoked_by safe
                 (mkAction 5 (Some 7%nat) None :: replicate 255 freeAction)
    /\ forall f c,
         (f, c) ∈ invoked_by safe
                    (mkAction 5 (Some 7%nat) None :: replicate 255 freeAction)
         <->
         exists a, a ∈ mkAction 5 (Some 7%nat) None :: replicate 255 freeAction
                   /\ callback a = Some f /\ ctx a = c
                   /\ atomicEpoch a <= safe.
Proof.
  assert (Hbuf : within (mkBytes 4100 383) 4224 64)
    by (unfold within; cbn; lia).
  destruct (one_waiting_ok 4224 (mkBytes 4100 383) 3 0 7%nat None []
              Hbuf ltac:(auto)) as (H1 & H2 & H3).
  apply (Drain_invokes_what_is_safe 6 _ H1 H2 H3); cbn; lia.
Defined.

Lemma Drain_leaves_nothing_due_witness :
  exists m',
    Drain 6
      (aliased 4224 (mkBytes 4100 383) 3 6 0 (mkEntry 0 0 RestPhase) 1
         (mkAction 5 (Some 7%nat) None :: replicate 255 freeAction) [])
    = Ok (tt, m')
    /\ epochs_ordered m' /\ drain_list_ok m'
    /\ (forall a, a ∈ drainList (epoch m') -> isFree a = false ->
          atomicSafeToReclaimEpoch (epoch m') < atomicEpoch a)
    /\ atomicDrainCount (epoch m') = Z.of_nat (length (waiting m'))
    /\ forall f,
         (invocations f m' + held f m'
          = invocations f
              (aliased 4224 (mkBytes 4100 383) 3 6 0 (mkEntry 0 0 RestPhase) 1
                 (mkAction 5 (Some 7%nat) None :: replicate 255 freeAction) [])
            + held f
                (aliased 4224 (mkBytes 4100 383) 3 6 0 (mkEntry 0 0 RestPhase) 1
                   (mkAction 5 (Some 7%nat) None :: replicate 255 freeAction)
                   []))%nat.
Proof.
  assert (Hbuf : within (mkBytes 4100 383) 4224 64)
    by (unfold within; cbn; lia).
  destruct (one_waiting_ok 4224 (mkBytes 4100 383) 3 0 7%nat None []
              Hbuf ltac:(auto)) as (H1 & H2 & H3).
  apply (Drain_leaves_nothing_due 6 _ H1 H2 H3); cbn; lia.
Defined.

End DrainMore.

(** ** The operations that write table entries and in-use flags only *)

Section Benign.
Import PtrTable.
Variable m0 : machine.
Local Abbreviation B := (benign m0).

Lemma benign_refl : B m0.
Proof. repeat split; auto. Qed.

Lemma B_load {A} (f : LightEpoch -> A) : preserves B (load f).
Proof. apply preserves_gets. Qed.

Lemma B_tableAt i : preserves B (tableAt i).
Proof. intros m q m' HB H. now apply tableAt_inv in H as [-> _]. Qed.

Lemma B_tableUsedAt i : preserves B (tableUsedAt i).
Proof.
  intros m u m' HB H. unfold tableUsedAt in H.
  destruct (nth_Z (tableUsed (epoch m)) i); [|discriminate].
  now injection H as _ <-.
Qed.

Lemma B_loadEntry q : preserves B (loadEntry q).
Proof. intros m en m' HB H. now apply loadEntry_inv in H as (-> & _). Qed.

Lemma entryOf_insert m q x p :
  entryOf (set_cells (<[q := x]> (cells m)) m) p
  = if decide (p = q) then x else entryOf m p.
Proof.
  unfold entryOf. cbn [cells set_cells].
  destruct (decide (p = q)) as [->|Hne].
  - now rewrite lookup_insert_eq.
  - now rewrite lookup_insert_ne by congruence.
Qed.

Lemma B_updEntry q g :
  (forall en, localCurrentEpoch (g en) = localCurrentEpoch en
              \/ localCurrentEpoch (g en) = 0
              \/ localCurrentEpoch (g en) = atomicCurrentEpoch (epoch m0)) ->
  preserves B (updEntry q g).
Proof.
  intros Hg m u m' (H1 & H2 & H3 & H4 & H5 & H6 & H7) H.
  apply updEntry_inv in H as ->.
  split; [exact H1|]. split; [exact H2|]. split; [exact H3|].
  split; [exact H4|]. split; [exact H5|]. split; [exact H6|].
  intros p. rewrite entryOf_insert.
  destruct (decide (p = q)) as [->|Hne]; [|apply H7].
  destruct (Hg (entryOf m q)) as [E|[E|E]]; rewrite E; auto.
Qed.

Lemma B_setTableUsedAt i u : preserves B (setTableUsedAt i u).
Proof.
  unfold setTableUsedAt.
  apply preserves_bind; [apply B_tableUsedAt|intros _].
  apply preserves_modify. intros m HB. exact HB.
Qed.

Lemma B_casTableUsed i old new : preserves B (casTableUsed i old new).
Proof.
  unfold casTableUsed.
  apply preserves_bind; [apply B_tableUsedAt|intros u].
  destruct (u =? old); [|apply preserves_ret].
  apply preserves_bind; [apply B_setTableUsedAt|intros _].
  apply preserves_ret.
Qed.

Ltac B_step :=
  first
    [ apply preserves_ret | apply preserves_panic | apply preserves_spin
    | apply B_load | apply B_tableAt | apply B_tableUsedAt
    | apply B_loadEntry | apply B_setTableUsedAt | apply B_casTableUsed
    | apply B_updEntry; intros ?; cbn; auto
    | apply preserves_bind; [|intros ?]
    | match goal with
      | |- preserves _ (if ?b then _ else _) => destruct b
      | |- preserves _ (match ?x with _ => _ end) => destruct x
      end ].

Lemma B_current : forall m a m',
  B m -> load atomicCurrentEpoch m = Ok (a, m') ->
  a = atomicCurrentEpoch (epoch m0).
Proof. intros m a m' (H1 & _) H. injection H as <- <-. exact H1. Qed.

Lemma B_probePass n : forall i startIdx iteration,
  preserves B (probePass n i startIdx iteration).
Proof.
  induction n as [|n IH]; intros i startIdx iteration; cbn [probePass];
    [apply preserves_ret|].
  apply preserves_bind; [apply B_load|intros num].
  apply preserves_bind; [apply B_casTableUsed|intros [|]];
    [apply preserves_ret|apply IH].
Qed.

Lemma B_findLoop fuel : forall startIdx iteration,
  preserves B (findLoop fuel startIdx iteration).
Proof.
  induction fuel as [|fuel IH]; intros startIdx iteration; cbn [findLoop];
    [apply preserves_spin|].
  apply preserves_bind; [apply B_load|intros num].
  apply preserves_bind; [apply B_probePass|intros [[idx|] it]];
    [apply preserves_ret|].
  destruct (u32 (3 * num) <? it); [apply preserves_panic|apply IH].
Qed.

Lemma B_resetPhases n : forall i, preserves B (resetPhases n i).
Proof.
  induction n as [|n IH]; intros i; cbn [resetPhases]; [apply preserves_ret|].
  apply preserves_bind; [apply B_tableAt|intros q].
  apply preserves_bind; [B_step|intros _]. apply IH.
Qed.

Lemma B_checkPhases n : forall i phase, preserves B (checkPhases n i phase).
Proof.
  induction n as [|n IH]; intros i phase; cbn [checkPhases];
    [apply preserves_ret|].
  apply preserves_bind; [apply B_tableAt|intros q].
  apply preserves_bind; [apply B_loadEntry|intros en]. cbv zeta.
  destruct (_ && _); [apply preserves_ret|apply IH].
Qed.

Lemma B_perform c : quiet_operation c -> preserves B (perform c).
Proof.
  intros Hc. destruct c; cbn [perform quiet_operation] in *;
    try contradiction.
  - apply preserves_bind; [apply B_findLoop|intros _; apply preserves_ret].
  - unfold ReleaseEntry. repeat B_step.
  - unfold Protect.
    apply preserves_bind; [|intros _; apply preserves_ret].
    apply preserves_bind; [apply B_tableAt|intros q].
    eapply preserves_bind_val; [apply B_load|apply B_current|].
    intros cur ->. repeat B_step.
  - unfold ReentrantProtect.
    apply preserves_bind; [|intros _; apply preserves_ret].
    apply preserves_bind; [apply B_tableAt|intros q].
    apply preserves_bind; [B_step|intros _].
    apply preserves_bind; [apply B_loadEntry|intros en].
    destruct (negb _); [apply preserves_ret|].
    eapply preserves_bind_val; [apply B_load|apply B_current|].
    intros cur ->. repeat B_step.
  - unfold IsProtected. repeat B_step.
  - unfold Unprotect. repeat B_step.
  - unfold ReentrantUnprotect. repeat B_step.
  - unfold IsSafeToReclaim. repeat B_step.
  - unfold ResetPhaseFinished.
    apply preserves_bind; [apply B_load|intros num]. apply B_resetPhases.
  - unfold MarkAndCheckIfFinished.
    apply preserves_bind; [|intros _; apply preserves_ret].
    apply preserves_bind; [apply B_tableAt|intros q].
    apply preserves_bind; [B_step|intros _].
    apply preserves_bind; [apply B_load|intros num]. apply B_checkPhases.
  - unfold HasThreadFinishedPhase. repeat B_step.
Qed.

End Benign.

Section BenignSound.
Import PtrTable.

Lemma benign_slot m m' k en' :
  benign m m' -> slot m' k = Some en' ->
  exists en, slot m k = Some en
    /\ (localCurrentEpoch en' = localCurrentEpoch en
        \/ localCurrentEpoch en' = 0
        \/ localCurrentEpoch en' = atomicCurrentEpoch (epoch m)).
Proof.
  intros (H1 & H2 & H3 & H4 & H5 & H6 & H7) Hs.
  apply slot_Some_inv in Hs as (p & Hp & Hv & ->).
  exists (entryOf m p). split; [|apply H7].
  unfold slot. rewrite <- H3, Hp.
  unfold valid in *. rewrite <- H5, Hv. reflexivity.
Qed.

Lemma benign_is_Some m m' k :
  benign m m' -> is_Some (slot m k) -> is_Some (slot m' k).
Proof.
  intros (H1 & H2 & H3 & H4 & H5 & H6 & H7) [en Hs].
  apply slot_Some_inv in Hs as (p & Hp & Hv & ->).
  exists (entryOf m' p). unfold slot. rewrite H3, Hp.
  unfold valid in *. rewrite H5, Hv. reflexivity.
Qed.

(** A state reached by such writes is as sound as the state it comes
    from, with the same epochs, drain list and invocations. *)
Lemma benign_sound m m' :
  benign m m' -> sound m ->
  sound m'
  /\ atomicCurrentEpoch (epoch m') = atomicCurrentEpoch (epoch m)
  /\ atomicSafeToReclaimEpoch (epoch m') = atomicSafeToReclaimEpoch (epoch m)
  /\ drains m' = drains m.
Proof.
  intros HB ((Hs & Hc & Hb) & (Hlen & Hok & Hcount) & Hread).
  pose proof HB as (H1 & H2 & H3 & H4 & H5 & H6 & H7).
  assert (Hd : drainList (epoch m') = drainList (epoch m)
               /\ atomicDrainCount (epoch m') = atomicDrainCount (epoch m)).
  { unfold drains in H6. injection H6 as E1 E2 E3. auto. }
  destruct Hd as [Hd1 Hd2].
  split; [|auto]. split; [|split].
  - split; [rewrite H1, H2; exact Hs|]. split.
    + intros q en Hq.
      assert (E : en = entryOf m' q) by (unfold entryOf; now rewrite Hq).
      subst en. destruct (H7 q) as [E|[E|E]]; rewrite E; [|lia|lia].
      unfold entryOf. destruct (cells m !! q) as [en|] eqn:Eq.
      * cbn. eapply Hc, Eq.
      * cbn. lia.
    + intros k en' Hk Hsl Hp. rewrite H4 in Hk.
      destruct (benign_slot m m' k en' HB Hsl) as (en & Hsl0 & [E|[E|E]]).
      * rewrite H2, E. apply (Hb k en Hk Hsl0). now rewrite <- E.
      * unfold Unprotected in Hp. lia.
      * rewrite H2, E. lia.
  - split; [now rewrite Hd1|]. split; [now rewrite Hd1|].
    unfold waiting. now rewrite Hd1, Hd2.
  - intros k Hk. rewrite H4 in Hk. eapply benign_is_Some; eauto.
Qed.

End BenignSound.

(** ** Registering an action *)

Section RegisterMore.
Import PtrTable.

Local Abbreviation count_waiting l :=
  (Z.of_nat (length (filter (fun a => isFree a = false) l))).

(** A push into a free slot. *)
Lemma tryPush_eq m i a priorEpoch cb cx :
  nth_Z (drainList (epoch m)) i = Some a -> atomicEpoch a = epochFree ->
  tryPush i priorEpoch cb cx m
  = Ok (true,
        upd_epoch (fun e => set_drainList
                     (upd_Z (drainList e) i (mkAction priorEpoch cb cx)) e) m).
Proof.
  intros Ha Hf. unfold tryPush, casActionEpoch.
  rewrite bind_eq, bind_eq, (actionAt_eq _ _ _ Ha), Hf, Z.eqb_refl.
  rewrite bind_eq, (updAction_eq _ _ _ _ Ha).
  set (m1 := upd_epoch _ m).
  assert (H1 : nth_Z (drainList (epoch m1)) i
               = Some (set_atomicEpoch epochLocked a)).
  { unfold m1. rewrite drainList_upd. eapply nth_Z_upd_eq, Ha. }
  cbn [mret M_ret]. rewrite bind_eq, (updAction_eq _ _ _ _ H1).
  set (m2 := upd_epoch _ m1).
  assert (H2 : nth_Z (drainList (epoch m2)) i
               = Some (set_callback cb (set_atomicEpoch epochLocked a))).
  { unfold m2. rewrite drainList_upd. eapply nth_Z_upd_eq, H1. }
  rewrite bind_eq, (updAction_eq _ _ _ _ H2).
  set (m3 := upd_epoch _ m2).
  assert (H3 : nth_Z (drainList (epoch m3)) i
               = Some (set_ctx cx (set_callback cb
                                     (set_atomicEpoch epochLocked a)))).
  { unfold m3. rewrite drainList_upd. eapply nth_Z_upd_eq, H2. }
  rewrite bind_eq, (updAction_eq _ _ _ _ H3).
  unfold m3, m2, m1. destruct m as [[c s t tu n dc dl] b cl fi].
  unfold upd_epoch, set_drainList. cbn.
  rewrite !upd_Z_upd_Z. reflexivity.
Qed.

Lemma count_waiting_zero (l : list epochAction) :
  count_waiting l = 0 -> Forall (fun a => isFree a = true) l.
Proof.
  induction l as [|a l IH]; intros H; [constructor|].
  rewrite count_waiting_cons in H. pose proof (count_waiting_nonneg l).
  destruct (isFree a) eqn:E; [|lia]. constructor; [exact E|apply IH; lia].
Qed.

(** An admissible [Drain] in a sound state. *)
Lemma Drain_sound x m :
  sound m ->
  atomicSafeToReclaimEpoch (epoch m) < x <= atomicCurrentEpoch (epoch m) ->
  atomicCurrentEpoch (epoch m) < 2 ^ 64 ->
  exists m',
    Drain x m = Ok (tt, m')
    /\ sound m' /\ none_due m'
    /\ atomicCurrentEpoch (epoch m') = atomicCurrentEpoch (epoch m)
    /\ atomicSafeToReclaimEpoch (epoch m)
       <= atomicSafeToReclaimEpoch (epoch m')
    /\ core m'
       = core (upd_epoch (set_atomicSafeToReclaimEpoch
                            (atomicSafeToReclaimEpoch (epoch m'))) m)
    /\ forall f,
         (invocations f m' + held f m' = invocations f m + held f m)%nat.
Proof.
  intros (Hord & Hok & Hread) Hx Hcur.
  destruct (Drain_returns x m Hord Hok Hread Hx Hcur) as (o & HD & Ho & Hall).
  destruct (drained_state_ok m o Hord Hok ltac:(lia) Hcur Hall)
    as [Hord' Hok'].
  eexists. split; [exact HD|]. split; [|split; [|split; [|split; [|split]]]].
  - split; [exact Hord'|]. split; [exact Hok'|]. exact Hread.
  - unfold none_due. cbn [with_drains epoch drainList atomicSafeToReclaimEpoch].
    change (atomicSafeToReclaimEpoch
              (epoch (upd_epoch (set_atomicSafeToReclaimEpoch (o - 1)) m)))
      with (o - 1).
    unfold drained. apply Forall_forall. intros a Ha Hfree.
    apply (list_elem_of_fmap_1
             (fun a => if atomicEpoch a <=? o - 1 then freeAction else a))
      in Ha as (b & -> & Hb).
    destruct (Z.leb_spec (atomicEpoch b) (o - 1)); [discriminate|lia].
  - reflexivity.
  - cbn. lia.
  - reflexivity.
  - intros f. destruct Hok as (_ & Hact & _).
    destruct (drained_ok (o - 1) (drainList (epoch m))) as (_ & _ & D3);
      [unfold epochFree; destruct Hord as ((? & ?) & _); lia|exact Hact|].
    specialize (D3 f). unfold invocations, held.
    cbn [with_drains epoch drainList fired].
    rewrite filter_app, length_app. lia.
Qed.

Lemma sound_bumped m :
  sound m -> atomicCurrentEpoch (epoch m) + 1 < 2 ^ 64 ->
  sound (upd_epoch (set_atomicCurrentEpoch
                      (atomicCurrentEpoch (epoch m) + 1)) m).
Proof.
  intros ((Hs & Hc & Hb) & Hok & Hread) Hcur.
  split; [|split; [exact Hok|exact Hread]].
  split; [cbn; lia|]. split; [exact Hc|exact Hb].
Qed.

(** [BumpCurrentEpoch] in a sound state. *)
Lemma BumpCurrentEpoch_sound m :
  sound m -> atomicCurrentEpoch (epoch m) + 1 < 2 ^ 64 ->
  exists m',
    BumpCurrentEpoch m = Ok (atomicCurrentEpoch (epoch m) + 1, m')
    /\ sound m' /\ none_due m'
    /\ atomicCurrentEpoch (epoch m') = atomicCurrentEpoch (epoch m) + 1
    /\ atomicSafeToReclaimEpoch (epoch m)
       <= atomicSafeToReclaimEpoch (epoch m')
    /\ core m'
       = core (upd_epoch (set_atomicSafeToReclaimEpoch
                            (atomicSafeToReclaimEpoch (epoch m')))
                 (upd_epoch (set_atomicCurrentEpoch
                               (atomicCurrentEpoch (epoch m) + 1)) m))
    /\ forall f,
         (invocations f m' + held f m' = invocations f m + held f m)%nat.
Proof.
  intros Hsound Hcur. pose proof Hsound as ((Hs & _) & (_ & _ & Hcount) & _).
  pose proof (sound_bumped m Hsound Hcur) as Hsb.
  set (mb := upd_epoch (set_atomicCurrentEpoch
                          (atomicCurrentEpoch (epoch m) + 1)) m) in *.
  assert (Hstep : forall k : Z -> M machine Z,
            (store (fun e => set_atomicCurrentEpoch
                               (u64 (atomicCurrentEpoch e + 1)) e);;
             nextEpoch ← load atomicCurrentEpoch; k nextEpoch) m
            = k (atomicCurrentEpoch (epoch m) + 1) mb).
  { intros k. rewrite bind_eq. cbn [store modify].
    rewrite bind_eq, load_eq. unfold mb, upd_epoch. cbn.
    rewrite (u64_small (atomicCurrentEpoch (epoch m) + 1)) by lia.
    reflexivity. }
  unfold BumpCurrentEpoch. rewrite Hstep. rewrite bind_eq, load_eq.
  change (atomicDrainCount (epoch mb)) with (atomicDrainCount (epoch m)).
  destruct (Z.ltb_spec 0 (atomicDrainCount (epoch m))) as [Hpos|Hzero].
  - destruct (Drain_sound (atomicCurrentEpoch (epoch m) + 1) mb Hsb)
      as (m' & HD & H1 & H2 & H3 & H4 & H5 & H6).
    { cbn. lia. }
    { cbn. lia. }
    exists m'. rewrite bind_eq, HD. split; [reflexivity|].
    split; [exact H1|]. split; [exact H2|]. split; [exact H3|].
    split; [exact H4|]. split; [exact H5|exact H6].
  - exists mb. split; [reflexivity|]. split; [exact Hsb|]. split.
    + unfold none_due. change (drainList (epoch mb)) with (drainList (epoch m)).
      assert (H0 : Z.of_nat (length (waiting m)) = 0) by lia.
      apply count_waiting_zero in H0.
      eapply Forall_impl; [exact H0|]. intros a Ha Hf. congruence.
    + split; [reflexivity|]. split; [cbn; lia|]. split; [|reflexivity].
      unfold mb. now destruct m as [[]].
Qed.

(** One turn of the loop at a slot that holds a waiting action that is
    not due. *)
Lemma registerLoop_waiting m fuel i j pe cb cx a :
  nth_Z (drainList (epoch m)) i = Some a -> isFree a = false ->
  atomicSafeToReclaimEpoch (epoch m) < atomicEpoch a ->
  registerLoop (S fuel) i j pe cb cx m
  = if i + 1 =? drainListSize
    then registerLoop fuel 0 (if j + 1 =? 500 then 0 else j + 1) pe cb cx m
    else registerLoop fuel (i + 1) j pe cb cx m.
Proof.
  intros Ha Hf Hd. cbn [registerLoop].
  rewrite bind_eq, (actionAt_eq _ _ _ Ha). cbv zeta.
  unfold isFree in Hf. rewrite Hf.
  rewrite bind_eq, bind_eq, load_eq.
  destruct (Z.leb_spec (atomicEpoch a) (atomicSafeToReclaimEpoch (epoch m)));
    [lia|].
  cbn [mret M_ret]. destruct (i + 1 =? drainListSize); reflexivity.
Qed.

(** One turn of the loop at a free slot. *)
Lemma registerLoop_free m fuel i j pe cb cx a :
  nth_Z (drainList (epoch m)) i = Some a -> isFree a = true ->
  registerLoop (S fuel) i j pe cb cx m
  = Ok (tt, with_drains m (upd_Z (drainList (epoch m)) i (mkAction pe cb cx))
              (u32 (atomicDrainCount (epoch m) + 1)) (fired m)).
Proof.
  intros Ha Hf. cbn [registerLoop].
  rewrite bind_eq, (actionAt_eq _ _ _ Ha). cbv zeta.
  pose proof Hf as Hf'. unfold isFree in Hf'. rewrite Hf'.
  apply isFree_true in Hf.
  rewrite bind_eq, bind_eq, (tryPush_eq _ _ _ _ _ _ Ha Hf).
  destruct m as [[c s t tu n dc dl] b cl fi]. reflexivity.
Qed.

(** Over waiting actions that are not due the loop walks on. *)
Lemma registerLoop_skip m pe cb cx j : forall k fuel i,
  0 <= i -> i + Z.of_nat k < drainListSize ->
  (forall t, i <= t < i + Z.of_nat k ->
     exists a, nth_Z (drainList (epoch m)) t = Some a
               /\ isFree a = false
               /\ atomicSafeToReclaimEpoch (epoch m) < atomicEpoch a) ->
  registerLoop (k + fuel) i j pe cb cx m
  = registerLoop fuel (i + Z.of_nat k) j pe cb cx m.
Proof.
  induction k as [|k IH]; intros fuel i Hi Hk Hall.
  - now rewrite Z.add_0_r.
  - destruct (Hall i ltac:(lia)) as (a & Ha & Hf & Hd).
    change (S k + fuel)%nat with (S (k + fuel)).
    rewrite (registerLoop_waiting _ _ _ _ _ _ _ _ Ha Hf Hd).
    destruct (Z.eqb_spec (i + 1) drainListSize) as [E|_]; [lia|].
    rewrite IH; [f_equal; lia|lia|lia|].
    intros t Ht. apply Hall. lia.
Qed.

(** With every slot waiting and none due the loop does not end. *)
Lemma registerLoop_full m pe cb cx :
  (forall t, 0 <= t < drainListSize ->
     exists a, nth_Z (drainList (epoch m)) t = Some a
               /\ isFree a = false
               /\ atomicSafeToReclaimEpoch (epoch m) < atomicEpoch a) ->
  forall fuel i j, 0 <= i < drainListSize ->
  registerLoop fuel i j pe cb cx m = Spin.
Proof.
  intros Hall. induction fuel as [|fuel IH]; intros i j Hi; [reflexivity|].
  destruct (Hall i Hi) as (a & Ha & Hf & Hd).
  rewrite (registerLoop_waiting _ _ _ _ _ _ _ _ Ha Hf Hd).
  destruct (Z.eqb_spec (i + 1) drainListSize) as [E|E];
    apply IH; unfold drainListSize in *; lia.
Qed.

(** What [first_free] says of the slots. *)
Lemma first_free_Some m i :
  first_free m = Some i ->
  (exists a, nth_Z (drainList (epoch m)) (Z.of_nat i) = Some a
             /\ isFree a = true)
  /\ forall t, 0 <= t < Z.of_nat i ->
       exists a, nth_Z (drainList (epoch m)) t = Some a /\ isFree a = false.
Proof.
  unfold first_free. intros H.
  destruct (list_find _ _) as [[i' a]|] eqn:E; [|discriminate].
  injection H as ->. apply list_find_Some in E as (Ha & Hf & Hbefore).
  split.
  - exists a. rewrite nth_Z_lookup, Nat2Z.id by lia. now split.
  - intros t Ht. rewrite nth_Z_lookup by lia.
    destruct (lookup_lt_is_Some_2 (drainList (epoch m)) (Z.to_nat t))
      as [b Hb].
    { apply lookup_lt_Some in Ha. lia. }
    exists b. split; [exact Hb|].
    specialize (Hbefore (Z.to_nat t) b Hb ltac:(lia)).
    now destruct (isFree b).
Qed.

Lemma first_free_None m :
  first_free m = None ->
  Forall (fun a => isFree a = false) (drainList (epoch m)).
Proof.
  unfold first_free. intros H.
  destruct (list_find _ _) as [[i' a]|] eqn:E; [discriminate|].
  apply list_find_None in E. eapply Forall_impl; [exact E|].
  intros a Ha. cbv beta in Ha.
  destruct (isFree a); [exfalso; apply Ha; reflexivity|reflexivity].
Qed.

(** The registration loop after the bump, from its first slot. *)
Lemma registerLoop_first_free m pe cb cx :
  length (drainList (epoch m)) = Z.to_nat drainListSize -> none_due m ->
  match first_free m with
  | Some i =>
      forall fuel,
        registerLoop fuel 0 0 pe cb cx m
        = if (i <? fuel)%nat
          then Ok (tt, with_drains m
                         (upd_Z (drainList (epoch m)) (Z.of_nat i)
                            (mkAction pe cb cx))
                         (u32 (atomicDrainCount (epoch m) + 1)) (fired m))
          else Spin
  | None => forall fuel, registerLoop fuel 0 0 pe cb cx m = Spin
  end.
Proof.
  intros Hlen Hdue.
  assert (Hd : forall t a, nth_Z (drainList (epoch m)) t = Some a ->
                 isFree a = false ->
                 atomicSafeToReclaimEpoch (epoch m) < atomicEpoch a).
  { intros t a Ha Hf. pose proof (nth_Z_Some_range _ _ _ Ha) as Hr.
    rewrite nth_Z_lookup in Ha by lia.
    unfold none_due in Hdue. rewrite Forall_forall in Hdue.
    apply Hdue; [eapply list_elem_of_lookup_2; exact Ha|exact Hf]. }
  destruct (first_free m) as [i|] eqn:E.
  - apply first_free_Some in E as ((a & Ha & Hf) & Hbefore).
    pose proof (nth_Z_Some_range _ _ _ Ha) as Hr. rewrite Hlen in Hr.
    assert (Hskip : forall fuel, registerLoop (i + fuel) 0 0 pe cb cx m
                      = registerLoop fuel (Z.of_nat i) 0 pe cb cx m).
    { intros fuel.
      rewrite registerLoop_skip; [reflexivity|lia|unfold drainListSize in *; lia|].
      intros t Ht. destruct (Hbefore t ltac:(lia)) as (b & Hb & Hfb).
      exists b. split; [exact Hb|]. split; [exact Hfb|]. eapply Hd; eauto. }
    intros fuel. destruct (Nat.ltb_spec i fuel) as [Hlt|Hge].
    + replace fuel with (i + S (fuel - S i))%nat by lia.
      rewrite Hskip. apply (registerLoop_free _ _ _ _ _ _ _ _ Ha Hf).
    + generalize (registerLoop_skip m pe cb cx 0 fuel 0 0 ltac:(lia)).
      rewrite Nat.add_0_r. intros ->; [reflexivity|unfold drainListSize in *; lia|].
      intros t Ht. destruct (Hbefore t ltac:(lia)) as (b & Hb & Hfb).
      exists b. split; [exact Hb|]. split; [exact Hfb|]. eapply Hd; eauto.
  - apply first_free_None in E. intros fuel.
    apply registerLoop_full; [|unfold drainListSize; lia].
    intros t Ht.
    destruct (lookup_lt_is_Some_2 (drainList (epoch m)) (Z.to_nat t))
      as [b Hb]; [lia|].
    rewrite Forall_forall in E.
    assert (Hfb : isFree b = false)
      by (apply E; eapply list_elem_of_lookup_2; exact Hb).
    exists b. rewrite nth_Z_lookup by lia. split; [exact Hb|].
    split; [exact Hfb|]. apply (Hd t); [|exact Hfb].
    now rewrite nth_Z_lookup by lia.
Qed.

End RegisterMore.

Section Registering.
Import PtrTable.

(** X26. [BumpCurrentEpochWithCallback] in a state with ordered epochs, a
    consistent drain list and a readable table, the counter not
    wrapping: the call bumps and drains as [BumpCurrentEpoch] does, then
    walks the drain list from slot 0 and stores the action (the epoch
    before the bump, the callback, the context) in the first free slot,
    adds one to the drain count and returns the new epoch; the swap with
    a due action is not reached, the drain having left none.  With [fuel]
    turns of the loop the call returns when the free slot is among the
    first [fuel] slots; when no slot is free it returns for no [fuel]. *)
Theorem BumpCurrentEpochWithCallback_registers m cb cx :
  sound m ->
  atomicCurrentEpoch (epoch m) + 1 < 2 ^ 64 ->
  exists m1,
    BumpCurrentEpoch m
    = Ok (atomicCurrentEpoch (epoch m) + 1, m1)
    /\ match first_free m1 with
       | Some i =>
           forall fuel,
             BumpCurrentEpochWithCallback fuel cb cx m
             = if (i <? fuel)%nat
               then Ok (atomicCurrentEpoch (epoch m) + 1,
                        with_drains m1
                          (upd_Z (drainList (epoch m1)) (Z.of_nat i)
                             (mkAction (atomicCurrentEpoch (epoch m))
                                cb cx))
                          (atomicDrainCount (epoch m1) + 1)
                          (fired m1))
               else Spin
       | None =>
           forall fuel,
             BumpCurrentEpochWithCallback fuel cb cx m = Spin
       end.
Proof.
  intros Hsound Hcur. pose proof Hsound as ((Hs & _) & _).
  destruct (BumpCurrentEpoch_sound m Hsound Hcur)
    as (m1 & HB & Hsound1 & Hdue & _).
  exists m1. split; [exact HB|].
  destruct Hsound1 as (_ & (Hlen & _ & Hcount) & _).
  pose proof (registerLoop_first_free m1
                (atomicCurrentEpoch (epoch m)) cb cx Hlen Hdue) as HR.
  assert (Hpe : u64 (atomicCurrentEpoch (epoch m) + 1 - 1)
                = atomicCurrentEpoch (epoch m))
    by (rewrite u64_small; lia).
  assert (Hret : u64 (atomicCurrentEpoch (epoch m) + 1)
                 = atomicCurrentEpoch (epoch m) + 1)
    by (rewrite u64_small; lia).
  assert (Hc : u32 (atomicDrainCount (epoch m1) + 1)
               = atomicDrainCount (epoch m1) + 1).
  { rewrite u32_small; [reflexivity|]. rewrite Hcount.
    pose proof (length_filter (fun a => isFree a = false)
                  (drainList (epoch m1))) as Hle.
    unfold waiting. rewrite Hlen in Hle.
    unfold drainListSize in Hle. lia. }
  destruct (first_free m1) as [i|].
  - intros fuel. unfold BumpCurrentEpochWithCallback.
    rewrite bind_eq, HB. cbv zeta. rewrite Hpe, bind_eq, HR.
    destruct (i <? fuel)%nat; [|reflexivity].
    cbn [mret M_ret]. now rewrite Hret, Hc.
  - intros fuel. unfold BumpCurrentEpochWithCallback.
    rewrite bind_eq, HB. cbv zeta. rewrite Hpe, bind_eq, HR. reflexivity.
Qed.

Lemma BumpCurrentEpochWithCallback_registers_witness :
  let m := aliased 4224 (mkBytes 4100 383) 3 6 0
             (mkEntry 5 0 RestPhase) 1
             (mkAction 5 (Some 7%nat) None :: replicate 255 freeAction) [] in
  exists m1,
    BumpCurrentEpoch m
    = Ok (atomicCurrentEpoch (epoch m) + 1, m1)
    /\ match first_free m1 with
       | Some i =>
           forall fuel,
             BumpCurrentEpochWithCallback fuel (Some 8%nat) None m
             = if (i <? fuel)%nat
               then Ok (atomicCurrentEpoch (epoch m) + 1,
                        with_drains m1
                          (upd_Z (drainList (epoch m1)) (Z.of_nat i)
                             (mkAction (atomicCurrentEpoch (epoch m))
                                (Some 8%nat) None))
                          (atomicDrainCount (epoch m1) + 1)
                          (fired m1))
               else Spin
       | None =>
           forall fuel,
             BumpCurrentEpochWithCallback fuel (Some 8%nat) None m
             = Spin
       end.
Proof.
  intros m.
  apply (BumpCurrentEpochWithCallback_registers m (Some 8%nat) None).
  - apply one_waiting_ok; [|right; reflexivity].
    unfold within; cbn; lia.
  - cbn. lia.
Defined.

End Registering.

(** ** Sequences of calls in a consistent state *)

Section Runs.
Import PtrTable.

Lemma length_filter_insert {A} (P : A -> Prop) `{!forall x, Decision (P x)}
  (l : list A) : forall i a x,
  l !! i = Some a ->
  (length (filter P (<[i := x]> l)) + (if decide (P a) then 1 else 0)
   = length (filter P l) + (if decide (P x) then 1 else 0))%nat.
Proof.
  induction l as [|b l IH]; intros [|i] a x Hl; try discriminate.
  - injection Hl as ->. change (<[0%nat := x]> (a :: l)) with (x :: l).
    rewrite !filter_cons.
    destruct (decide (P a)), (decide (P x)); cbn [length]; lia.
  - change (<[S i := x]> (b :: l)) with (b :: <[i := x]> l).
    rewrite !filter_cons. change ((b :: l) !! S i) with (l !! i) in Hl.
    specialize (IH i a x Hl). destruct (decide (P b)); cbn [length]; lia.
Qed.

Lemma sound_with_core m m' :
  core m' = core m -> sound m -> drain_list_ok m' -> sound m'.
Proof.
  intros Hc (Hord & _ & Hread) Hok. split; [|split; [exact Hok|]].
  - eapply epochs_ordered_core; [symmetry; exact Hc|exact Hord].
  - intros k Hk. rewrite (slot_core m' m k Hc).
    assert (Hn : entryNum (epoch m') = entryNum (epoch m))
      by (unfold core in Hc; congruence).
    apply Hread. rewrite <- Hn. exact Hk.
Qed.

(** The state after an action has been stored in a free slot. *)
Lemma registered_sound m i a pe cb cx :
  sound m -> nth_Z (drainList (epoch m)) i = Some a -> isFree a = true ->
  0 <= pe < epochLocked -> cb <> None ->
  sound (with_drains m (upd_Z (drainList (epoch m)) i (mkAction pe cb cx))
           (atomicDrainCount (epoch m) + 1) (fired m))
  /\ forall f,
       held f (with_drains m
                 (upd_Z (drainList (epoch m)) i (mkAction pe cb cx))
                 (atomicDrainCount (epoch m) + 1) (fired m))
       = (held f m + (if decide (cb = Some f) then 1 else 0))%nat.
Proof.
  intros Hsound Ha Hf Hpe Hcb.
  pose proof Hsound as (_ & (Hlen & Hact & Hcount) & _).
  pose proof (nth_Z_Some_range _ _ _ Ha) as Hr.
  rewrite nth_Z_lookup in Ha by lia.
  assert (Hupd : upd_Z (drainList (epoch m)) i (mkAction pe cb cx)
                 = <[Z.to_nat i := mkAction pe cb cx]> (drainList (epoch m))).
  { unfold upd_Z. destruct (Z.ltb_spec i 0); [lia|reflexivity]. }
  rewrite Hupd.
  assert (Hx : isFree (mkAction pe cb cx) = false).
  { apply isFree_false. cbn. unfold epochFree, epochLocked in *. lia. }
  assert (Hfa : action_ok a) by
    (rewrite Forall_forall in Hact; apply Hact;
     eapply list_elem_of_lookup_2; exact Ha).
  unfold action_ok in Hfa. rewrite Hf in Hfa. destruct Hfa as [Hca _].
  split.
  - apply (sound_with_core m); [reflexivity|exact Hsound|].
    split; [|split].
    + cbn [with_drains epoch drainList]. now rewrite length_insert.
    + cbn [with_drains epoch drainList]. apply Forall_insert; [exact Hact|].
      unfold action_ok. rewrite Hx. cbn. split; [exact Hpe|exact Hcb].
    + unfold waiting. cbn [with_drains epoch drainList atomicDrainCount].
      pose proof (length_filter_insert (fun a => isFree a = false)
                    (drainList (epoch m)) (Z.to_nat i) a
                    (mkAction pe cb cx) Ha) as HL.
      rewrite Hcount. unfold waiting.
      destruct (decide (isFree a = false)) as [E|_]; [congruence|].
      destruct (decide (isFree (mkAction pe cb cx) = false)) as [_|E];
        [lia|congruence].
  - intros f. unfold held. cbn [with_drains epoch drainList].
    pose proof (length_filter_insert (fun a => callback a = Some f)
                  (drainList (epoch m)) (Z.to_nat i) a
                  (mkAction pe cb cx) Ha) as HL.
    destruct (decide (callback a = Some f)) as [E|_]; [congruence|].
    cbn [callback] in HL. lia.
Qed.

(** A new object is in a consistent state. *)
Lemma new_sound p buf size :
  within buf p 64 ->
  sound (aliased p buf size 1 0 (mkEntry 0 0 RestPhase) 0
           (replicate 256 freeAction) []).
Proof.
  intros Hbuf. split; [|split].
  - split; [cbn; lia|]. split.
    + cbn [aliased cells]. intros q en H.
      apply lookup_singleton_Some in H as [_ <-]. cbn. lia.
    + intros i en Hi Hsl Hp.
      apply (aliased_slot_inv p buf size Hbuf) in Hsl as ->.
      cbn in Hp. unfold Unprotected in Hp. lia.
  - split; [reflexivity|]. split; [|reflexivity].
    apply Forall_replicate, action_ok_free.
  - now apply aliased_readable.
Qed.

(** The invocations of a callback and the slots that hold it. *)
Local Abbreviation accounted f m := (invocations f m + held f m)%nat.

Lemma drains_accounted m m' f :
  drains m' = drains m -> accounted f m' = accounted f m.
Proof.
  unfold drains, invocations, held. intros H. injection H as -> _ ->.
  reflexivity.
Qed.

(** A call that neither drains nor registers nor computes a safe epoch. *)
Lemma quiet_step c m m' :
  quiet_operation c -> sound m -> exec (perform c) m = Ok m' ->
  sound m'
  /\ atomicCurrentEpoch (epoch m') = atomicCurrentEpoch (epoch m)
  /\ atomicSafeToReclaimEpoch (epoch m') = atomicSafeToReclaimEpoch (epoch m)
  /\ drains m' = drains m
  /\ forall f, registers f c = false.
Proof.
  intros Hq Hs H. apply exec_Ok_inv in H as [u H].
  pose proof (B_perform m c Hq m u m' (benign_refl m) H) as HB.
  destruct (benign_sound m m' HB Hs) as (H1 & H2 & H3 & H4).
  split; [exact H1|]. split; [exact H2|]. split; [exact H3|].
  split; [exact H4|].
  intros f. destruct c; try reflexivity; contradiction.
Qed.

Lemma ComputeNewSafeToReclaimEpoch_step x m r m' :
  sound m ->
  atomicSafeToReclaimEpoch (epoch m) < x <= atomicCurrentEpoch (epoch m) ->
  atomicCurrentEpoch (epoch m) < 2 ^ 64 ->
  ComputeNewSafeToReclaimEpoch x m = Ok (r, m') ->
  sound m'
  /\ atomicSafeToReclaimEpoch (epoch m) <= atomicSafeToReclaimEpoch (epoch m')
  /\ atomicCurrentEpoch (epoch m') = atomicCurrentEpoch (epoch m)
  /\ drains m' = drains m.
Proof.
  intros Hs Hx Hcur H. pose proof Hs as ((Hs0 & Hc & Hb) & Hok & Hread).
  destruct (ComputeNewSafeToReclaimEpoch_scan x m Hread)
    as (o & HC & Hle & Hall & Hex).
  rewrite HC in H.
  assert (Hlow : atomicSafeToReclaimEpoch (epoch m) < o).
  { destruct Hex as [->|(k & en & Hk & Hsl & Hp & ->)]; [lia|].
    specialize (Hb k en Hk Hsl Hp). lia. }
  rewrite (u64_small (o - 1)) in H by lia. injection H as _ <-.
  split; [|split; [cbn; lia|split; reflexivity]].
  split; [|split].
  - split; [cbn; lia|]. split; [exact Hc|].
    intros i en Hi Hsl Hp. specialize (Hall i en Hi Hsl Hp). cbn. lia.
  - exact Hok.
  - intros k Hk. rewrite slot_set_safe. apply Hread. exact Hk.
Qed.

(** [SpinWaitForSafeToReclaim] returns after its first scan or not at
    all. *)
Lemma SpinWaitForSafeToReclaim_step fuel x t m u m' :
  SpinWaitForSafeToReclaim fuel x t m = Ok (u, m') ->
  exists r, ComputeNewSafeToReclaimEpoch x m = Ok (r, m').
Proof.
  destruct fuel as [|fuel]; [discriminate|].
  cbn [SpinWaitForSafeToReclaim]. intros H.
  apply bind_Ok_inv in H as (r & m1 & H1 & H).
  destruct (Z.leb_spec t r).
  - injection H as _ <-. eauto.
  - pose proof (ComputeNewSafeToReclaimEpoch_again _ _ _ _ H1) as H2.
    rewrite (SpinWait_never fuel x t m1 r H2) in H by lia. discriminate.
Qed.

Lemma ProtectAndDrain_step i m r m' :
  sound m -> atomicCurrentEpoch (epoch m) < 2 ^ 64 ->
  ProtectAndDrain i m = Ok (r, m') ->
  sound m'
  /\ atomicSafeToReclaimEpoch (epoch m) <= atomicSafeToReclaimEpoch (epoch m')
  /\ atomicCurrentEpoch (epoch m') = atomicCurrentEpoch (epoch m)
  /\ forall f, accounted f m' = accounted f m.
Proof.
  intros Hs Hcur H. unfold ProtectAndDrain in H.
  apply bind_Ok_inv in H as (q & m1 & H1 & H).
  apply tableAt_inv in H1 as [-> _].
  apply bind_Ok_inv in H as (c & m1 & H1 & H).
  rewrite load_eq in H1. injection H1 as <- <-.
  apply bind_Ok_inv in H as (u & m1 & H1 & H).
  assert (HB : benign m m1).
  { eapply (B_updEntry m q); [|apply benign_refl|exact H1].
    intros en. cbn. auto. }
  apply updEntry_inv in H1.
  destruct (benign_sound m m1 HB Hs) as (Hs1 & Hc1 & Hsafe1 & Hd1).
  apply bind_Ok_inv in H as (count & m2 & H2 & H).
  rewrite load_eq in H2. injection H2 as <- <-.
  apply bind_Ok_inv in H as (u2 & m2 & H2 & H).
  apply bind_Ok_inv in H as (en & m3 & H3 & H).
  apply loadEntry_inv in H3 as (-> & _ & _). injection H as _ <-.
  destruct (0 <? atomicDrainCount (epoch m1)).
  - apply bind_Ok_inv in H2 as (en1 & m3 & H3 & H2).
    apply loadEntry_inv in H3 as (-> & -> & _).
    assert (He : localCurrentEpoch (entryOf m1 q)
                 = atomicCurrentEpoch (epoch m1)).
    { rewrite Hc1, H1.
      change (set_cells (<[q := ?e]> (cells m)) m) with (withEntry m q e).
      now rewrite withEntry_entryOf. }
    rewrite He in H2.
    destruct (Drain_sound (atomicCurrentEpoch (epoch m1)) m1 Hs1)
      as (m'' & HD & D1 & _ & D3 & D4 & _ & D6).
    { destruct Hs1 as ((? & _) & _). lia. }
    { lia. }
    rewrite HD in H2. injection H2 as _ <-.
    split; [exact D1|]. split; [lia|]. split; [lia|].
    intros f. rewrite D6. now apply drains_accounted.
  - injection H2 as _ <-.
    split; [exact Hs1|]. split; [lia|]. split; [lia|].
    intros f. now apply drains_accounted.
Qed.

Lemma registers_decide f fuel cb cx :
  registers f (OpBumpCurrentEpochWithCallback fuel cb cx)
  = if decide (cb = Some f) then true else false.
Proof.
  cbn [registers]. destruct cb as [g|].
  - destruct (decide (Some g = Some f)) as [E|E], (Nat.eqb_spec g f);
      congruence.
  - destruct (decide (None = Some f)); [discriminate|reflexivity].
Qed.

Lemma BumpCurrentEpochWithCallback_step fuel cb cx m r m' :
  sound m -> atomicCurrentEpoch (epoch m) + 2 < 2 ^ 64 -> cb <> None ->
  BumpCurrentEpochWithCallback fuel cb cx m = Ok (r, m') ->
  sound m'
  /\ atomicSafeToReclaimEpoch (epoch m) <= atomicSafeToReclaimEpoch (epoch m')
  /\ atomicCurrentEpoch (epoch m') = atomicCurrentEpoch (epoch m) + 1
  /\ forall f,
       accounted f m'
       = (accounted f m + (if decide (cb = Some f) then 1 else 0))%nat.
Proof.
  intros Hsound Hcur Hcb H. pose proof Hsound as ((Hs & _) & _).
  destruct (BumpCurrentEpoch_sound m Hsound ltac:(lia))
    as (m1 & HB & Hsound1 & Hdue & Hc1 & Hs1 & _ & Hacc).
  pose proof Hsound1 as (_ & (Hlen & _ & Hcount) & _).
  pose proof (registerLoop_first_free m1
                (atomicCurrentEpoch (epoch m)) cb cx Hlen Hdue) as HR.
  assert (Hpe : u64 (atomicCurrentEpoch (epoch m) + 1 - 1)
                = atomicCurrentEpoch (epoch m))
    by (rewrite u64_small; lia).
  assert (Hc : u32 (atomicDrainCount (epoch m1) + 1)
               = atomicDrainCount (epoch m1) + 1).
  { rewrite u32_small; [reflexivity|]. rewrite Hcount.
    pose proof (length_filter (fun a => isFree a = false)
                  (drainList (epoch m1))) as Hle.
    unfold waiting. rewrite Hlen in Hle. unfold drainListSize in Hle. lia. }
  unfold BumpCurrentEpochWithCallback in H.
  rewrite bind_eq, HB in H. cbv zeta in H. rewrite Hpe, bind_eq in H.
  destruct (first_free m1) as [i|] eqn:E; rewrite HR in H; [|discriminate].
  destruct (i <? fuel)%nat; [|discriminate].
  cbn [mret M_ret] in H. injection H as _ <-. rewrite Hc.
  apply first_free_Some in E as ((a & Ha & Hf) & _).
  destruct (registered_sound m1 (Z.of_nat i) a (atomicCurrentEpoch (epoch m))
              cb cx Hsound1 Ha Hf) as (R1 & R2);
    [unfold epochLocked; lia|exact Hcb|].
  split; [exact R1|]. split; [exact Hs1|]. split; [exact Hc1|].
  intros f. rewrite R2. specialize (Hacc f).
  change (invocations f (with_drains m1 ?l ?c (fired m1)))
    with (invocations f m1).
  lia.
Qed.

(** One admissible call in a consistent state. *)
Lemma sound_step c m m' :
  sound m -> admissible c m ->
  atomicCurrentEpoch (epoch m) + 2 < 2 ^ 64 ->
  exec (perform c) m = Ok m' ->
  sound m'
  /\ atomicSafeToReclaimEpoch (epoch m) <= atomicSafeToReclaimEpoch (epoch m')
  /\ atomicCurrentEpoch (epoch m) <= atomicCurrentEpoch (epoch m')
     <= atomicCurrentEpoch (epoch m) + 1
  /\ forall f,
       accounted f m'
       = (accounted f m + (if registers f c then 1 else 0))%nat.
Proof.
  intros Hs Ha Hcur H.
  assert (Hquiet : quiet_operation c ->
            sound m'
            /\ atomicSafeToReclaimEpoch (epoch m)
               <= atomicSafeToReclaimEpoch (epoch m')
            /\ atomicCurrentEpoch (epoch m) <= atomicCurrentEpoch (epoch m')
               <= atomicCurrentEpoch (epoch m) + 1
            /\ forall f,
                 accounted f m'
                 = (accounted f m + (if registers f c then 1 else 0))%nat).
  { intros Hq.
    destruct (quiet_step c m m' Hq Hs H) as (Q1 & Q2 & Q3 & Q4 & Q5).
    split; [exact Q1|]. split; [lia|]. split; [lia|].
    intros f. rewrite Q5, (drains_accounted m m' f Q4). lia. }
  destruct c; try (apply Hquiet; exact I);
    apply exec_Ok_inv in H as [u H]; cbn [perform admissible] in *.
  - apply bind_Ok_inv in H as (r & m1 & H1 & H). injection H as _ <-.
    destruct (ProtectAndDrain_step _ _ _ _ Hs ltac:(lia) H1)
      as (P1 & P2 & P3 & P4).
    split; [exact P1|]. split; [exact P2|]. split; [lia|].
    intros f. rewrite P4. cbn [registers]. lia.
  - destruct (Drain_sound nextEpoch m Hs Ha ltac:(lia))
      as (m'' & HD & D1 & _ & D3 & D4 & _ & D6).
    rewrite HD in H. injection H as _ <-.
    split; [exact D1|]. split; [exact D4|]. split; [lia|].
    intros f. rewrite D6. cbn [registers]. lia.
  - apply bind_Ok_inv in H as (r & m1 & H1 & H). injection H as _ <-.
    destruct (BumpCurrentEpoch_sound m Hs ltac:(lia))
      as (m'' & HB & B1 & _ & B3 & B4 & _ & B6).
    rewrite HB in H1. injection H1 as _ <-.
    split; [exact B1|]. split; [exact B4|]. split; [lia|].
    intros f. rewrite B6. cbn [registers]. lia.
  - apply bind_Ok_inv in H as (r & m1 & H1 & H). injection H as _ <-.
    destruct (BumpCurrentEpochWithCallback_step _ _ _ _ _ _ Hs Hcur Ha H1)
      as (R1 & R2 & R3 & R4).
    split; [exact R1|]. split; [exact R2|]. split; [lia|].
    intros f. rewrite R4, registers_decide.
    now destruct (decide (_ = Some f)).
  - apply bind_Ok_inv in H as (r & m1 & H1 & H). injection H as _ <-.
    destruct (ComputeNewSafeToReclaimEpoch_step _ _ _ _ Hs Ha ltac:(lia) H1)
      as (C1 & C2 & C3 & C4).
    split; [exact C1|]. split; [exact C2|]. split; [lia|].
    intros f. rewrite (drains_accounted _ _ f C4). cbn [registers]. lia.
  - apply SpinWaitForSafeToReclaim_step in H as [r H1].
    destruct (ComputeNewSafeToReclaimEpoch_step _ _ _ _ Hs Ha ltac:(lia) H1)
      as (C1 & C2 & C3 & C4).
    split; [exact C1|]. split; [exact C2|]. split; [lia|].
    intros f. rewrite (drains_accounted _ _ f C4). cbn [registers]. lia.
Qed.

(** The last state of a sequence of admissible calls that have all
    returned. *)
Lemma sound_run cs : forall m m',
  sound m -> admissible_run cs m ->
  atomicCurrentEpoch (epoch m) + Z.of_nat (length cs) + 1 < 2 ^ 64 ->
  exec (performAll cs) m = Ok m' ->
  sound m'
  /\ forall f, accounted f m' = (accounted f m + registrations f cs)%nat.
Proof.
  induction cs as [|c cs IH]; intros m m' Hs Hadm Hlen H.
  - injection H as <-. split; [exact Hs|]. intros f. cbn. lia.
  - cbn [length] in Hlen. apply exec_Ok_inv in H as [u H].
    cbn [performAll] in H. apply bind_Ok_inv in H as (u1 & m1 & H1 & H).
    assert (E : exec (perform c) m = Ok m1) by (unfold exec; now rewrite H1).
    destruct Hadm as [Ha Hadm]. rewrite E in Hadm.
    destruct (sound_step c m m1 Hs Ha ltac:(lia) E) as (S1 & S2 & S3 & S4).
    destruct (IH m1 m' S1 Hadm ltac:(lia)) as (I1 & I2).
    { unfold exec. now rewrite H. }
    split; [exact I1|]. intros f. rewrite I2, S4. cbn [registrations]. lia.
Qed.

(** X27.  Calls of the exported operations of the [LightEpoch] with the
    table of pointers, in any order, started in a state with ordered
    epochs, a consistent drain list and a readable table.  When the
    arguments are admissible (an epoch handed to [Drain],
    [ComputeNewSafeToReclaimEpoch] or [SpinWaitForSafeToReclaim] is above
    the safe epoch and at most the current epoch, a registered callback
    is not nil) and the counter does not wrap, every state that a call
    returns in is such a state again: the safe epoch is below the current
    epoch and below the epoch of every protected usable slot, and the
    drain count is the number of waiting actions.  From one state to the
    next the safe epoch never decreases and the current epoch grows by at
    most one. *)
Theorem calls_keep_the_state_consistent cs : forall m,
  sound m -> admissible_run cs m ->
  atomicCurrentEpoch (epoch m) + Z.of_nat (length cs) + 1
  < 2 ^ 64 ->
  Forall sound (history cs m)
  /\ forall k a b,
       (m :: history cs m) !! k = Some a ->
       (m :: history cs m) !! S k = Some b ->
       atomicSafeToReclaimEpoch (epoch a)
       <= atomicSafeToReclaimEpoch (epoch b)
       /\ atomicCurrentEpoch (epoch a)
          <= atomicCurrentEpoch (epoch b)
          <= atomicCurrentEpoch (epoch a) + 1.
Proof.
  induction cs as [|c cs IH]; intros m Hs Hadm Hlen.
  - split; [constructor|]. intros k a b _ Hb.
    cbn [history] in Hb.
    change ([m] !! S k) with (@nil machine !! k) in Hb.
    now rewrite lookup_nil in Hb.
  - cbn [length] in Hlen. destruct Hadm as [Ha Hadm].
    cbn [history].
    destruct (exec (perform c) m) as [m'| |] eqn:E.
    + destruct (sound_step c m m' Hs Ha ltac:(lia) E)
        as (S1 & S2 & S3 & _).
      destruct (IH m' S1 Hadm ltac:(lia)) as (Hall & Hmono).
      split; [now constructor|].
      intros [|k] a b Hka Hkb.
      * injection Hka as <-. injection Hkb as <-. split; [exact S2|exact S3].
      * exact (Hmono k a b Hka Hkb).
    + split; [constructor|]. intros k a b _ Hb.
      change ([m] !! S k) with (@nil machine !! k) in Hb.
      now rewrite lookup_nil in Hb.
    + split; [constructor|]. intros k a b _ Hb.
      change ([m] !! S k) with (@nil machine !! k) in Hb.
      now rewrite lookup_nil in Hb.
Qed.

Lemma calls_keep_the_state_consistent_witness :
  let m := aliased 4224 (mkBytes 4100 383) 3 6 0
             (mkEntry 5 0 RestPhase) 1
             (mkAction 5 (Some 7%nat) None :: replicate 255 freeAction) [] in
  let cs := [OpBumpCurrentEpochWithCallback 2 (Some 8%nat) None;
             OpUnprotect 1;
             OpDrain 7;
             OpReentrantProtect 2;
             OpSpinWaitForSafeToReclaim 1 7 6] in
  length (history cs m) = 5%nat
  /\ Forall sound (history cs m)
  /\ forall k a b,
       (m :: history cs m) !! k = Some a ->
       (m :: history cs m) !! S k = Some b ->
       atomicSafeToReclaimEpoch (epoch a)
       <= atomicSafeToReclaimEpoch (epoch b)
       /\ atomicCurrentEpoch (epoch a)
          <= atomicCurrentEpoch (epoch b)
          <= atomicCurrentEpoch (epoch a) + 1.
Proof.
  intros m cs. split; [vm_compute; reflexivity|].
  apply (calls_keep_the_state_consistent cs m).
  - apply one_waiting_ok; [|right; reflexivity].
    unfold within; cbn; lia.
  - vm_compute. repeat split; try discriminate.
  - cbn. lia.
Defined.

(** X28.  From a new [LightEpoch] with the table of pointers, after any
    sequence of calls of the exported operations with admissible
    arguments that have all returned, and for every callback: the number
    of times it has been invoked plus the number of slots of the drain
    list that hold it is the number of calls of
    [BumpCurrentEpochWithCallback] that registered it.  No registered
    action is lost, and none is invoked more often than it was
    registered. *)
Theorem registered_callbacks_are_invoked_once addr size cs m0 m f :
  0 <= size < 2 ^ 26 - 2 -> 0 <= addr ->
  addr + ((size + 2) * 64 + 63) <= 2 ^ 64 ->
  NewLightEpoch addr size = Ok m0 ->
  admissible_run cs m0 ->
  Z.of_nat (length cs) + 2 < 2 ^ 64 ->
  exec (performAll cs) m0 = Ok m ->
  (invocations f m + held f m)%nat
  = registrations f cs.
Proof.
  intros Hsize Haddr Hend Hnew Hadm Hlen Hrun.
  destruct (NewLightEpoch_eq addr size Hsize Haddr Hend)
    as (p & buf & Hm & Hbuf).
  rewrite Hm in Hnew. injection Hnew as <-.
  destruct (sound_run cs _ m (new_sound p buf size Hbuf)
              Hadm) as (_ & Hacc); [cbn; lia|exact Hrun|].
  rewrite Hacc. unfold invocations, held.
  cbn [aliased fired epoch drainList].
  rewrite filter_nil. cbn [length].
  assert (H0 : forall n, filter (fun a => callback a = Some f)
                           (replicate n freeAction) = []).
  { induction n as [|n IHn]; [reflexivity|]. cbn [replicate].
    rewrite filter_cons_False; [exact IHn|cbn; discriminate]. }
  rewrite H0. reflexivity.
Qed.

Lemma registered_callbacks_are_invoked_once_witness :
  let cs := [OpProtect 1;
             OpBumpCurrentEpochWithCallback 1 (Some 7%nat) None;
             OpBumpCurrentEpochWithCallback 2 (Some 7%nat) None;
             OpUnprotect 1;
             OpBumpCurrentEpoch] in
  exists m0 m,
    NewLightEpoch 4100 3 = Ok m0
    /\ exec (performAll cs) m0 = Ok m
    /\ (invocations 7%nat m + held 7%nat m)%nat
       = registrations 7%nat cs.
Proof.
  intros cs.
  destruct (NewLightEpoch 4100 3) as [m0| |] eqn:E0;
    [|vm_compute in E0; discriminate..].
  destruct (exec (performAll cs) m0) as [m| |] eqn:E.
  - exists m0, m. split; [reflexivity|]. split; [exact E|].
    apply (registered_callbacks_are_invoked_once 4100 3 cs m0 m 7%nat);
      [lia|lia|lia|exact E0| |cbn; lia|exact E].
    vm_compute in E0. injection E0 as <-.
    vm_compute. repeat split; try discriminate.
  - vm_compute in E0. injection E0 as <-. vm_compute in E. discriminate.
  - vm_compute in E0. injection E0 as <-. vm_compute in E. discriminate.
Defined.

End Runs.

(** ** What the other operations leave alone, and a nil callback *)

Section Frames.
Import PtrTable.

(** X29.  The operations that neither drain nor register nor compute a
    safe epoch ([FindAndReserveEmptyEntry], [ReleaseEntry], [Protect],
    [ReentrantProtect], [IsProtected], [Unprotect], [ReentrantUnprotect],
    [IsSafeToReclaim], [ResetPhaseFinished], [MarkAndCheckIfFinished],
    [HasThreadFinishedPhase]) write table entries and in-use flags only:
    in whatever state they are called, when they return the current
    epoch, the safe epoch, the table of pointers, the number of entries,
    the buffer, the drain list, the drain count and the record of
    invoked callbacks are as before, and the epoch of an entry is as
    before, 0, or the current epoch. *)
Theorem quiet_operations_write_entries_only c m m' :
  quiet_operation c -> exec (perform c) m = Ok m' ->
  atomicCurrentEpoch (epoch m') = atomicCurrentEpoch (epoch m)
  /\ atomicSafeToReclaimEpoch (epoch m') = atomicSafeToReclaimEpoch (epoch m)
  /\ table (epoch m') = table (epoch m)
  /\ entryNum (epoch m') = entryNum (epoch m)
  /\ tableBuf m' = tableBuf m
  /\ drainList (epoch m') = drainList (epoch m)
  /\ atomicDrainCount (epoch m') = atomicDrainCount (epoch m)
  /\ fired m' = fired m
  /\ forall q,
       localCurrentEpoch (entryOf m' q) = localCurrentEpoch (entryOf m q)
       \/ localCurrentEpoch (entryOf m' q) = 0
       \/ localCurrentEpoch (entryOf m' q) = atomicCurrentEpoch (epoch m).
Proof.
  intros Hq H. apply exec_Ok_inv in H as [u H].
  destruct (B_perform m c Hq m u m' (benign_refl m) H)
    as (H1 & H2 & H3 & H4 & H5 & H6 & H7).
  unfold drains in H6. injection H6 as Hd Hc Hf.
  split; [exact H1|]. split; [exact H2|]. split; [exact H3|].
  split; [exact H4|]. split; [exact H5|]. split; [exact Hd|].
  split; [exact Hc|]. split; [exact Hf|]. exact H7.
Qed.

Lemma quiet_operations_write_entries_only_witness :
  let m := aliased 4224 (mkBytes 4100 383) 3 6 0 (mkEntry 5 0 RestPhase) 1
             (mkAction 5 (Some 7%nat) None :: replicate 255 freeAction) [] in
  exists m',
    exec (perform (OpReentrantProtect 2)) m = Ok m'
    /\ atomicCurrentEpoch (epoch m') = atomicCurrentEpoch (epoch m)
    /\ atomicSafeToReclaimEpoch (epoch m')
       = atomicSafeToReclaimEpoch (epoch m)
    /\ table (epoch m') = table (epoch m)
    /\ entryNum (epoch m') = entryNum (epoch m)
    /\ tableBuf m' = tableBuf m
    /\ drainList (epoch m') = drainList (epoch m)
    /\ atomicDrainCount (epoch m') = atomicDrainCount (epoch m)
    /\ fired m' = fired m
    /\ forall q,
         localCurrentEpoch (entryOf m' q) = localCurrentEpoch (entryOf m q)
         \/ localCurrentEpoch (entryOf m' q) = 0
         \/ localCurrentEpoch (entryOf m' q) = atomicCurrentEpoch (epoch m).
Proof.
  intros m.
  destruct (exec (perform (OpReentrantProtect 2)) m) as [m'| |] eqn:E;
    [|vm_compute in E; discriminate..].
  exists m'. split; [reflexivity|].
  apply (quiet_operations_write_entries_only (OpReentrantProtect 2) m m');
    [exact I|exact E].
Defined.

(** X30.  [BumpCurrentEpochWithCallback] does not look at the callback: on
    a new object it stores an action with a nil callback like any other
    and returns the new epoch 2.  The nil function is called, and the
    caller panics, in the call that finds the action due: the next
    [BumpCurrentEpoch], or a [Drain] with an epoch from 2 on. *)
Theorem nil_callback_panics_in_the_drain addr size fuel cx x :
  1 <= size < 2 ^ 26 - 2 -> 0 <= addr ->
  addr + ((size + 2) * 64 + 63) <= 2 ^ 64 ->
  2 <= x < 2 ^ 64 ->
  exists m0 m1,
    NewLightEpoch addr size = Ok m0
    /\ BumpCurrentEpochWithCallback (S fuel) None cx m0 = Ok (2, m1)
    /\ drainList (epoch m1) = mkAction 1 None cx :: replicate 255 freeAction
    /\ atomicDrainCount (epoch m1) = 1
    /\ BumpCurrentEpoch m1 = Panic
    /\ Drain x m1 = Panic.
Proof.
  intros Hsize Haddr Hend Hx.
  destruct (NewLightEpoch_eq addr size ltac:(lia) Haddr Hend)
    as (p & buf & Hm & Hbuf).
  assert (Hs : 1 <= size) by lia.
  set (en := mkEntry 0 0 RestPhase) in *.
  set (rest := replicate 255 freeAction).
  set (m1 := aliased p buf size 2 0 en 1 (mkAction 1 None cx :: rest) []).
  assert (HD : forall cur y, 2 <= y < 2 ^ 64 ->
            Drain y (aliased p buf size cur 0 en 1
                       (mkAction 1 None cx :: rest) []) = Panic).
  { intros cur y Hy. unfold Drain.
    rewrite bind_eq, (aliased_ComputeNewSafeToReclaimEpoch p buf size Hbuf)
      by exact Hs.
    assert (Hold : u64 (older en y - 1) = y - 1).
    { unfold older, en. cbn. apply u64_small. lia. }
    rewrite Hold.
    change (Z.to_nat drainListSize) with (S 255). rewrite drainLoop_S.
    rewrite bind_eq, (actionAt_eq _ _ (mkAction 1 None cx)) by reflexivity.
    cbv zeta. rewrite bind_eq, load_eq. cbn [atomicEpoch].
    change (atomicSafeToReclaimEpoch (epoch (aliased p buf size cur (y - 1) en
              1 (mkAction 1 None cx :: rest) []))) with (y - 1).
    destruct (Z.leb_spec 1 (y - 1)); [|lia].
    rewrite bind_eq.
    rewrite (tryPop_nil_callback _ 0 (mkAction 1 None cx)) by reflexivity.
    reflexivity. }
  exists (aliased p buf size 1 0 en 0 (replicate 256 freeAction) []), m1.
  split; [exact Hm|]. split.
  - change (replicate 256 freeAction) with (freeAction :: rest).
    rewrite (aliased_register_first_slot p buf size Hbuf Hs). reflexivity.
  - split; [reflexivity|]. split; [reflexivity|]. split.
    + unfold BumpCurrentEpoch. rewrite bind_eq. cbn [store modify].
      change (upd_epoch _ m1)
        with (aliased p buf size (u64 (2 + 1)) 0 en 1
                (mkAction 1 None cx :: rest) []).
      rewrite bind_eq, load_eq, bind_eq, load_eq.
      change (0 <? atomicDrainCount _) with true.
      rewrite bind_eq. cbn [epoch aliased atomicCurrentEpoch].
      rewrite (HD (u64 (2 + 1)) (u64 (2 + 1))); [reflexivity|].
      change (u64 (2 + 1)) with 3. lia.
    + apply (HD 2 x Hx).
Qed.

Lemma nil_callback_panics_in_the_drain_witness :
  exists m0 m1,
    NewLightEpoch 4100 3 = Ok m0
    /\ BumpCurrentEpochWithCallback 1 None None m0 = Ok (2, m1)
    /\ drainList (epoch m1)
       = mkAction 1 None None :: replicate 255 freeAction
    /\ atomicDrainCount (epoch m1) = 1
    /\ BumpCurrentEpoch m1 = Panic
    /\ Drain 2 m1 = Panic.
Proof.
  apply (nil_callback_panics_in_the_drain 4100 3 0 None 2); lia.
Defined.

End Frames.
